(** * Chune tuner: pitch detection, note mapping and the meter session

    A shallow embedding of the pitch engine of the tuner component
    ([freqToNote], [detectPitch] and the [detect] cycle of [MeterMode]).

    Number model.  JavaScript numbers are IEEE 754 binary64 values.
    - The estimator [detectPitch] uses only [+ - * /], [Math.sqrt] and
      comparisons, which are all primitive operations on Rocq's [float];
      it is embedded on [float] bit for bit, including NaN, the infinities
      and the single-precision rounding of a [Float32Array] store.
    - The note mapper [freqToNote] needs [Math.log2], which ECMAScript
      fixes at a few special values only and otherwise leaves to the engine.
      [MapperJS] is the mapper on [float]: every operation is the operation
      of doubles, and the engine's logarithm is a parameter.  The range and
      the monotonicity of the cents and the arithmetic of note and octave
      are proved there, for every double and every engine; the section on
      binary64 arithmetic relates the primitive operations to rounding on
      the real numbers for that purpose.
      [Mapper] is the mapper with the exact logarithm on the real numbers
      and no rounding.  It gives the values at single frequencies (440 Hz,
      the quarter tone above it, 452.8 Hz), and the session is stated over
      it; the session's theorems are about how cents values are stored and
      averaged.  The rolling mean of the session is a quotient of two
      small integers and is kept as a real number too. *)

From Stdlib Require Import String Ascii DecimalString.
From Stdlib Require Import Reals.
From Stdlib Require Import Floats Uint63.
From Stdlib Require Import List ZArith Bool Lia Lra.
Import ListNotations.

(** ** The estimator, on binary64 floats *)

Module Estimator.

Local Open Scope float_scope.

(** A [Float32Array] is a sequence of numbers; a frame is one of them. *)
Definition Float32Array := list float.

(** The JavaScript number of an array index or length. *)
Definition num (n : nat) : float := of_uint63 (Uint63.of_Z (Z.of_nat n)).

(** [a[i]]: a read past the end yields [undefined], and [undefined] becomes
    NaN in every arithmetic operation and comparison the code applies to it. *)
Definition get (a : Float32Array) (i : nat) : float := nth i a nan.

(** [Math.fround]: rounding of a binary64 value to the nearest binary32
    value (ties to even), which is what a [Float32Array] store does. *)
Definition fround (x : float) : float :=
  match Prim2SF x with
  | S754_finite s m e =>
      SF2Prim (binary_normalize 24 128 (cond_Zopp s (Zpos m)) e s)
  | _ => x
  end.

(** [a[i] = v]: the value is rounded to single precision; a store past the
    end of a typed array is ignored. *)
Definition store (a : Float32Array) (i : nat) (v : float) : Float32Array :=
  if (i <? length a)%nat then firstn i a ++ fround v :: skipn (S i) a else a.

(** The literals of the source, as the doubles JavaScript parses them to. *)
Definition noise_floor : float := 0x1.47ae147ae147bp-7.   (* 0.01 *)
Definition threshold : float := 0x1.3333333333333p-3.     (* 0.15 *)
Definition low_cutoff : float := 60.
Definition high_cutoff : float := 1500.

(** [for (let i = 0; i < SIZE; i++) rms += buf[i] * buf[i];
     rms = Math.sqrt(rms / SIZE);] *)
Definition sum_squares (buf : Float32Array) : float :=
  fold_left (fun rms x => rms + x * x) buf 0.

Definition rms_of (buf : Float32Array) : float :=
  PrimFloat.sqrt (sum_squares buf / num (length buf)).

(** The inner loop of the difference function at lag [tau]:
    [for (let i = 0; i < SIZE / 2; i++) { delta = buf[i] - buf[i + tau];
     diff += delta * delta; }] *)
Definition diff_at (buf : Float32Array) (half tau : nat) : float :=
  fold_left
    (fun diff i => let delta := get buf i - get buf (i + tau) in
                   diff + delta * delta)
    (seq 0 half) 0.

(** One iteration of the outer loop: the state is [(runningSum, yinBuffer)]. *)
Definition yin_step (buf : Float32Array) (half : nat)
    (st : float * Float32Array) (tau : nat) : float * Float32Array :=
  let '(runningSum, yinBuffer) := st in
  let diff := diff_at buf half tau in
  let runningSum := runningSum + diff in
  (runningSum, store yinBuffer tau (diff * num tau / runningSum)).

(** [new Float32Array(SIZE / 2)] is zero-filled; [yinBuffer[0] = 1]. *)
Definition yin_init (half : nat) : float * Float32Array :=
  (0, store (repeat 0 half) 0 1).

(** [for (let tau = 1; tau < SIZE / 2; tau++) ...] *)
Definition yin_loop (buf : Float32Array) (half : nat) : float * Float32Array :=
  fold_left (yin_step buf half) (seq 1 (half - 1)) (yin_init half).

Definition yin_fill (buf : Float32Array) (half : nat) : Float32Array :=
  snd (yin_loop buf half).

(** The inner [while] of the threshold search:
    [while (tau + 1 < SIZE / 2 && yinBuffer[tau + 1] < yinBuffer[tau]) tau++;] *)
Fixpoint walk (yin : Float32Array) (half fuel tau : nat) : nat :=
  match fuel with
  | O => tau
  | S fuel' =>
      if ((tau + 1 <? half)%nat && (get yin (tau + 1) <? get yin tau))%bool
      then walk yin half fuel' (tau + 1)
      else tau
  end.

(** The outer [while (tau < SIZE / 2)]: the first lag below the threshold
    starts the walk and leaves the loop ([break]); otherwise [tau++]. *)
Fixpoint scan (yin : Float32Array) (half fuel tau : nat) : nat :=
  match fuel with
  | O => tau
  | S fuel' =>
      if (tau <? half)%nat then
        if get yin tau <? threshold then walk yin half half tau
        else scan yin half fuel' (tau + 1)
      else tau
  end.

(** Parabolic interpolation and the conversion to a frequency, with the
    final range check. *)
Definition refine (yin : Float32Array) (tau : nat) (sampleRate : float)
    : option float :=
  let s0 := get yin (tau - 1) in
  let s1 := get yin tau in
  let s2 := get yin (tau + 1) in
  let betterTau := num tau + (s2 - s0) / (2 * (2 * s1 - s2 - s0)) in
  let freq := sampleRate / betterTau in
  if ((freq <? low_cutoff) || (high_cutoff <? freq))%bool then None
  else Some freq.

(** [detectPitch(buf, sampleRate)]; [None] is JavaScript's [null].
    [SIZE / 2] is the exact half for the even frame lengths the function
    is specified for.  Both loops of the search advance [tau] by one per
    iteration and stop at [SIZE / 2], so [SIZE] iterations always suffice
    (see [scan_fuel] and [walk_fuel] below). *)
Definition detectPitch (buf : Float32Array) (sampleRate : float)
    : option float :=
  let SIZE := length buf in
  if rms_of buf <? noise_floor then None
  else
    let half := (SIZE / 2)%nat in
    let yinBuffer := yin_fill buf half in
    let tau := scan yinBuffer half SIZE 2 in
    if (tau =? half)%nat then None
    else refine yinBuffer tau sampleRate.

End Estimator.

(** ** The note mapper, on real numbers *)

Module Mapper.

Local Open Scope R_scope.

(** All 12 note names for the frequency to note conversion. *)
Definition NOTE_NAMES : list string :=
  ["C"; "C#"; "D"; "D#"; "E"; "F"; "F#"; "G"; "G#"; "A"; "A#"; "B"]%string.

Definition A4_FREQ : R := 440.

(** [Math.log2], exact. *)
Definition log2 (x : R) : R := ln x / ln 2.

(** [Math.round]: the nearest integer, a tie going to the larger one. *)
Definition Math_round (x : R) : Z := Zfloor (x + / 2).

Record NoteInfo : Type := mkNoteInfo {
  note : string;
  octave : Z;
  cents : Z;
  noteWithOctave : string
}.

(** The decimal text of an integer, as a template literal prints it. *)
Definition show_int (z : Z) : string := NilZero.string_of_int (Z.to_int z).

(** [12 * Math.log2(freq / A4_FREQ)] *)
Definition semitones_of (freq : R) : R := 12 * log2 (freq / A4_FREQ).

(** [Math.round(semitones)] *)
Definition rounded_of (freq : R) : Z := Math_round (semitones_of freq).

(** [freqToNote(freq)], for a positive frequency.  [%] is JavaScript's
    remainder, which takes the sign of the dividend ([Z.rem]), and
    [Math.floor(midi / 12)] is the floor quotient ([Z.div]). *)
Definition freqToNote (freq : R) : NoteInfo :=
  let semitones := semitones_of freq in
  let rounded := Math_round semitones in
  let cents := Math_round ((semitones - IZR rounded) * 100) in
  let midi := (69 + rounded)%Z in
  let noteIndex := Z.rem (Z.rem midi 12 + 12) 12 in
  let octave := (midi / 12 - 1)%Z in
  let note := nth (Z.to_nat noteIndex) NOTE_NAMES ""%string in
  {| note := note; octave := octave; cents := cents;
     noteWithOctave := (note ++ show_int octave)%string |}.

End Mapper.

(** ** The meter session *)

Module Session.

Import Estimator Mapper.

Local Open Scope R_scope.

(** Rolling average window. *)
Definition SMOOTHING_SIZE : nat := 8.

Inductive MicState : Type := idle | starting | active.

(** The state of [MeterMode]: its four [useState] cells and the rolling
    buffer held by [centsHistoryRef]. *)
Record Meter : Type := mkMeter {
  micState : MicState;
  frequency : option float;
  noteInfo : option NoteInfo;
  smoothedCents : R;
  centsHistory : list Z
}.

(** The state a freshly mounted component starts from. *)
Definition initial : Meter :=
  {| micState := idle; frequency := None; noteInfo := None;
     smoothedCents := 0; centsHistory := [] |}.

(** The real number a finite binary64 value denotes. *)
Definition pow2 (e : Z) : R :=
  match e with
  | Z0 => 1
  | Zpos p => IZR (Z.pow_pos 2 p)
  | Zneg p => / IZR (Z.pow_pos 2 p)
  end.

Definition F2R (x : float) : R :=
  match Prim2SF x with
  | S754_finite s m e => IZR (cond_Zopp s (Zpos m)) * pow2 e
  | _ => 0
  end.

(** [if (freq)]: [null], NaN and zero are falsy. *)
Definition truthy (freq : option float) : bool :=
  match freq with
  | None => false
  | Some f => negb (PrimFloat.is_nan f || (f =? 0)%float)
  end.

(** [history.push(info.cents);
     if (history.length > SMOOTHING_SIZE) history.shift();] *)
Definition push_cents (history : list Z) (c : Z) : list Z :=
  let history := history ++ [c] in
  if (SMOOTHING_SIZE <? length history)%nat then tl history else history.

(** [history.reduce((a, b) => a + b, 0) / history.length] *)
Definition average (history : list Z) : R :=
  IZR (fold_left Z.add history 0%Z) / INR (length history).

(** The body of [detect] once [detectPitch] has returned [freq]. *)
Definition detect_cycle (freq : option float) (s : Meter) : Meter :=
  match freq with
  | Some f =>
      if truthy freq then
        let info := freqToNote (F2R f) in
        let history := push_cents (centsHistory s) (cents info) in
        {| micState := micState s; frequency := freq;
           noteInfo := Some info; smoothedCents := average history;
           centsHistory := history |}
      else
        {| micState := micState s; frequency := freq; noteInfo := None;
           smoothedCents := smoothedCents s; centsHistory := centsHistory s |}
  | None =>
      {| micState := micState s; frequency := freq; noteInfo := None;
         smoothedCents := smoothedCents s; centsHistory := centsHistory s |}
  end.

(** One run of [detect] on the frame the analyser delivered.  The analyser
    and the buffer exist exactly while the microphone is active; without
    them [detect] returns at once. *)
Definition detect (sampleRate : float) (buf : Float32Array) (s : Meter)
    : Meter :=
  match micState s with
  | active => detect_cycle (detectPitch buf sampleRate) s
  | _ => s
  end.

(** [startMic], in its three moments: the request, the acquisition of the
    microphone, and its failure. *)
Definition startMic_request (s : Meter) : Meter :=
  {| micState := starting; frequency := frequency s; noteInfo := noteInfo s;
     smoothedCents := smoothedCents s; centsHistory := centsHistory s |}.

Definition startMic_acquired (s : Meter) : Meter :=
  {| micState := active; frequency := frequency s; noteInfo := noteInfo s;
     smoothedCents := smoothedCents s; centsHistory := [] |}.

Definition startMic_failed (s : Meter) : Meter :=
  {| micState := idle; frequency := frequency s; noteInfo := noteInfo s;
     smoothedCents := smoothedCents s; centsHistory := centsHistory s |}.

Definition stopMic (s : Meter) : Meter :=
  {| micState := idle; frequency := None; noteInfo := None;
     smoothedCents := 0; centsHistory := [] |}.

(** What can happen to a session, and the session after a list of events. *)
Inductive Event : Type :=
  | StartRequested
  | Acquired
  | AcquireFailed
  | Frame (buf : Float32Array)
  | StopRequested.

Definition step (sampleRate : float) (s : Meter) (ev : Event) : Meter :=
  match ev with
  | StartRequested => startMic_request s
  | Acquired => startMic_acquired s
  | AcquireFailed => startMic_failed s
  | Frame buf => detect sampleRate buf s
  | StopRequested => stopMic s
  end.

Definition run (sampleRate : float) (evs : list Event) (s : Meter) : Meter :=
  fold_left (step sampleRate) evs s.

End Session.
Module EstimatorSpec.
Import Estimator.
Local Open Scope float_scope.

(** The sum of [f lo], ..., [f (lo + n - 1)], added from left to right. *)
Definition fsum (f : nat -> float) (lo n : nat) : float :=
  fold_left (fun acc k => acc + f k) (seq lo n) 0.

(** d(tau): the sum over i from 0 to N/2 - 1 of (x[i] - x[i + tau])^2. *)
Definition d (x : Float32Array) (half tau : nat) : float :=
  fsum (fun i => (get x i - get x (i + tau)) * (get x i - get x (i + tau))) 0 half.

(** tau * d(tau) / (d(1) + ... + d(tau)), as a single-precision value. *)
Definition cmnd (x : Float32Array) (half tau : nat) : float :=
  fround (num tau * d x half tau / fsum (d x half) 1 tau).

End EstimatorSpec.

(** An equivalent of the difference loop that walks the frame once per lag
    instead of indexing into it, used to evaluate full-size frames. *)
Module EstimatorEval.
Import Estimator.
Local Open Scope float_scope.

Definition diff_zip (buf : Float32Array) (half tau : nat) : float :=
  fold_left
    (fun diff (ab : float * float) =>
       let delta := fst ab - snd ab in diff + delta * delta)
    (combine (firstn half buf) (firstn half (skipn tau buf))) 0.

Definition yin_step_zip (buf : Float32Array) (half : nat)
    (st : float * Float32Array) (tau : nat) : float * Float32Array :=
  let '(runningSum, yinBuffer) := st in
  let diff := diff_zip buf half tau in
  let runningSum := runningSum + diff in
  (runningSum, store yinBuffer tau (diff * num tau / runningSum)).

Definition yin_fill_zip (buf : Float32Array) (half : nat) : Float32Array :=
  snd (fold_left (yin_step_zip buf half) (seq 1 (half - 1)) (yin_init half)).

(** A frame of [N] samples with a unit click every [p] samples. *)
Definition clicks (N p : nat) : Float32Array :=
  map (fun i => if (i mod p =? 0)%nat then 1 else 0) (seq 0 N).

End EstimatorEval.

(** The arithmetic mean of a window, in the words of the specification:
    the sum of its entries divided by their number. *)
Module SessionSpec.
Local Open Scope R_scope.

Definition mean (window : list Z) : R :=
  IZR (fold_right Z.add 0%Z window) / INR (length window).

End SessionSpec.

(** The position of a note name in a list of names. *)
Module MapperSpec.

Fixpoint index_of (name : string) (names : list string) : option nat :=
  match names with
  | [] => None
  | n :: rest =>
      if String.eqb name n then Some 0%nat
      else option_map S (index_of name rest)
  end.

End MapperSpec.

(** ** What [MeterMode] derives from its state when it renders *)

Module Display.

Import Mapper Session.

Local Open Scope R_scope.

(** [noteInfo ? Math.round(smoothedCents) : 0] *)
Definition displayCents (s : Meter) : Z :=
  match noteInfo s with
  | Some _ => Math_round (smoothedCents s)
  | None => 0%Z
  end.

(** [Math.max(-50, Math.min(50, smoothedCents)) * 1.8] *)
Definition needleAngle (s : Meter) : R :=
  Rmax (-50) (Rmin 50 (smoothedCents s)) * 1.8.

(** [noteInfo !== null && Math.abs(displayCents) <= 5] *)
Definition inTune (s : Meter) : bool :=
  match noteInfo s with
  | Some _ => (Z.abs (displayCents s) <=? 5)%Z
  | None => false
  end.

(** [noteInfo !== null && Math.abs(displayCents) <= 15] *)
Definition close (s : Meter) : bool :=
  match noteInfo s with
  | Some _ => (Z.abs (displayCents s) <=? 15)%Z
  | None => false
  end.

(** [noteInfo === null ? "#3f3f46" : inTune ? "#22c55e" : close ? "#eab308"
     : "#ef4444"] *)
Definition needleColor (s : Meter) : string :=
  match noteInfo s with
  | None => "#3f3f46"
  | Some _ =>
      if inTune s then "#22c55e"
      else if close s then "#eab308"
      else "#ef4444"
  end.

(** The note line: [noteInfo ? noteInfo.noteWithOctave : "---"] *)
Definition noteLabel (s : Meter) : string :=
  match noteInfo s with
  | Some info => noteWithOctave info
  | None => "---"
  end.

End Display.

(** The properties every state of a session has. *)
Module SessionInv.
Import Mapper Session.
Local Open Scope R_scope.

(** A cents value within half a semitone. *)
Definition cents_ok (c : Z) : Prop := (-50 <= c <= 50)%Z.

(** A number of the band the estimator accepts, 60 to 1500 Hz. *)
Definition in_band (f : float) : Prop :=
  (Estimator.low_cutoff <=? f)%float = true /\
  (f <=? Estimator.high_cutoff)%float = true.

(** The window and its mean stay within half a semitone, and a published
    note is the note of the published frequency, which is in the band. *)
Definition well_formed (s : Meter) : Prop :=
  Forall cents_ok (centsHistory s) /\
  -50 <= smoothedCents s <= 50 /\
  match noteInfo s with
  | Some info =>
      exists f, frequency s = Some f /\ in_band f /\
                info = freqToNote (F2R f)
  | None => True
  end.

End SessionInv.

(** ** Ear mode: one string looping at a time *)

Module EarMode.

Local Open Scope string_scope.

Record GuitarString : Type := mkString {
  label : string;
  note : string;
  display : string
}.

Definition STRINGS : list GuitarString :=
  [ mkString "6th" "E2" "E2"; mkString "5th" "A2" "A2";
    mkString "4th" "D3" "D3"; mkString "3rd" "G3" "G3";
    mkString "2nd" "B3" "B3"; mkString "1st" "E4" "E4" ].

(** The state of [EarMode]: the two [useState] cells, the interval held by
    [intervalRef] (known by the note its callback replays), the number of
    pending [setTimeout(() => setPulse(false), 400)] callbacks, and the
    notes sent to the sampler so far, oldest first. *)
Record Ear : Type := mkEar {
  activeString : option nat;
  intervalRef : option string;
  pulse : bool;
  pendingPulseOff : nat;
  played : list string
}.

Definition initial : Ear :=
  {| activeString := None; intervalRef := None; pulse := false;
     pendingPulseOff := 0; played := [] |}.

(** [samplerRef.current?.triggerAttackRelease(note, "1n")]: nothing sounds
    while the sampler is not loaded. *)
Definition trigger (sampler : bool) (n : string) (log : list string)
    : list string :=
  if sampler then log ++ [n] else log.

(** How a call ends: normally, or with the TypeError that reading [.note]
    of [undefined] throws; either way with the state reached. *)
Inductive Outcome : Type :=
  | Done (s : Ear)
  | Threw (s : Ear).

Definition state_of (o : Outcome) : Ear :=
  match o with Done s => s | Threw s => s end.

(** [stopLoop()] *)
Definition stopLoop (s : Ear) : Ear :=
  {| activeString := None; intervalRef := None; pulse := false;
     pendingPulseOff := pendingPulseOff s; played := played s |}.

(** [startLoop(index)] *)
Definition startLoop (sampler : bool) (index : nat) (s : Ear) : Outcome :=
  let cleared :=
    {| activeString := activeString s; intervalRef := None; pulse := pulse s;
       pendingPulseOff := pendingPulseOff s; played := played s |} in
  if match activeString s with Some a => (a =? index)%nat | None => false end
  then
    Done {| activeString := None; intervalRef := None; pulse := false;
            pendingPulseOff := pendingPulseOff s; played := played s |}
  else
    match nth_error STRINGS index with
    | None => Threw cleared
    | Some str =>
        Done {| activeString := Some index; intervalRef := Some (note str);
                pulse := true; pendingPulseOff := S (pendingPulseOff s);
                played := trigger sampler (note str) (played s) |}
    end.

(** The interval callback, every [LOOP_INTERVAL] milliseconds while an
    interval is set. *)
Definition tick (sampler : bool) (s : Ear) : Ear :=
  match intervalRef s with
  | None => s
  | Some n =>
      {| activeString := activeString s; intervalRef := intervalRef s;
         pulse := true; pendingPulseOff := S (pendingPulseOff s);
         played := trigger sampler n (played s) |}
  end.

(** A pending [setPulse(false)] firing. *)
Definition pulseOff (s : Ear) : Ear :=
  match pendingPulseOff s with
  | O => s
  | S k =>
      {| activeString := activeString s; intervalRef := intervalRef s;
         pulse := false; pendingPulseOff := k; played := played s |}
  end.

Inductive Event : Type :=
  | Click (index : nat)
  | Stop
  | Tick
  | PulseOff.

Definition step (sampler : bool) (s : Ear) (ev : Event) : Ear :=
  match ev with
  | Click index => state_of (startLoop sampler index s)
  | Stop => stopLoop s
  | Tick => tick sampler s
  | PulseOff => pulseOff s
  end.

Definition run (sampler : bool) (evs : list Event) (s : Ear) : Ear :=
  fold_left (step sampler) evs s.

(** The clicks the six buttons can produce. *)
Definition from_buttons (ev : Event) : Prop :=
  match ev with
  | Click index => (index < length STRINGS)%nat
  | _ => True
  end.

(** The interval that runs replays the note of the highlighted string,
    there is none when no string is highlighted, and the pulse is only on
    while a string is. *)
Definition consistent (s : Ear) : Prop :=
  intervalRef s =
    match activeString s with
    | Some i => option_map note (nth_error STRINGS i)
    | None => None
    end /\
  (forall i, activeString s = Some i -> (i < length STRINGS)%nat) /\
  (pulse s = true -> activeString s <> None) /\
  Forall (fun n => In n (map note STRINGS)) (played s).

End EarMode.

(** Specification floats with the same square: one is the negation of the
    other, or both are zeros. *)
Module FloatSpec.

Definition same_magnitude (x' x : spec_float) : Prop :=
  x' = SFopp x \/ exists s' s, x' = S754_zero s' /\ x = S754_zero s.

End FloatSpec.

(** ** Binary64 values as real numbers

    The real number a finite double stands for, and rounding to nearest
    with ties to even written on the reals.  These are the specification
    side of the arithmetic of [float]; the section on binary64 arithmetic
    proves that the primitive operations compute them. *)

Module Binary64.

Local Open Scope R_scope.

(** Two to the power [e]. *)
Definition bpow (e : Z) : R := Session.pow2 e.

(** The exponent of the doubles of magnitude [2^(k-1) <= |x| < 2^k]. *)
Definition fexp (k : Z) : Z := Z.max (k - 53) (-1074).

(** The real number a specification float stands for (0 when it is none). *)
Definition SF2R (x : spec_float) : R :=
  match x with
  | S754_finite s m e => IZR (cond_Zopp s (Zpos m)) * bpow e
  | _ => 0
  end.

(** Zeros and finite numbers, as opposed to NaN and the infinities. *)
Definition SFfinite (x : spec_float) : bool :=
  match x with
  | S754_zero _ | S754_finite _ _ _ => true
  | _ => false
  end.

Definition finite (x : float) : bool := SFfinite (Prim2SF x).

(** The magnitude of a non-zero real: the [k] with [2^(k-1) <= |x| < 2^k]. *)
Definition mag (x : R) : Z := (Zfloor (ln (Rabs x) / ln 2) + 1)%Z.

(** The nearest integer, the even one at a tie. *)
Definition ZnearestE (t : R) : Z :=
  let f := Zfloor t in
  if Rlt_dec (t - IZR f) (/ 2) then f
  else if Rlt_dec (/ 2) (t - IZR f) then (f + 1)%Z
  else if Z.even f then f else (f + 1)%Z.

(** Rounding to the nearest double, ties to even, with an unbounded
    exponent range above: the result can exceed the largest double. *)
Definition round (x : R) : R :=
  let e := fexp (mag x) in IZR (ZnearestE (x / bpow e)) * bpow e.

(** Where the scaled value [t] lies with respect to the integer [m]: on it,
    or strictly between [m] and [m + 1] and below, at or above the middle. *)
Definition inbetween (t : R) (m : Z) (l : location) : Prop :=
  match l with
  | loc_Exact => t = IZR m
  | loc_Inexact Lt => IZR m < t < IZR m + / 2
  | loc_Inexact Eq => t = IZR m + / 2
  | loc_Inexact Gt => IZR m + / 2 < t < IZR m + 1
  end.

End Binary64.

(** ** The note mapper on doubles

    [freqToNote] on binary64 values.  ECMAScript fixes [Math.log2] at NaN,
    at the infinities, at 1, at the zeros and on the negative numbers;
    elsewhere the result is "implementation-approximated", and the
    engine's value is the parameter [approx].  Every other operation is an
    arithmetic operation of doubles, [Math.round], [Math.floor], the
    remainder [%] and an array read, all of which the language defines
    exactly. *)

Module MapperJS.

Local Open Scope float_scope.

Definition A4_FREQ : float := 440.

(** The double of an integer below 2^63 in magnitude. *)
Definition of_Z (n : Z) : float :=
  if (n <? 0)%Z then - of_uint63 (Uint63.of_Z (- n))
  else of_uint63 (Uint63.of_Z n).

(** [Math.round(x)]: [x] itself when it is not finite or is an integer;
    otherwise the integer nearest to [x], the larger one at a tie, with
    the sign of [x] when that integer is zero. *)
Definition Math_round (x : float) : float :=
  match Prim2SF x with
  | S754_finite s m e =>
      if (0 <=? e)%Z then x
      else
        let n := ((2 * cond_Zopp s (Zpos m) + 2 ^ (- e)) / 2 ^ (- e + 1))%Z in
        if (n =? 0)%Z then (if s then neg_zero else zero) else of_Z n
  | _ => x
  end.

(** [Math.floor(x)]: [x] itself when it is not finite or is an integer;
    otherwise the largest integer below [x]. *)
Definition Math_floor (x : float) : float :=
  match Prim2SF x with
  | S754_finite s m e =>
      if (0 <=? e)%Z then x
      else of_Z (cond_Zopp s (Zpos m) / 2 ^ (- e))
  | _ => x
  end.

(** [n % d]: the remainder of the truncated division, exact, with the sign
    of the dividend. *)
Definition Number_rem (n d : float) : float :=
  match Prim2SF n, Prim2SF d with
  | S754_nan, _ | _, S754_nan => nan
  | S754_infinity _, _ => nan
  | _, S754_zero _ => nan
  | _, S754_infinity _ => n
  | S754_zero _, _ => n
  | S754_finite sn mn en, S754_finite _ md ed =>
      let e := Z.min en ed in
      let r := Z.rem (cond_Zopp sn (Zpos (fst (shl_align mn en e))))
                     (Zpos (fst (shl_align md ed e))) in
      if (r =? 0)%Z then (if sn then neg_zero else zero)
      else SF2Prim (binary_normalize prec emax r e false)
  end.

(** [xs[i]] for a number [i]: the element when [i] is an integer within
    the array ([-0] reads element 0), [undefined] otherwise. *)
Definition element (xs : list string) (i : float) : option string :=
  match Prim2SF i with
  | S754_zero _ => nth_error xs 0
  | S754_finite false m e =>
      if (0 <=? e)%Z then nth_error xs (Z.to_nat (Zpos m * 2 ^ e))
      else if (Zpos m mod 2 ^ (- e) =? 0)%Z
           then nth_error xs (Z.to_nat (Zpos m / 2 ^ (- e)))
           else None
  | _ => None
  end.

(** The numbers and the name [freqToNote] returns; [noteWithOctave] is the
    text of [note] followed by the text of [octave]. *)
Record Pitch : Type := mkPitch {
  note : option string;
  octave : float;
  cents : float
}.

Section Engine.

(** The engine's base-2 logarithm of a positive finite double other than 1. *)
Variable approx : float -> float.

(** [Math.log2(x)] *)
Definition Math_log2 (x : float) : float :=
  if is_nan x then nan
  else if x =? infinity then infinity
  else if x =? 1 then 0
  else if x =? 0 then neg_infinity
  else if x <? 0 then nan
  else approx x.

(** [12 * Math.log2(freq / A4_FREQ)] *)
Definition semitones_of (freq : float) : float :=
  12 * Math_log2 (freq / A4_FREQ).

(** [Math.round(semitones)] *)
Definition rounded_of (freq : float) : float := Math_round (semitones_of freq).

(** [(semitones - rounded) * 100] *)
Definition residual_of (freq : float) : float :=
  (semitones_of freq - rounded_of freq) * 100.

(** [Math.round((semitones - rounded) * 100)] *)
Definition cents_of (freq : float) : float := Math_round (residual_of freq).


(** [freqToNote(freq)] *)
Definition freqToNote (freq : float) : Pitch :=
  let semitones := 12 * Math_log2 (freq / A4_FREQ) in
  let rounded := Math_round semitones in
  let cents := Math_round ((semitones - rounded) * 100) in
  let midi := 69 + rounded in
  let noteIndex := Number_rem (Number_rem midi 12 + 12) 12 in
  let octave := Math_floor (midi / 12) - 1 in
  {| note := element Mapper.NOTE_NAMES noteIndex;
     octave := octave; cents := cents |}.

End Engine.

End MapperJS.

(** Reading a pitch back: the MIDI number a note name and an octave stand
    for, with C-1 as number 0 (so that A4 is 69). *)
Module MapperJSSpec.
Import MapperJS.

Definition midi_of (p : Pitch) : option R :=
  match note p with
  | Some name =>
      match MapperSpec.index_of name Mapper.NOTE_NAMES with
      | Some i => Some (12 * (Session.F2R (octave p) + 1) + INR i)%R
      | None => None
      end
  | None => None
  end.

End MapperJSSpec.

Section MapperFacts.
Import Mapper.
Local Open Scope R_scope.

Lemma ln2_pos : 0 < ln 2.
Proof. pose proof ln_lt_2; lra. Qed.

Lemma Math_round_bound (x : R) :
  IZR (Math_round x) - / 2 <= x < IZR (Math_round x) + / 2.
Proof. unfold Math_round. pose proof (Zfloor_bound (x + / 2)). lra. Qed.

Lemma Math_round_eq (x : R) (z : Z) :
  IZR z - / 2 <= x < IZR z + / 2 -> Math_round x = z.
Proof. intros H. unfold Math_round. apply Zfloor_eq. lra. Qed.

Lemma Math_round_le (x y : R) : x <= y -> (Math_round x <= Math_round y)%Z.
Proof. intros H. unfold Math_round. apply Zfloor_le. lra. Qed.

Lemma ln_le_mono (x y : R) : 0 < x -> x <= y -> ln x <= ln y.
Proof.
  intros Hx [Hlt | ->]; [left; now apply ln_increasing | right; reflexivity].
Qed.

Lemma semitones_ge (f : R) (p q : nat) :
  0 < f -> (0 < q)%nat -> 2 ^ p <= (f / 440) ^ (12 * q) ->
  INR p / INR q <= semitones_of f.
Proof.
  intros Hf Hq Hpow. unfold semitones_of, log2, A4_FREQ.
  assert (Hr : 0 < f / 440) by lra.
  pose proof ln2_pos as L.
  assert (Hq' : 0 < INR q) by (apply lt_0_INR; lia).
  assert (Hln : INR p * ln 2 <= INR (12 * q) * ln (f / 440)).
  { rewrite <- !ln_pow by lra. apply ln_le_mono; [apply pow_lt; lra | exact Hpow]. }
  rewrite mult_INR in Hln. replace (INR 12) with 12 in Hln by (simpl; lra).
  apply (Rmult_le_reg_r (INR q * ln 2)); [apply Rmult_lt_0_compat; lra |].
  replace (INR p / INR q * (INR q * ln 2)) with (INR p * ln 2) by (field; lra).
  replace (12 * (ln (f / 440) / ln 2) * (INR q * ln 2))
    with (12 * INR q * ln (f / 440)) by (field; lra).
  exact Hln.
Qed.

Lemma semitones_lt_bound (f : R) (p q : nat) :
  0 < f -> (0 < q)%nat -> (f / 440) ^ (12 * q) < 2 ^ p ->
  semitones_of f < INR p / INR q.
Proof.
  intros Hf Hq Hpow. unfold semitones_of, log2, A4_FREQ.
  assert (Hr : 0 < f / 440) by lra.
  pose proof ln2_pos as L.
  assert (Hq' : 0 < INR q) by (apply lt_0_INR; lia).
  assert (Hln : INR (12 * q) * ln (f / 440) < INR p * ln 2).
  { rewrite <- !ln_pow by lra. apply ln_increasing; [apply pow_lt; lra | exact Hpow]. }
  rewrite mult_INR in Hln. replace (INR 12) with 12 in Hln by (simpl; lra).
  apply (Rmult_lt_reg_r (INR q * ln 2)); [apply Rmult_lt_0_compat; lra |].
  replace (INR p / INR q * (INR q * ln 2)) with (INR p * ln 2) by (field; lra).
  replace (12 * (ln (f / 440) / ln 2) * (INR q * ln 2))
    with (12 * INR q * ln (f / 440)) by (field; lra).
  exact Hln.
Qed.

Lemma semitones_440 : semitones_of 440 = 0.
Proof.
  unfold semitones_of, log2, A4_FREQ.
  replace (440 / 440) with 1 by lra. rewrite ln_1. lra.
Qed.

Lemma semitones_quarter_tone : semitones_of (440 * Rpower 2 (/ 24)) = / 2.
Proof.
  unfold semitones_of, log2, A4_FREQ.
  replace (440 * Rpower 2 (/ 24) / 440) with (Rpower 2 (/ 24)) by lra.
  rewrite ln_Rpower. pose proof ln2_pos. field. lra.
Qed.

Lemma semitones_4528 : 99 / 200 <= semitones_of 452.8 < / 2.
Proof.
  split.
  - apply Rle_trans with (INR 50 / INR 101).
    + rewrite !INR_IZR_INZ. simpl. lra.
    + apply semitones_ge; [lra | lia |].
      replace (452.8 / 440) with (283 / 275) by lra.
      change (12 * 101)%nat with 1212%nat. lra.
  - replace (/ 2) with (INR 1 / INR 2) by (simpl; lra).
    apply semitones_lt_bound; [lra | lia |].
    replace (452.8 / 440) with (283 / 275) by lra.
    change (12 * 2)%nat with 24%nat. lra.
Qed.

Lemma semitones_450 : 3 / 11 <= semitones_of 450 < / 2.
Proof.
  split.
  - replace (3 / 11) with (INR 3 / INR 11) by (simpl; lra).
    apply semitones_ge; [lra | lia |].
    replace (450 / 440) with (45 / 44) by lra.
    change (12 * 11)%nat with 132%nat. lra.
  - replace (/ 2) with (INR 1 / INR 2) by (simpl; lra).
    apply semitones_lt_bound; [lra | lia |].
    replace (450 / 440) with (45 / 44) by lra.
    change (12 * 2)%nat with 24%nat. lra.
Qed.

Lemma rounded_450 : rounded_of 450 = 0%Z.
Proof.
  unfold rounded_of. apply Math_round_eq. pose proof semitones_450. simpl. lra.
Qed.

Lemma cents_450 : (27 <= cents (freqToNote 450))%Z.
Proof.
  unfold freqToNote; simpl cents. fold (rounded_of 450). rewrite rounded_450.
  replace 27%Z with (Math_round 27) by (apply Math_round_eq; simpl; lra).
  apply Math_round_le. pose proof semitones_450. simpl. lra.
Qed.

Lemma cents_range (f : R) : (-50 <= cents (freqToNote f) <= 50)%Z.
Proof.
  unfold freqToNote; simpl cents.
  pose proof (Math_round_bound (semitones_of f)) as Hs.
  set (s := semitones_of f) in *. set (r := Math_round s) in *.
  pose proof (Math_round_bound ((s - IZR r) * 100)) as Hc.
  set (c := Math_round ((s - IZR r) * 100)) in *.
  split.
  - apply le_IZR. apply Rnot_lt_le. intros Hlt.
    assert (IZR c <= -51) by (apply IZR_le; apply lt_IZR in Hlt; lia). lra.
  - apply le_IZR. apply Rnot_lt_le. intros Hlt.
    assert (51 <= IZR c) by (apply IZR_le; apply lt_IZR in Hlt; lia). lra.
Qed.

Lemma freqToNote_440 :
  freqToNote 440 =
  {| note := "A"; octave := 4; cents := 0; noteWithOctave := "A4" |}.
Proof.
  unfold freqToNote. rewrite semitones_440.
  replace (Math_round 0) with 0%Z by (symmetry; apply Math_round_eq; simpl; lra).
  replace (Math_round ((0 - 0) * 100)) with 0%Z
    by (symmetry; apply Math_round_eq; simpl; lra).
  reflexivity.
Qed.

Lemma quarter_tone_value :
  freqToNote (440 * Rpower 2 (/ 24)) =
  {| note := "A#"; octave := 4; cents := -50; noteWithOctave := "A#4" |}.
Proof.
  unfold freqToNote. rewrite semitones_quarter_tone.
  replace (Math_round (/ 2)) with 1%Z by (symmetry; apply Math_round_eq; simpl; lra).
  replace (Math_round ((/ 2 - 1) * 100)) with (-50)%Z
    by (symmetry; apply Math_round_eq; simpl; lra).
  reflexivity.
Qed.

Lemma cents_4528 : cents (freqToNote 452.8) = 50%Z.
Proof.
  unfold freqToNote; simpl cents. pose proof semitones_4528 as H.
  replace (Math_round (semitones_of 452.8)) with 0%Z
    by (symmetry; apply Math_round_eq; simpl; lra).
  apply Math_round_eq. simpl. lra.
Qed.

(** C10: at exactly 440 Hz, [freqToNote] returns pitch class A, octave 4
    and 0 cents (and the label "A4"). *)
Theorem freqToNote_A4 :
  freqToNote 440 =
  {| note := "A"; octave := 4; cents := 0; noteWithOctave := "A4" |}.
Proof. exact freqToNote_440. Qed.

(** C2, as stated, fails: at 452.8 Hz, 49.6 cents above A4, the rounded
    cents value is +50, outside the half-open range. *)
Lemma cents_half_open_fails :
  0 < 452.8 /\ ~ (-50 <= cents (freqToNote 452.8) < 50)%Z.
Proof. split; [lra |]. rewrite cents_4528. lia. Qed.

(** C3, as stated, fails: a quarter-tone above A4 the result is not
    pitch class A with +50 cents. *)
Lemma quarter_tone_not_A_plus_50 :
  ~ (note (freqToNote (440 * Rpower 2 (/ 24))) = "A"%string /\
     cents (freqToNote (440 * Rpower 2 (/ 24))) = 50%Z).
Proof. rewrite quarter_tone_value. cbn [note cents]. intros [H _]. discriminate H. Qed.

(** C3, amended: at 440 * 2^(1/24) Hz the tie goes to the upper semitone:
    [freqToNote] returns pitch class A#, octave 4, and -50 cents. *)
Theorem freqToNote_quarter_tone :
  freqToNote (440 * Rpower 2 (/ 24)) =
  {| note := "A#"; octave := 4; cents := -50; noteWithOctave := "A#4" |}.
Proof. exact quarter_tone_value. Qed.

End MapperFacts.
Section EstimatorFacts.
Import Estimator EstimatorSpec.
Local Open Scope float_scope.

Lemma float_mul_comm (x y : float) : x * y = y * x.
Proof.
  rewrite <- (SF2Prim_Prim2SF (x * y)), <- (SF2Prim_Prim2SF (y * x)).
  rewrite !FloatAxioms.mul_spec. f_equal. unfold SF64mul.
  destruct (Prim2SF x) as [sx | sx | | sx mx ex], (Prim2SF y) as [sy | sy | | sy my ey];
    simpl; try reflexivity; try (now rewrite xorb_comm).
  now rewrite xorb_comm, Pos.mul_comm, Z.add_comm.
Qed.

Lemma store_length (a : Float32Array) (i : nat) (v : float) :
  length (store a i v) = length a.
Proof.
  unfold store. destruct (Nat.ltb_spec i (length a)) as [H | H]; [| reflexivity].
  rewrite length_app, length_firstn. cbn [length]. rewrite length_skipn. lia.
Qed.

Lemma get_store_same (a : Float32Array) (i : nat) (v : float) :
  (i < length a)%nat -> get (store a i v) i = fround v.
Proof.
  intros H. unfold store, get. apply Nat.ltb_lt in H as H'. rewrite H'.
  rewrite app_nth2; rewrite length_firstn; [| lia].
  replace (i - Nat.min i (length a))%nat with 0%nat by lia. reflexivity.
Qed.

Lemma get_store_other (a : Float32Array) (i j : nat) (v : float) :
  j <> i -> get (store a i v) j = get a j.
Proof.
  intros Hne. unfold store, get.
  destruct (Nat.ltb_spec i (length a)) as [H | H]; [| reflexivity].
  destruct (Nat.lt_ge_cases j i) as [Hlt | Hge].
  - rewrite app_nth1 by (rewrite length_firstn; lia).
    rewrite nth_firstn. apply Nat.ltb_lt in Hlt. now rewrite Hlt.
  - rewrite app_nth2 by (rewrite length_firstn; lia).
    rewrite length_firstn. replace (Nat.min i (length a)) with i by lia.
    destruct (j - i)%nat as [| k] eqn:E; [lia |]. cbn [nth].
    rewrite nth_skipn. f_equal. lia.
Qed.

Lemma fsum_S (f : nat -> float) (lo n : nat) :
  fsum f lo (S n) = fsum f lo n + f (lo + n)%nat.
Proof. unfold fsum. rewrite seq_S, fold_left_app. reflexivity. Qed.

Lemma diff_at_d (buf : Float32Array) (half tau : nat) :
  diff_at buf half tau = d buf half tau.
Proof. reflexivity. Qed.

Lemma fround_one : fround 1 = 1.
Proof. reflexivity. Qed.

(** The state of the outer loop after the lags 1, ..., k. *)
Lemma yin_loop_invariant (buf : Float32Array) (half k : nat) :
  (k < half)%nat ->
  let st := fold_left (yin_step buf half) (seq 1 k) (yin_init half) in
  fst st = fsum (d buf half) 1 k /\
  length (snd st) = half /\
  get (snd st) 0 = 1 /\
  forall j, (1 <= j <= k)%nat -> get (snd st) j = cmnd buf half j.
Proof.
  induction k as [| k IH]; intros Hk.
  - simpl. unfold yin_init. cbn [fst snd].
    assert (Hlen : length (repeat 0 half) = half) by apply repeat_length.
    repeat split.
    + rewrite store_length. exact Hlen.
    + rewrite get_store_same by lia. apply fround_one.
    + intros j Hj. lia.
  - rewrite seq_S, fold_left_app. cbn [fold_left].
    destruct (fold_left (yin_step buf half) (seq 1 k) (yin_init half))
      as [runningSum yinBuffer] eqn:E.
    destruct (IH ltac:(lia)) as (Hsum & Hlen & H0 & Hj). cbn [fst snd] in *.
    unfold yin_step. cbn [fst snd Nat.add].
    rewrite diff_at_d. repeat split.
    + rewrite fsum_S. now rewrite Hsum.
    + rewrite store_length. exact Hlen.
    + rewrite get_store_other by lia. exact H0.
    + intros j Hjk. destruct (Nat.eq_dec j (S k)) as [-> | Hne].
      * rewrite get_store_same by lia. unfold cmnd.
        rewrite fsum_S, Hsum. cbn [Nat.add].
        now rewrite (float_mul_comm (num (S k))).
      * rewrite get_store_other by exact Hne. apply Hj. lia.
Qed.

(** C5: for an even-length frame that passes the silence gate, the
    normalized difference at lag 0 is 1, and at every lag tau with
    1 <= tau < N/2 it is tau * d(tau) / (d(1) + ... + d(tau)), stored in
    single precision. *)
Theorem normalized_difference (buf : Float32Array) :
  Nat.Even (length buf) ->
  (rms_of buf <? noise_floor) = false ->
  let half := (length buf / 2)%nat in
  let yinBuffer := yin_fill buf half in
  ((0 < half)%nat -> get yinBuffer 0 = 1) /\
  forall tau, (1 <= tau < half)%nat -> get yinBuffer tau = cmnd buf half tau.
Proof.
  intros _ _ half yinBuffer. subst yinBuffer. unfold yin_fill, yin_loop.
  split.
  - intros Hh. apply (yin_loop_invariant buf half (half - 1)). lia.
  - intros tau Ht.
    apply (yin_loop_invariant buf half (half - 1)); lia.
Qed.

(** The inner loop stops at the first lag that is not followed by a strictly
    smaller value, or at the last lag of the buffer. *)
Lemma walk_fuel (yin : Float32Array) (half fuel tau : nat) :
  (tau < half)%nat -> (half - tau <= fuel)%nat ->
  let t := walk yin half fuel tau in
  (tau <= t < half)%nat /\
  (forall k, (tau <= k < t)%nat -> (get yin (k + 1) <? get yin k) = true) /\
  ((t + 1 < half)%nat -> (get yin (t + 1) <? get yin t) = false).
Proof.
  revert tau. induction fuel as [| fuel IH]; intros tau Ht Hf; [lia |].
  cbn [walk].
  destruct (Nat.ltb_spec (tau + 1) half) as [Hlt | Hge]; cbn [andb].
  - destruct (get yin (tau + 1) <? get yin tau) eqn:Hdec.
    + destruct (IH (tau + 1)%nat ltac:(lia) ltac:(lia)) as (Hb & Hdown & Hstop).
      repeat split; try lia; [| exact Hstop].
      intros k Hk. destruct (Nat.eq_dec k tau) as [-> | Hne]; [exact Hdec |].
      apply Hdown. lia.
    + repeat split; try lia. intros _. exact Hdec.
  - repeat split; lia.
Qed.

(** The outer loop ends at [half] when no lag from [tau] on is below the
    threshold, and otherwise hands the first such lag to the inner loop. *)
Lemma scan_none (yin : Float32Array) (half fuel tau : nat) :
  (tau <= half)%nat -> (half - tau <= fuel)%nat ->
  (forall k, (tau <= k < half)%nat -> (get yin k <? threshold) = false) ->
  scan yin half fuel tau = half.
Proof.
  revert tau. induction fuel as [| fuel IH]; intros tau Ht Hf Hnone.
  - cbn [scan]. lia.
  - cbn [scan]. destruct (Nat.ltb_spec tau half) as [Hlt | Hge]; [| lia].
    rewrite (Hnone tau) by lia. apply IH; try lia.
    intros k Hk. apply Hnone. lia.
Qed.

Lemma scan_fuel (yin : Float32Array) (half fuel tau tau0 : nat) :
  (tau <= tau0 < half)%nat -> (half - tau <= fuel)%nat ->
  (get yin tau0 <? threshold) = true ->
  (forall k, (tau <= k < tau0)%nat -> (get yin k <? threshold) = false) ->
  scan yin half fuel tau = walk yin half half tau0.
Proof.
  revert tau. induction fuel as [| fuel IH]; intros tau Ht Hf Hlow Hfirst; [lia |].
  cbn [scan]. destruct (Nat.ltb_spec tau half) as [Hlt | Hge]; [| lia].
  destruct (Nat.eq_dec tau tau0) as [-> | Hne].
  - now rewrite Hlow.
  - rewrite (Hfirst tau) by lia. apply IH; try lia; [exact Hlow |].
    intros k Hk. apply Hfirst. lia.
Qed.

Lemma half_le (n : nat) : (n / 2 <= n)%nat.
Proof. apply Nat.Div0.div_le_upper_bound. lia. Qed.

(** C6: for an even-length frame of at least four samples that passes the
    silence gate: if no lag from 2 up to N/2 - 1 is below the threshold,
    [detectPitch] returns null; otherwise, with tau0 the first such lag,
    the lag handed to the frequency conversion is the first t >= tau0 whose
    successor is not strictly smaller (or the last lag), the values falling
    strictly all the way from tau0 to t. *)
Theorem period_candidate (buf : Float32Array) (sampleRate : float) :
  Nat.Even (length buf) ->
  (rms_of buf <? noise_floor) = false ->
  let half := (length buf / 2)%nat in
  let yinBuffer := yin_fill buf half in
  (2 <= half)%nat ->
  ((forall tau, (2 <= tau < half)%nat ->
      (get yinBuffer tau <? threshold) = false) ->
   detectPitch buf sampleRate = None) /\
  (forall tau0,
      (2 <= tau0 < half)%nat ->
      (get yinBuffer tau0 <? threshold) = true ->
      (forall k, (2 <= k < tau0)%nat ->
         (get yinBuffer k <? threshold) = false) ->
      exists t,
        (tau0 <= t < half)%nat /\
        (forall k, (tau0 <= k < t)%nat ->
           (get yinBuffer (k + 1) <? get yinBuffer k) = true) /\
        ((t + 1 < half)%nat ->
           (get yinBuffer (t + 1) <? get yinBuffer t) = false) /\
        detectPitch buf sampleRate = refine yinBuffer t sampleRate).
Proof.
  intros _ Hgate half yinBuffer Hhalf.
  pose proof (half_le (length buf)) as Hle. fold half in Hle.
  split.
  - intros Hnone. unfold detectPitch. rewrite Hgate. fold half. fold yinBuffer.
    rewrite (scan_none yinBuffer half (length buf) 2) by (lia || exact Hnone).
    now rewrite Nat.eqb_refl.
  - intros tau0 Ht0 Hlow Hfirst.
    exists (walk yinBuffer half half tau0).
    destruct (walk_fuel yinBuffer half half tau0 ltac:(lia) ltac:(lia))
      as (Hb & Hdown & Hstop).
    repeat split; try lia; [exact Hdown | exact Hstop |].
    unfold detectPitch. rewrite Hgate. fold half. fold yinBuffer.
    rewrite (scan_fuel yinBuffer half (length buf) 2 tau0) by (lia || assumption).
    destruct (Nat.eqb_spec (walk yinBuffer half half tau0) half) as [E | _]; [lia |].
    reflexivity.
Qed.

Lemma digits2_pos_lower (p : positive) :
  (2 ^ (Zpos (digits2_pos p) - 1) <= Zpos p)%Z.
Proof.
  induction p as [p IH | p IH |]; cbn [digits2_pos].
  - rewrite Pos2Z.inj_succ.
    replace (Z.succ (Zpos (digits2_pos p)) - 1)%Z
      with (Z.succ (Zpos (digits2_pos p) - 1))%Z by lia.
    rewrite Z.pow_succ_r by lia. lia.
  - rewrite Pos2Z.inj_succ.
    replace (Z.succ (Zpos (digits2_pos p)) - 1)%Z
      with (Z.succ (Zpos (digits2_pos p) - 1))%Z by lia.
    rewrite Z.pow_succ_r by lia. lia.
  - simpl. lia.
Qed.

Lemma digits2_pos_iter_xO (p k : positive) :
  digits2_pos (Pos.iter xO p k) = (digits2_pos p + k)%positive.
Proof.
  induction k as [| k IH] using Pos.peano_ind.
  - simpl. lia.
  - rewrite Pos.iter_succ. cbn [digits2_pos]. rewrite IH. lia.
Qed.

(** A mantissa of exactly 53 bits with an exponent in range is already a
    binary64 value: rounding leaves it alone. *)
Lemma binary_round_aux_exact (m : positive) (e : Z) :
  Zpos (digits2_pos m) = 53%Z -> (-1074 <= e <= 971)%Z ->
  binary_round_aux prec emax false (Zpos m) e loc_Exact = S754_finite false m e.
Proof.
  intros Hd He.
  unfold binary_round_aux, shr_fexp, fexp, emin, Zdigits2, prec, emax.
  cbn [shr_record_of_loc]. rewrite Hd.
  replace (Z.max (53 + e - 53) (3 - 1024 - 53) - e)%Z with 0%Z by lia.
  cbn [shr shr_m loc_of_shr_record round_nearest_even shr_record_of_loc].
  rewrite Hd.
  replace (Z.max (53 + e - 53) (3 - 1024 - 53) - e)%Z with 0%Z by lia.
  cbn [shr shr_m].
  destruct (Z.leb_spec e (1024 - 53)) as [_ | Hgt]; [reflexivity | lia].
Qed.

Lemma num_finite (n : nat) :
  (0 < n)%nat -> (Z.of_nat n < 2 ^ 53)%Z ->
  exists m e, Prim2SF (num n) = S754_finite false m e.
Proof.
  intros Hpos Hlt. unfold num. rewrite of_uint63_spec.
  rewrite Uint63.of_Z_spec.
  rewrite Z.mod_small by (split; [lia |]; apply Z.lt_trans with (2 ^ 53)%Z;
                          [exact Hlt | reflexivity]).
  destruct (Z.of_nat n) as [| p | p] eqn:E; try lia.
  cbn [binary_normalize]. unfold binary_round.
  pose proof (digits2_pos_lower p) as Hlow.
  assert (Hd : (Zpos (digits2_pos p) <= 53)%Z).
  { destruct (Z.le_gt_cases (Zpos (digits2_pos p)) 53) as [H | H]; [exact H |].
    assert (2 ^ 53 <= 2 ^ (Zpos (digits2_pos p) - 1))%Z
      by (apply Z.pow_le_mono_r; lia).
    lia. }
  unfold fexp, emin, prec, emax, shl_align.
  replace (Z.max (Zpos (digits2_pos p) + 0 - 53) (3 - 1024 - 53) - 0)%Z
    with (Zpos (digits2_pos p) - 53)%Z by lia.
  destruct (Zpos (digits2_pos p) - 53)%Z as [| k | k] eqn:Ek; try lia.
  - exists p, 0%Z. apply binary_round_aux_exact; lia.
  - exists (Pos.iter xO p k), (Z.max (Zpos (digits2_pos p) + 0 - 53) (3 - 1024 - 53)).
    apply binary_round_aux_exact; [| lia].
    rewrite digits2_pos_iter_xO. lia.
Qed.

Lemma zero_div_finite (x : float) (m : positive) (e : Z) :
  Prim2SF x = S754_finite false m e -> 0 / x = 0.
Proof.
  intros Hx. rewrite <- (SF2Prim_Prim2SF (0 / x)).
  rewrite FloatAxioms.div_spec, Hx. reflexivity.
Qed.

Lemma sum_squares_zero (n : nat) : sum_squares (repeat 0 n) = 0.
Proof.
  unfold sum_squares. induction n as [| n IH]; [reflexivity |].
  cbn [repeat fold_left]. exact IH.
Qed.

(** C7: a frame whose root-mean-square amplitude is below the noise floor
    makes [detectPitch] return null at the gate; every all-zero frame of
    positive length is such a frame. *)
Theorem silence_gate :
  (forall buf sampleRate,
      (rms_of buf <? noise_floor) = true -> detectPitch buf sampleRate = None) /\
  (forall n sampleRate,
      (0 < n)%nat -> (Z.of_nat n < 2 ^ 53)%Z ->
      (rms_of (repeat 0 n) <? noise_floor) = true /\
      detectPitch (repeat 0 n) sampleRate = None).
Proof.
  assert (Hgate : forall buf sampleRate,
      (rms_of buf <? noise_floor) = true -> detectPitch buf sampleRate = None).
  { intros buf sampleRate H. unfold detectPitch. now rewrite H. }
  split; [exact Hgate |].
  intros n sampleRate Hpos Hlt.
  assert (Hrms : (rms_of (repeat 0 n) <? noise_floor) = true).
  { unfold rms_of. rewrite sum_squares_zero, repeat_length.
    destruct (num_finite n Hpos Hlt) as (m & e & Hn).
    rewrite (zero_div_finite _ m e Hn). reflexivity. }
  split; [exact Hrms | now apply Hgate].
Qed.

Lemma Prim2SF_nan : Prim2SF nan = S754_nan.
Proof. reflexivity. Qed.

Lemma sub_nan_l (x : float) : nan - x = nan.
Proof.
  rewrite <- (SF2Prim_Prim2SF (nan - x)), FloatAxioms.sub_spec, Prim2SF_nan.
  reflexivity.
Qed.

Lemma sub_nan_r (x : float) : x - nan = nan.
Proof.
  rewrite <- (SF2Prim_Prim2SF (x - nan)), FloatAxioms.sub_spec, Prim2SF_nan.
  destruct (Prim2SF x); reflexivity.
Qed.

Lemma mul_nan_r (x : float) : x * nan = nan.
Proof.
  rewrite <- (SF2Prim_Prim2SF (x * nan)), FloatAxioms.mul_spec, Prim2SF_nan.
  destruct (Prim2SF x); reflexivity.
Qed.

Lemma add_nan_r (x : float) : x + nan = nan.
Proof.
  rewrite <- (SF2Prim_Prim2SF (x + nan)), FloatAxioms.add_spec, Prim2SF_nan.
  destruct (Prim2SF x); reflexivity.
Qed.

Lemma div_nan_r (x : float) : x / nan = nan.
Proof.
  rewrite <- (SF2Prim_Prim2SF (x / nan)), FloatAxioms.div_spec, Prim2SF_nan.
  destruct (Prim2SF x); reflexivity.
Qed.

Lemma yin_fill_length (buf : Float32Array) (half : nat) :
  length (yin_fill buf half) = half.
Proof.
  unfold yin_fill, yin_loop. destruct half as [| h]; [reflexivity |].
  apply (yin_loop_invariant buf (S h) (S h - 1)). lia.
Qed.

(** Interpolating at the last lag reads [yinBuffer[SIZE / 2]], which does
    not exist, and the NaN it yields reaches the result. *)
Lemma refine_last_lag (yin : Float32Array) (tau : nat) (sampleRate : float) :
  (tau + 1 = length yin)%nat -> refine yin tau sampleRate = Some nan.
Proof.
  intros Hlast. unfold refine.
  assert (Hs2 : get yin (tau + 1) = nan) by (unfold get; apply nth_overflow; lia).
  rewrite Hs2, sub_nan_l, sub_nan_r, sub_nan_l, mul_nan_r, div_nan_r,
    add_nan_r, div_nan_r.
  reflexivity.
Qed.

(** C4, evaluated on the code: when the threshold search of an even-length
    frame ends at the last lag N/2 - 1, the interpolation reads
    [yinBuffer[N/2]] and [detectPitch] returns NaN, not null and not a
    frequency of the 60 to 1500 Hz band. *)
Theorem interpolation_past_end (buf : Float32Array) (sampleRate : float) :
  Nat.Even (length buf) ->
  (rms_of buf <? noise_floor) = false ->
  let half := (length buf / 2)%nat in
  (scan (yin_fill buf half) half (length buf) 2 + 1 = half)%nat ->
  detectPitch buf sampleRate = Some nan.
Proof.
  intros _ Hgate half Hlast. unfold detectPitch. rewrite Hgate. fold half.
  destruct (Nat.eqb_spec (scan (yin_fill buf half) half (length buf) 2) half)
    as [E | _]; [lia |].
  apply refine_last_lag. rewrite yin_fill_length. exact Hlast.
Qed.

End EstimatorFacts.

Section EstimatorEvalFacts.
Import Estimator EstimatorEval.
Local Open Scope float_scope.

Lemma fold_left_map_fuse {A B C : Type} (f : A -> C -> A) (g : B -> C)
    (l : list B) (a : A) :
  fold_left f (map g l) a = fold_left (fun acc x => f acc (g x)) l a.
Proof. revert a. induction l as [| x l IH]; intros a; [reflexivity | apply IH]. Qed.

Lemma fold_left_agree {A B : Type} (f g : A -> B -> A) (l : list B) (a : A) :
  (forall acc x, In x l -> f acc x = g acc x) ->
  fold_left f l a = fold_left g l a.
Proof.
  revert a. induction l as [| x l IH]; intros a H; [reflexivity |].
  cbn [fold_left]. rewrite (H a x) by now left.
  apply IH. intros acc y Hy. apply H. now right.
Qed.

Lemma map_nth_lt {A B : Type} (f : A -> B) (l : list A) (n : nat) (d : B) (d' : A) :
  (n < length l)%nat -> nth n (map f l) d = f (nth n l d').
Proof.
  revert n. induction l as [| x l IH]; intros [| n] H; cbn in *; try lia.
  - reflexivity.
  - apply IH. lia.
Qed.

Lemma pairs_as_combine (buf : Float32Array) (half tau : nat) :
  (half + tau <= length buf)%nat ->
  map (fun i => (get buf i, get buf (i + tau))) (seq 0 half) =
  combine (firstn half buf) (firstn half (skipn tau buf)).
Proof.
  intros Hlen.
  assert (L1 : length (firstn half buf) = half) by (rewrite length_firstn; lia).
  assert (L2 : length (firstn half (skipn tau buf)) = half)
    by (rewrite length_firstn, length_skipn; lia).
  apply (nth_ext _ _ (nan, nan) (nan, nan)).
  - rewrite length_map, length_seq, length_combine. lia.
  - intros n Hn. rewrite length_map, length_seq in Hn.
    rewrite combine_nth by lia.
    rewrite (map_nth_lt _ _ _ _ 0%nat) by (rewrite length_seq; exact Hn).
    rewrite seq_nth by exact Hn. cbn [Nat.add].
    rewrite !nth_firstn. apply Nat.ltb_lt in Hn as Hn'. rewrite Hn'.
    rewrite nth_skipn. unfold get. f_equal. f_equal. lia.
Qed.

Lemma diff_at_zip (buf : Float32Array) (half tau : nat) :
  (half + tau <= length buf)%nat -> diff_at buf half tau = diff_zip buf half tau.
Proof.
  intros Hlen. unfold diff_at, diff_zip.
  rewrite <- (pairs_as_combine buf half tau Hlen).
  now rewrite fold_left_map_fuse.
Qed.

Lemma yin_fill_as_zip (buf : Float32Array) :
  yin_fill buf (length buf / 2) = yin_fill_zip buf (length buf / 2).
Proof.
  unfold yin_fill, yin_loop, yin_fill_zip. f_equal.
  apply fold_left_agree. intros [runningSum yinBuffer] tau Hin.
  apply in_seq in Hin. unfold yin_step, yin_step_zip.
  assert (2 * (length buf / 2) <= length buf)%nat
    by (apply Nat.Div0.mul_div_le).
  now rewrite diff_at_zip by lia.
Qed.

Lemma interpolation_past_end_witness :
  Nat.Even (length (clicks 4096 2047)) /\
  (rms_of (clicks 4096 2047) <? noise_floor) = false /\
  (scan (yin_fill (clicks 4096 2047) (length (clicks 4096 2047) / 2))
        (length (clicks 4096 2047) / 2) (length (clicks 4096 2047)) 2 + 1
   = length (clicks 4096 2047) / 2)%nat /\
  detectPitch (clicks 4096 2047) 44100 = Some nan.
Proof.
  assert (He : Nat.Even (length (clicks 4096 2047)))
    by (exists 2048%nat; vm_compute; reflexivity).
  assert (Hg : (rms_of (clicks 4096 2047) <? noise_floor) = false)
    by (vm_compute; reflexivity).
  assert (Hs : (scan (yin_fill (clicks 4096 2047) (length (clicks 4096 2047) / 2))
        (length (clicks 4096 2047) / 2) (length (clicks 4096 2047)) 2 + 1
   = length (clicks 4096 2047) / 2)%nat)
    by (rewrite yin_fill_as_zip; vm_compute; reflexivity).
  split; [exact He |]. split; [exact Hg |]. split; [exact Hs |].
  exact (interpolation_past_end (clicks 4096 2047) 44100 He Hg Hs).
Defined.

Lemma normalized_difference_witness :
  Nat.Even (length (clicks 20 6)) /\
  (rms_of (clicks 20 6) <? noise_floor) = false /\
  (((0 < length (clicks 20 6) / 2)%nat ->
    get (yin_fill (clicks 20 6) (length (clicks 20 6) / 2)) 0 = 1) /\
   forall tau, (1 <= tau < length (clicks 20 6) / 2)%nat ->
     get (yin_fill (clicks 20 6) (length (clicks 20 6) / 2)) tau =
     EstimatorSpec.cmnd (clicks 20 6) (length (clicks 20 6) / 2) tau).
Proof.
  assert (He : Nat.Even (length (clicks 20 6)))
    by (exists 10%nat; reflexivity).
  assert (Hg : (rms_of (clicks 20 6) <? noise_floor) = false)
    by (vm_compute; reflexivity).
  split; [exact He |]. split; [exact Hg |].
  exact (normalized_difference (clicks 20 6) He Hg).
Defined.

Lemma period_candidate_witness :
  Nat.Even (length (clicks 20 6)) /\
  (rms_of (clicks 20 6) <? noise_floor) = false /\
  (2 <= length (clicks 20 6) / 2)%nat /\
  (((forall tau, (2 <= tau < length (clicks 20 6) / 2)%nat ->
      (get (yin_fill (clicks 20 6) (length (clicks 20 6) / 2)) tau
         <? threshold) = false) ->
    detectPitch (clicks 20 6) 8000 = None) /\
   (forall tau0,
      (2 <= tau0 < length (clicks 20 6) / 2)%nat ->
      (get (yin_fill (clicks 20 6) (length (clicks 20 6) / 2)) tau0
         <? threshold) = true ->
      (forall k, (2 <= k < tau0)%nat ->
         (get (yin_fill (clicks 20 6) (length (clicks 20 6) / 2)) k
            <? threshold) = false) ->
      exists t,
        (tau0 <= t < length (clicks 20 6) / 2)%nat /\
        (forall k, (tau0 <= k < t)%nat ->
           (get (yin_fill (clicks 20 6) (length (clicks 20 6) / 2)) (k + 1)
              <? get (yin_fill (clicks 20 6) (length (clicks 20 6) / 2)) k)
           = true) /\
        ((t + 1 < length (clicks 20 6) / 2)%nat ->
           (get (yin_fill (clicks 20 6) (length (clicks 20 6) / 2)) (t + 1)
              <? get (yin_fill (clicks 20 6) (length (clicks 20 6) / 2)) t)
           = false) /\
        detectPitch (clicks 20 6) 8000 =
        refine (yin_fill (clicks 20 6) (length (clicks 20 6) / 2)) t 8000)).
Proof.
  assert (He : Nat.Even (length (clicks 20 6)))
    by (exists 10%nat; reflexivity).
  assert (Hg : (rms_of (clicks 20 6) <? noise_floor) = false)
    by (vm_compute; reflexivity).
  assert (Hh : (2 <= length (clicks 20 6) / 2)%nat)
    by (vm_compute; lia).
  split; [exact He |]. split; [exact Hg |]. split; [exact Hh |].
  exact (period_candidate (clicks 20 6) 8000 He Hg Hh).
Defined.

Lemma silence_gate_witness :
  (0 < 4096)%nat /\ (Z.of_nat 4096 < 2 ^ 53)%Z /\
  (rms_of (repeat 0 4096) <? noise_floor) = true /\
  detectPitch (repeat 0 4096) 44100 = None.
Proof.
  assert (Hp : (0 < 4096)%nat) by lia.
  assert (Hb : (Z.of_nat 4096 < 2 ^ 53)%Z) by (vm_compute; reflexivity).
  split; [exact Hp |]. split; [exact Hb |].
  exact (proj2 silence_gate 4096%nat 44100 Hp Hb).
Defined.

End EstimatorEvalFacts.

Section SessionFacts.
Import Estimator Mapper Session SessionSpec.
Local Open Scope R_scope.

Lemma average_mean (history : list Z) : average history = mean history.
Proof.
  unfold average, mean. f_equal. f_equal.
  apply fold_symmetric; intros; lia.
Qed.

Lemma push_cents_unfold (history : list Z) (c : Z) :
  (length history <= SMOOTHING_SIZE)%nat ->
  push_cents history c =
  if (length history <? SMOOTHING_SIZE)%nat then history ++ [c]
  else tl history ++ [c].
Proof.
  intros Hlen. unfold push_cents. rewrite length_app. cbn [length].
  destruct (Nat.ltb_spec (length history) SMOOTHING_SIZE) as [Hlt | Hge].
  - destruct (Nat.ltb_spec SMOOTHING_SIZE (length history + 1)) as [H | _];
      [lia | reflexivity].
  - destruct (Nat.ltb_spec SMOOTHING_SIZE (length history + 1)) as [_ | H];
      [| lia].
    destruct history as [| x history]; [unfold SMOOTHING_SIZE in *; simpl in *; lia |].
    reflexivity.
Qed.

Lemma push_cents_length (history : list Z) (c : Z) :
  (length history <= SMOOTHING_SIZE)%nat ->
  (length (push_cents history c) <= SMOOTHING_SIZE)%nat.
Proof.
  intros Hlen. unfold push_cents.
  destruct (Nat.ltb_spec SMOOTHING_SIZE (length (history ++ [c]))) as [H | H];
    [| exact H].
  rewrite length_app in H. cbn [length] in H.
  destruct history as [| x history]; cbn [app tl length] in *; [lia |].
  rewrite length_app. cbn [length]. lia.
Qed.

Lemma detect_cycle_history_bounded (freq : option float) (s : Meter) :
  (length (centsHistory s) <= SMOOTHING_SIZE)%nat ->
  (length (centsHistory (detect_cycle freq s)) <= SMOOTHING_SIZE)%nat.
Proof.
  intros H. unfold detect_cycle.
  destruct freq as [f |]; [| exact H].
  destruct (truthy (Some f)); [| exact H].
  cbn [centsHistory]. now apply push_cents_length.
Qed.

Lemma step_history_bounded (sampleRate : float) (s : Meter) (ev : Event) :
  (length (centsHistory s) <= SMOOTHING_SIZE)%nat ->
  (length (centsHistory (step sampleRate s ev)) <= SMOOTHING_SIZE)%nat.
Proof.
  intros H. destruct ev as [| | | buf |]; cbn [step]; try exact H;
    try (cbn; unfold SMOOTHING_SIZE; lia).
  unfold detect. destruct (micState s); try exact H.
  now apply detect_cycle_history_bounded.
Qed.

Lemma run_history_bounded (sampleRate : float) (evs : list Event) (s : Meter) :
  (length (centsHistory s) <= SMOOTHING_SIZE)%nat ->
  (length (centsHistory (run sampleRate evs s)) <= SMOOTHING_SIZE)%nat.
Proof.
  revert s. unfold run. induction evs as [| ev evs IH]; intros s H; [exact H |].
  cbn [fold_left]. apply IH. now apply step_history_bounded.
Qed.

Lemma detect_success (sampleRate : float) (buf : Float32Array) (f : float)
    (s : Meter) :
  micState s = active -> detectPitch buf sampleRate = Some f ->
  truthy (Some f) = true ->
  detect sampleRate buf s =
  let info := freqToNote (F2R f) in
  let history := push_cents (centsHistory s) (cents info) in
  {| micState := active; frequency := Some f; noteInfo := Some info;
     smoothedCents := average history; centsHistory := history |}.
Proof.
  intros Ha Hd Ht. unfold detect. rewrite Ha, Hd. unfold detect_cycle.
  rewrite Ht, Ha. reflexivity.
Qed.

Lemma detect_silence (sampleRate : float) (buf : Float32Array) (s : Meter) :
  micState s = active -> detectPitch buf sampleRate = None ->
  detect sampleRate buf s =
  {| micState := active; frequency := None; noteInfo := None;
     smoothedCents := smoothedCents s; centsHistory := centsHistory s |}.
Proof.
  intros Ha Hd. unfold detect. rewrite Ha, Hd. unfold detect_cycle.
  rewrite Ha. reflexivity.
Qed.

Lemma average_single (c : Z) : average [c] = IZR c.
Proof. unfold average. cbn [fold_left length INR]. rewrite Z.add_0_l. lra. Qed.

(** The real value of a concrete finite float, by evaluation. *)
Ltac eval_F2R f :=
  unfold F2R;
  let x := eval vm_compute in (Prim2SF f) in
  replace (Prim2SF f) with x by (vm_compute; reflexivity);
  cbn [cond_Zopp pow2];
  repeat match goal with
  | |- context [Z.pow_pos ?a ?b] =>
      let v := eval vm_compute in (Z.pow_pos a b) in
      change (Z.pow_pos a b) with v
  end;
  lra.

Lemma F2R_440 : F2R 440 = 440.
Proof. eval_F2R 440%float. Qed.

Lemma F2R_450 : F2R 450 = 450.
Proof. eval_F2R 450%float. Qed.

(** C1, as stated, fails: a cycle without a pitch leaves the rolling
    history in place, and the reading after the silence averages over it.
    Here 450 Hz is heard, then nothing, then 440 Hz (0 cents): the history
    is not emptied and the smoothed value differs from 0. *)
Lemma silence_keeps_history :
  let s0 := startMic_acquired (startMic_request initial) in
  let s1 := detect_cycle (Some 450%float) s0 in
  let s2 := detect_cycle None s1 in
  let s3 := detect_cycle (Some 440%float) s2 in
  micState s1 = active /\
  centsHistory s2 <> [] /\
  smoothedCents s3 <> IZR (cents (freqToNote (F2R 440))).
Proof.
  cbv zeta. unfold detect_cycle.
  replace (truthy (Some 450%float)) with true by (vm_compute; reflexivity).
  replace (truthy (Some 440%float)) with true by (vm_compute; reflexivity).
  cbn [centsHistory smoothedCents micState startMic_acquired startMic_request initial].
  rewrite F2R_440, F2R_450, freqToNote_440. cbn [cents].
  pose proof cents_450 as Hc. set (c := cents (freqToNote 450)) in *.
  split; [reflexivity |]. split; [discriminate |].
  unfold push_cents, average, SMOOTHING_SIZE.
  cbn [app length Nat.ltb Nat.leb fold_left INR]. 
  rewrite Z.add_0_l, Z.add_0_r.
  assert (27 <= IZR c) by (apply IZR_le; exact Hc).
  simpl. lra.
Qed.

(** C1, amended: a cycle of an active session in which [detectPitch]
    returns null clears the published note and frequency and leaves the
    rolling history and the last smoothed value untouched; after the next
    successful detection the history is the kept window with the new cents
    pushed, the smoothed value is its mean, and it equals the frame's raw
    cents when the history was empty before the silence. *)
Theorem silence_clears_note_only (sampleRate : float) (buf : Float32Array)
    (s : Meter) :
  micState s = active ->
  detectPitch buf sampleRate = None ->
  let s1 := detect sampleRate buf s in
  noteInfo s1 = None /\ frequency s1 = None /\
  centsHistory s1 = centsHistory s /\ smoothedCents s1 = smoothedCents s /\
  forall buf' f,
    detectPitch buf' sampleRate = Some f -> truthy (Some f) = true ->
    let c := cents (freqToNote (F2R f)) in
    let s2 := detect sampleRate buf' s1 in
    centsHistory s2 = push_cents (centsHistory s) c /\
    smoothedCents s2 = mean (push_cents (centsHistory s) c) /\
    (centsHistory s = [] -> smoothedCents s2 = IZR c).
Proof.
  intros Ha Hd s1. subst s1. rewrite (detect_silence _ _ _ Ha Hd).
  set (s1 := {| micState := active; frequency := None; noteInfo := None;
                smoothedCents := smoothedCents s;
                centsHistory := centsHistory s |}).
  assert (Ha1 : micState s1 = active) by reflexivity.
  split; [reflexivity |]. split; [reflexivity |].
  split; [reflexivity |]. split; [reflexivity |].
  intros buf' f Hd' Ht'.
  rewrite (detect_success sampleRate buf' f s1 Ha1 Hd' Ht').
  cbn [smoothedCents centsHistory s1].
  split; [reflexivity |]. split; [apply average_mean |].
  intros He. rewrite He. apply average_single.
Qed.

Lemma silence_clears_note_only_witness :
  let tone := EstimatorEval.clicks 20 6 in
  let silent := repeat 0%float 16 in
  let f := 0x1.4be0b2d25c780p+10%float in
  let c := cents (freqToNote (F2R f)) in
  let s := run 8000 [StartRequested; Acquired; Frame tone] initial in
  micState s = active /\
  detectPitch silent 8000 = None /\
  centsHistory s = [c] /\
  noteInfo (detect 8000 silent s) = None /\
  frequency (detect 8000 silent s) = None /\
  centsHistory (detect 8000 silent s) = [c] /\
  smoothedCents (detect 8000 silent s) = smoothedCents s /\
  centsHistory (detect 8000 tone (detect 8000 silent s)) = [c; c] /\
  smoothedCents (detect 8000 tone (detect 8000 silent s)) = mean [c; c] /\
  let s0 := startMic_acquired (startMic_request initial) in
  centsHistory s0 = [] /\
  smoothedCents (detect 8000 tone (detect 8000 silent s0)) = IZR c.
Proof.
  intros tone silent f c s.
  assert (Hd0 : detectPitch tone 8000 = Some f) by (vm_compute; reflexivity).
  assert (Ht : truthy (Some f) = true) by (vm_compute; reflexivity).
  assert (Hd : detectPitch silent 8000 = None) by (vm_compute; reflexivity).
  assert (Es : s = {| micState := active; frequency := Some f;
                      noteInfo := Some (freqToNote (F2R f));
                      smoothedCents := average [c]; centsHistory := [c] |}).
  { unfold s, run. cbn [fold_left step].
    set (s0 := startMic_acquired (startMic_request initial)).
    assert (Ha0 : micState s0 = active) by reflexivity.
    rewrite (detect_success 8000 tone f s0 Ha0 Hd0 Ht). reflexivity. }
  assert (Ha : micState s = active) by (rewrite Es; reflexivity).
  assert (Hh : centsHistory s = [c]) by (rewrite Es; reflexivity).
  pose proof (silence_clears_note_only 8000 silent s Ha Hd) as H.
  cbv zeta in H. destruct H as (H1 & H2 & H3 & H4 & H5).
  destruct (H5 tone f Hd0 Ht) as (H6 & H7 & _).
  rewrite Hh in H3, H6, H7.
  split; [exact Ha |]. split; [exact Hd |]. split; [exact Hh |].
  split; [exact H1 |]. split; [exact H2 |]. split; [exact H3 |].
  split; [exact H4 |]. split; [exact H6 |]. split; [exact H7 |].
  intros s0.
  assert (Ha0 : micState s0 = active) by reflexivity.
  split; [reflexivity |].
  pose proof (silence_clears_note_only 8000 silent s0 Ha0 Hd) as H0.
  cbv zeta in H0. destruct H0 as (_ & _ & _ & _ & H8).
  destruct (H8 tone f Hd0 Ht) as (_ & _ & H9).
  exact (H9 eq_refl).
Defined.

(** C8: the rolling history of a session never holds more than 8 entries;
    a successful detection appends the new cents value, dropping exactly
    the oldest entry when 8 are already held, and publishes the arithmetic
    mean of the resulting window. *)
Theorem rolling_window (sampleRate : float) (evs : list Event)
    (buf : Float32Array) (f : float) :
  let s := run sampleRate evs initial in
  micState s = active ->
  detectPitch buf sampleRate = Some f ->
  truthy (Some f) = true ->
  let c := cents (freqToNote (F2R f)) in
  let s' := step sampleRate s (Frame buf) in
  (length (centsHistory s) <= 8)%nat /\
  (length (centsHistory s') <= 8)%nat /\
  centsHistory s' =
    (if (length (centsHistory s) <? 8)%nat then centsHistory s ++ [c]
     else tl (centsHistory s) ++ [c]) /\
  smoothedCents s' = mean (centsHistory s').
Proof.
  intros s Ha Hd Ht c s'.
  assert (Hs : (length (centsHistory s) <= SMOOTHING_SIZE)%nat).
  { apply run_history_bounded. cbn. unfold SMOOTHING_SIZE. lia. }
  subst s'. cbn [step]. rewrite (detect_success _ _ _ _ Ha Hd Ht).
  cbn [centsHistory smoothedCents]. fold c.
  split; [exact Hs |]. split; [now apply push_cents_length |].
  split; [now apply push_cents_unfold | apply average_mean].
Qed.

Lemma rolling_window_witness :
  let evs := [StartRequested; Acquired; Frame (repeat 0%float 16)] in
  let buf := EstimatorEval.clicks 20 6 in
  let f := 0x1.4be0b2d25c780p+10%float in
  micState (run 8000 evs initial) = active /\
  detectPitch buf 8000 = Some f /\
  truthy (Some f) = true /\
  (length (centsHistory (run 8000 evs initial)) <= 8)%nat /\
  (length (centsHistory (step 8000 (run 8000 evs initial) (Frame buf))) <= 8)%nat /\
  centsHistory (step 8000 (run 8000 evs initial) (Frame buf)) =
    (if (length (centsHistory (run 8000 evs initial)) <? 8)%nat
     then centsHistory (run 8000 evs initial) ++ [cents (freqToNote (F2R f))]
     else tl (centsHistory (run 8000 evs initial)) ++ [cents (freqToNote (F2R f))]) /\
  smoothedCents (step 8000 (run 8000 evs initial) (Frame buf)) =
    mean (centsHistory (step 8000 (run 8000 evs initial) (Frame buf))).
Proof.
  intros evs buf f.
  assert (Hd0 : detectPitch (repeat 0%float 16) 8000 = None)
    by (vm_compute; reflexivity).
  assert (Ha : micState (run 8000 evs initial) = active).
  { unfold evs, run. cbn [fold_left step]. unfold detect.
    cbn [micState startMic_acquired]. rewrite Hd0. reflexivity. }
  assert (Hd : detectPitch buf 8000 = Some f) by (vm_compute; reflexivity).
  assert (Ht : truthy (Some f) = true) by (vm_compute; reflexivity).
  split; [exact Ha |]. split; [exact Hd |]. split; [exact Ht |].
  exact (rolling_window 8000 evs buf f Ha Hd Ht).
Defined.

End SessionFacts.

Section MapperExtras.
Import Mapper MapperSpec.

(** [((midi % 12) + 12) % 12] is the floor remainder, also for negative
    MIDI numbers. *)
Lemma noteIndex_mod (midi : Z) :
  Z.rem (Z.rem midi 12 + 12) 12 = (midi mod 12)%Z.
Proof. Z.to_euclidean_division_equations. lia. Qed.

Lemma index_of_nth (i : nat) :
  (i < 12)%nat -> index_of (nth i NOTE_NAMES ""%string) NOTE_NAMES = Some i.
Proof.
  intros H. do 12 (destruct i as [| i]; [reflexivity |]). lia.
Qed.

End MapperExtras.

Section EstimatorExtras.
Import Estimator EstimatorEval.
Local Open Scope float_scope.

(** Comparison of specification floats read in the other direction. *)
Lemma SFcompare_antisym (x y : spec_float) :
  SFcompare y x = option_map CompOpp (SFcompare x y).
Proof.
  destruct x as [sx | sx | | sx mx ex], y as [sy | sy | | sy my ey];
    cbn [SFcompare option_map];
    try (destruct sx; reflexivity); try (destruct sy; reflexivity);
    try (destruct sx, sy; reflexivity); try reflexivity.
  destruct sx, sy; cbn [CompOpp]; try reflexivity;
    rewrite (Z.compare_antisym ex ey); destruct (ex ?= ey)%Z; cbn [CompOpp];
    try reflexivity.
  - now rewrite (Pos.compare_cont_antisym mx my Eq).
  - now rewrite (Pos.compare_cont_antisym mx my Eq).
Qed.

Lemma is_nan_spec (x : float) :
  is_nan x = false -> Prim2SF x <> S754_nan.
Proof.
  unfold is_nan. rewrite FloatAxioms.eqb_spec. intros H E. rewrite E in H.
  discriminate H.
Qed.

Lemma SFcompare_defined (x y : spec_float) :
  x <> S754_nan -> y <> S754_nan -> exists c, SFcompare x y = Some c.
Proof.
  intros Hx Hy.
  destruct x as [sx | sx | | sx mx ex], y as [sy | sy | | sy my ey];
    try congruence; cbn [SFcompare]; eexists; reflexivity.
Qed.

(** For two numbers, "not x < y" is "y <= x". *)
Lemma ltb_false_leb (x y : float) :
  is_nan x = false -> is_nan y = false -> (x <? y) = false -> (y <=? x) = true.
Proof.
  intros Hx Hy. rewrite FloatAxioms.ltb_spec, FloatAxioms.leb_spec.
  unfold SFltb, SFleb. rewrite (SFcompare_antisym (Prim2SF x) (Prim2SF y)).
  destruct (SFcompare_defined _ _ (is_nan_spec x Hx) (is_nan_spec y Hy))
    as [c Hc].
  rewrite Hc. destruct c; cbn; congruence.
Qed.

(** A number at or above 60 is neither NaN nor zero. *)
Lemma above_low_cutoff_truthy (f : float) :
  (low_cutoff <=? f) = true -> is_nan f = false /\ (f =? 0) = false.
Proof.
  unfold is_nan. rewrite FloatAxioms.leb_spec, !FloatAxioms.eqb_spec.
  unfold SFleb, SFeqb.
  replace (Prim2SF low_cutoff) with (S754_finite false 8444249301319680 (-47))
    by (vm_compute; reflexivity).
  replace (Prim2SF 0) with (S754_zero false) by reflexivity.
  destruct (Prim2SF f) as [s | s | | s m e]; try destruct s;
    cbn [SFcompare]; intros H; try discriminate H.
  - split; reflexivity.
  - split; [| reflexivity].
    now rewrite Z.compare_refl, Pos.compare_cont_refl.
Qed.

Lemma div_nan_l (x : float) : nan / x = nan.
Proof.
  rewrite <- (SF2Prim_Prim2SF (nan / x)), FloatAxioms.div_spec, Prim2SF_nan.
  reflexivity.
Qed.

Lemma mul_zero_div_zero (y : float) : y * 0 / 0 = nan.
Proof.
  rewrite <- (SF2Prim_Prim2SF (y * 0 / 0)).
  rewrite FloatAxioms.div_spec, FloatAxioms.mul_spec.
  replace (Prim2SF 0) with (S754_zero false) by reflexivity.
  destruct (Prim2SF y) as [s | s | | s m e]; reflexivity.
Qed.

(** A sample minus itself is zero, or NaN when the sample is not finite. *)
Lemma sub_self (c : float) : c - c = 0 \/ c - c = nan.
Proof.
  rewrite <- (SF2Prim_Prim2SF (c - c)), FloatAxioms.sub_spec.
  destruct (Prim2SF c) as [s | s | | s m e]; cbn [SF64sub SFsub].
  - left. destruct s; reflexivity.
  - right. destruct s; reflexivity.
  - right. reflexivity.
  - left. rewrite Z.sub_diag. reflexivity.
Qed.

Lemma fsum_agree (f g : nat -> float) (lo n : nat) :
  (forall k, (lo <= k < lo + n)%nat -> f k = g k) ->
  EstimatorSpec.fsum f lo n = EstimatorSpec.fsum g lo n.
Proof.
  intros H. unfold EstimatorSpec.fsum. apply fold_left_agree.
  intros acc k Hk. apply in_seq in Hk. now rewrite H.
Qed.

Lemma fsum_zero (lo n : nat) : EstimatorSpec.fsum (fun _ => 0) lo n = 0.
Proof.
  induction n as [| n IH]; [reflexivity |]. rewrite fsum_S, IH. reflexivity.
Qed.

Lemma fsum_nan (lo n : nat) :
  (0 < n)%nat -> EstimatorSpec.fsum (fun _ => nan) lo n = nan.
Proof.
  intros H. destruct n as [| n]; [lia |]. rewrite fsum_S. apply add_nan_r.
Qed.

Lemma get_repeat (c : float) (n i : nat) :
  (i < n)%nat -> get (repeat c n) i = c.
Proof. intros H. unfold get. now apply nth_repeat_lt. Qed.

(** Every lag of a constant frame has an undefined normalized difference. *)
Lemma constant_frame_cmnd (c : float) (n half tau : nat) :
  (2 * half <= n)%nat -> (1 <= tau < half)%nat ->
  EstimatorSpec.cmnd (repeat c n) half tau = nan.
Proof.
  intros Hn Ht. unfold EstimatorSpec.cmnd.
  assert (Hd : forall t, (t < half)%nat ->
            EstimatorSpec.d (repeat c n) half t =
            EstimatorSpec.fsum (fun _ => (c - c) * (c - c)) 0 half).
  { intros t Hlt. unfold EstimatorSpec.d. apply fsum_agree. intros k Hk.
    now rewrite !get_repeat by lia. }
  destruct (sub_self c) as [E | E].
  - assert (Hz : forall t, (t < half)%nat -> EstimatorSpec.d (repeat c n) half t = 0).
    { intros t Hlt. rewrite (Hd t Hlt), E.
      change (0 * 0) with 0. apply fsum_zero. }
    rewrite (Hz tau) by lia.
    rewrite (fsum_agree (EstimatorSpec.d (repeat c n) half) (fun _ => 0))
      by (intros k Hk; apply Hz; lia).
    rewrite fsum_zero, mul_zero_div_zero. reflexivity.
  - assert (Hz : EstimatorSpec.d (repeat c n) half tau = nan).
    { rewrite (Hd tau) by lia. rewrite E. change (nan * nan) with nan.
      apply fsum_nan. lia. }
    rewrite Hz, mul_nan_r, div_nan_l. reflexivity.
Qed.

Lemma detectPitch_band (buf : Float32Array) (sampleRate f : float) :
  detectPitch buf sampleRate = Some f ->
  is_nan f = true \/
  ((low_cutoff <=? f) = true /\ (f <=? high_cutoff) = true).
Proof.
  unfold detectPitch.
  destruct (rms_of buf <? noise_floor); [discriminate |].
  destruct (_ =? _)%nat; [discriminate |].
  unfold refine.
  match goal with |- context [if (?a || ?b)%bool then _ else _] =>
    destruct a eqn:Hlow; [discriminate |]; destruct b eqn:Hhigh; [discriminate |]
  end.
  cbn [orb]. intros H. injection H as <-.
  match type of Hlow with (?x <? _) = false => set (freq := x) in * end.
  destruct (is_nan freq) eqn:Hn; [now left | right].
  split; apply ltb_false_leb; try assumption; reflexivity.
Qed.

(** X6: whatever [detectPitch] returns as a number is NaN or lies in the
    band from 60 to 1500 Hz. *)
Theorem detected_frequency_in_band (buf : Float32Array) (sampleRate f : float) :
  detectPitch buf sampleRate = Some f ->
  is_nan f = true \/
  ((low_cutoff <=? f) = true /\ (f <=? high_cutoff) = true).
Proof. apply detectPitch_band. Qed.

Lemma detected_frequency_in_band_witness :
  detectPitch (clicks 20 6) 8000 = Some 0x1.4be0b2d25c780p+10 /\
  (is_nan 0x1.4be0b2d25c780p+10 = true \/
   ((low_cutoff <=? 0x1.4be0b2d25c780p+10) = true /\
    (0x1.4be0b2d25c780p+10 <=? high_cutoff) = true)).
Proof.
  assert (H : detectPitch (clicks 20 6) 8000 = Some 0x1.4be0b2d25c780p+10)
    by (vm_compute; reflexivity).
  split; [exact H |].
  exact (detected_frequency_in_band (clicks 20 6) 8000 _ H).
Defined.

(** X7: a frame too short to have a lag 2 (fewer than four samples) that
    passes the silence gate makes [detectPitch] return NaN. *)
Theorem short_frame_nan (buf : Float32Array) (sampleRate : float) :
  Nat.Even (length buf) -> (length buf < 4)%nat ->
  (rms_of buf <? noise_floor) = false ->
  detectPitch buf sampleRate = Some nan.
Proof.
  intros [k Hk] Hlen Hgate. unfold detectPitch. rewrite Hgate.
  assert (Hy : (length (yin_fill buf (length buf / 2)) <= 1)%nat).
  { rewrite yin_fill_length. apply Nat.Div0.div_le_upper_bound. lia. }
  assert (Hs : scan (yin_fill buf (length buf / 2)) (length buf / 2)
                 (length buf) 2 = 2%nat).
  { destruct (length buf) as [| n] eqn:E; [reflexivity |].
    cbn [scan]. destruct (Nat.ltb_spec 2 (S n / 2)) as [H | _]; [| reflexivity].
    rewrite yin_fill_length in Hy. lia. }
  rewrite Hs.
  destruct (Nat.eqb_spec 2 (length buf / 2)) as [E | _].
  { rewrite yin_fill_length in Hy. lia. }
  unfold refine.
  assert (H1 : get (yin_fill buf (length buf / 2)) (2 - 1) = nan)
    by (unfold get; apply nth_overflow; exact Hy).
  rewrite H1, sub_nan_r, div_nan_l, add_nan_r, div_nan_r. reflexivity.
Qed.

Lemma short_frame_nan_witness :
  Nat.Even (length [1; 1]) /\ (length [1; 1] < 4)%nat /\
  (rms_of [1; 1] <? noise_floor) = false /\
  detectPitch [1; 1] 44100 = Some nan.
Proof.
  assert (He : Nat.Even (length [1; 1])) by (exists 1%nat; reflexivity).
  assert (Hl : (length [1; 1] < 4)%nat) by (cbn; lia).
  assert (Hg : (rms_of [1; 1] <? noise_floor) = false) by reflexivity.
  split; [exact He |]. split; [exact Hl |]. split; [exact Hg |].
  exact (short_frame_nan [1; 1] 44100 He Hl Hg).
Defined.

(** X8: a frame of at least four samples that are all the same value never
    yields a pitch: quiet ones stop at the gate, and for the others every
    normalized difference is undefined, so no lag is below the threshold. *)
Theorem constant_frame_no_pitch (c : float) (n : nat) (sampleRate : float) :
  Nat.Even n -> (4 <= n)%nat -> detectPitch (repeat c n) sampleRate = None.
Proof.
  intros _ Hn. unfold detectPitch.
  destruct (rms_of (repeat c n) <? noise_floor); [reflexivity |].
  rewrite repeat_length.
  assert (Hh : (2 <= n / 2)%nat) by (apply Nat.div_le_lower_bound; lia).
  assert (H2 : (2 * (n / 2) <= n)%nat) by (apply Nat.Div0.mul_div_le).
  rewrite (scan_none (yin_fill (repeat c n) (n / 2)) (n / 2) n 2); try lia.
  - now rewrite Nat.eqb_refl.
  - intros k Hk.
    assert (Hv : get (yin_fill (repeat c n) (n / 2)) k = nan).
    { unfold yin_fill, yin_loop.
      destruct (yin_loop_invariant (repeat c n) (n / 2) (n / 2 - 1) ltac:(lia))
        as (_ & _ & _ & Hj).
      rewrite Hj by lia. apply constant_frame_cmnd; lia. }
    rewrite Hv. reflexivity.
Qed.

Lemma constant_frame_no_pitch_witness :
  Nat.Even 4096 /\ (4 <= 4096)%nat /\
  detectPitch (repeat 0.5 4096) 44100 = None.
Proof.
  assert (He : Nat.Even 4096) by (exists 2048%nat; reflexivity).
  assert (Hl : (4 <= 4096)%nat) by lia.
  split; [exact He |]. split; [exact Hl |].
  exact (constant_frame_no_pitch 0.5 4096 44100 He Hl).
Defined.

End EstimatorExtras.

Section SessionExtras.
Import Estimator EstimatorEval Mapper Session SessionSpec SessionInv Display.
Local Open Scope R_scope.

Lemma run_app (sampleRate : float) (evs evs' : list Event) (s : Meter) :
  run sampleRate (evs ++ evs') s = run sampleRate evs' (run sampleRate evs s).
Proof. unfold run. apply fold_left_app. Qed.

Lemma push_cents_ok (history : list Z) (c : Z) :
  Forall cents_ok history -> cents_ok c -> Forall cents_ok (push_cents history c).
Proof.
  intros Hh Hc. unfold push_cents.
  assert (Ha : Forall cents_ok (history ++ [c]))
    by (apply Forall_app; split; [exact Hh | now constructor]).
  destruct (_ <? _)%nat; [| exact Ha].
  destruct (history ++ [c]) as [| x l]; [constructor |].
  cbn [tl]. now inversion Ha.
Qed.

Lemma push_cents_nonempty (history : list Z) (c : Z) :
  push_cents history c <> [].
Proof.
  unfold push_cents.
  destruct (Nat.ltb_spec SMOOTHING_SIZE (length (history ++ [c]))) as [H | H].
  - destruct (history ++ [c]) as [| x [| y l]]; cbn in *;
      unfold SMOOTHING_SIZE in H; cbn in H; try lia. discriminate.
  - destruct history; discriminate.
Qed.

Lemma sum_bounds (l : list Z) :
  Forall cents_ok l ->
  (-50 * Z.of_nat (length l) <= fold_right Z.add 0 l <= 50 * Z.of_nat (length l))%Z.
Proof.
  induction 1 as [| c l Hc _ IH]; [cbn; lia |].
  cbn [fold_right length]. unfold cents_ok in Hc. lia.
Qed.

Lemma mean_bounds (l : list Z) :
  l <> [] -> Forall cents_ok l -> -50 <= mean l <= 50.
Proof.
  intros Hne Hok. unfold mean.
  pose proof (sum_bounds l Hok) as [Hlo Hhi].
  assert (Hn : 0 < INR (length l)).
  { apply lt_0_INR. destruct l; [congruence | cbn; lia]. }
  apply IZR_le in Hlo, Hhi. rewrite mult_IZR, <- INR_IZR_INZ in Hlo, Hhi.
  set (n := INR (length l)) in *. set (t := IZR (fold_right Z.add 0%Z l)) in *.
  split.
  - apply (Rmult_le_reg_r n); [exact Hn |].
    replace (t / n * n) with t by (field; lra). lra.
  - apply (Rmult_le_reg_r n); [exact Hn |].
    replace (t / n * n) with t by (field; lra). lra.
Qed.

Lemma initial_well_formed : well_formed initial.
Proof.
  split; [constructor |]. split; [cbn; lra | exact I].
Qed.

(** A truthy result of the estimator is a frequency of the band, and
    conversely. *)
Lemma truthy_estimate (buf : Float32Array) (sampleRate f : float) :
  detectPitch buf sampleRate = Some f ->
  (truthy (Some f) = true <-> in_band f).
Proof.
  intros Hd. unfold truthy, in_band. split.
  - intros Ht. destruct (detectPitch_band buf sampleRate f Hd) as [Hn | Hb];
      [| exact Hb].
    rewrite Hn in Ht. discriminate Ht.
  - intros [Hlo _]. destruct (above_low_cutoff_truthy f Hlo) as [Hn Hz].
    now rewrite Hn, Hz.
Qed.

Lemma detect_well_formed (sampleRate : float) (buf : Float32Array) (s : Meter) :
  well_formed s -> well_formed (detect sampleRate buf s).
Proof.
  intros H. unfold detect. destruct (micState s); try exact H.
  destruct H as (Hh & Hs & Hn). unfold detect_cycle.
  destruct (detectPitch buf sampleRate) as [f |] eqn:Hd;
    [| split; [exact Hh | split; [exact Hs | exact I]]].
  destruct (truthy (Some f)) eqn:Ht;
    [| split; [exact Hh | split; [exact Hs | exact I]]].
  assert (Hp : Forall cents_ok (push_cents (centsHistory s) (cents (freqToNote (F2R f)))))
    by (apply push_cents_ok; [exact Hh | apply cents_range]).
  split; [exact Hp |]. split.
  - cbn [smoothedCents]. rewrite average_mean.
    apply mean_bounds; [apply push_cents_nonempty | exact Hp].
  - cbn [noteInfo frequency]. exists f.
    split; [reflexivity |]. split; [| reflexivity].
    now apply (truthy_estimate buf sampleRate f Hd).
Qed.

Lemma step_well_formed (sampleRate : float) (s : Meter) (ev : Event) :
  well_formed s -> well_formed (step sampleRate s ev).
Proof.
  intros H. destruct ev as [| | | buf |]; cbn [step].
  - exact H.
  - destruct H as (Hh & Hs & Hn).
    split; [constructor |]. split; [exact Hs | exact Hn].
  - exact H.
  - now apply detect_well_formed.
  - apply initial_well_formed.
Qed.

Lemma run_well_formed (sampleRate : float) (evs : list Event) (s : Meter) :
  well_formed s -> well_formed (run sampleRate evs s).
Proof.
  revert s. unfold run. induction evs as [| ev evs IH]; intros s H; [exact H |].
  cbn [fold_left]. apply IH. now apply step_well_formed.
Qed.

Lemma Math_round_IZR (z : Z) : Math_round (IZR z) = z.
Proof. apply Math_round_eq. lra. Qed.

Lemma skipn_S_tl {A : Type} (k : nat) (l : list A) :
  skipn (S k) l = tl (skipn k l).
Proof.
  revert l. induction k as [| k IH]; intros [| x l]; try reflexivity.
  cbn [skipn]. rewrite <- IH. destruct l; reflexivity.
Qed.

(** X9: in every state a session can reach, the stored cents and their
    mean lie within half a semitone, so the clamp of the needle never
    acts: the needle angle is 1.8 degrees per cent, within 90 degrees, and
    the cents shown are between -50 and 50. *)
Theorem reading_within_dial (sampleRate : float) (evs : list Event) :
  let s := run sampleRate evs initial in
  Forall cents_ok (centsHistory s) /\
  -50 <= smoothedCents s <= 50 /\
  needleAngle s = smoothedCents s * 1.8 /\
  -90 <= needleAngle s <= 90 /\
  (-50 <= displayCents s <= 50)%Z.
Proof.
  intros s.
  destruct (run_well_formed sampleRate evs initial initial_well_formed)
    as (Hh & Hs & _).
  fold s in Hh, Hs.
  assert (Ha : needleAngle s = smoothedCents s * 1.8).
  { unfold needleAngle. rewrite (Rmin_right 50) by lra.
    rewrite Rmax_right by lra. reflexivity. }
  split; [exact Hh |]. split; [exact Hs |]. split; [exact Ha |].
  split; [rewrite Ha; lra |].
  unfold displayCents. destruct (noteInfo s); [| lia].
  rewrite <- (Math_round_IZR (-50)), <- (Math_round_IZR 50).
  split; apply Math_round_le; lra.
Qed.

(** X10: a note is only ever published together with the frequency it was
    computed from, and that frequency lies in the band from 60 to 1500 Hz. *)
Theorem published_note_matches_frequency (sampleRate : float)
    (evs : list Event) (info : NoteInfo) :
  noteInfo (run sampleRate evs initial) = Some info ->
  exists f, frequency (run sampleRate evs initial) = Some f /\
            in_band f /\ info = freqToNote (F2R f).
Proof.
  intros Hi.
  destruct (run_well_formed sampleRate evs initial initial_well_formed)
    as (_ & _ & Hn).
  rewrite Hi in Hn. exact Hn.
Qed.

Lemma published_note_matches_frequency_witness :
  let evs := [StartRequested; Acquired; Frame (clicks 20 6)] in
  let f := 0x1.4be0b2d25c780p+10%float in
  noteInfo (run 8000 evs initial) = Some (freqToNote (F2R f)) /\
  exists g, frequency (run 8000 evs initial) = Some g /\
            in_band g /\ freqToNote (F2R f) = freqToNote (F2R g).
Proof.
  intros evs f.
  assert (Hd : detectPitch (clicks 20 6) 8000 = Some f) by (vm_compute; reflexivity).
  assert (Ht : truthy (Some f) = true) by (vm_compute; reflexivity).
  assert (Hi : noteInfo (run 8000 evs initial) = Some (freqToNote (F2R f))).
  { unfold evs, run. cbn [fold_left step].
    set (s0 := startMic_acquired (startMic_request initial)).
    assert (Ha : micState s0 = active) by reflexivity.
    rewrite (detect_success 8000 (clicks 20 6) f s0 Ha Hd Ht). reflexivity. }
  split; [exact Hi |].
  exact (published_note_matches_frequency 8000 evs _ Hi).
Defined.

(** X11: a cycle of an active session publishes a note exactly when the
    estimator returned a frequency of the band. *)
Theorem note_published_iff_in_band (sampleRate : float) (buf : Float32Array)
    (s : Meter) :
  micState s = active ->
  (noteInfo (detect sampleRate buf s) <> None <->
   exists f, detectPitch buf sampleRate = Some f /\ in_band f).
Proof.
  intros Ha. unfold detect. rewrite Ha. unfold detect_cycle.
  destruct (detectPitch buf sampleRate) as [f |] eqn:Hd.
  - pose proof (truthy_estimate buf sampleRate f Hd) as Ht.
    destruct (truthy (Some f)); cbn [noteInfo]; split.
    + intros _. exists f. split; [reflexivity | now apply Ht].
    + discriminate.
    + congruence.
    + intros (g & Hg & Hb). injection Hg as <-.
      apply Ht in Hb. discriminate Hb.
  - cbn [noteInfo]. split; [congruence |]. intros (g & Hg & _). discriminate Hg.
Qed.

Lemma note_published_iff_in_band_witness :
  let s := startMic_acquired initial in
  micState s = active /\
  (noteInfo (detect 8000 (clicks 20 6) s) <> None <->
   exists f, detectPitch (clicks 20 6) 8000 = Some f /\ in_band f).
Proof.
  intros s.
  assert (Ha : micState s = active) by reflexivity.
  split; [exact Ha |].
  exact (note_published_iff_in_band 8000 (clicks 20 6) s Ha).
Defined.

(** X12: once the microphone is stopped the session is back in its initial
    state, and frames that still arrive change nothing. *)
Theorem frames_ignored_after_stop (sampleRate : float) (evs : list Event)
    (bufs : list Float32Array) :
  run sampleRate (evs ++ StopRequested :: map Frame bufs) initial = initial.
Proof.
  rewrite run_app. generalize (run sampleRate evs initial). intros s.
  unfold run. cbn [fold_left step]. change (stopMic s) with initial.
  induction bufs as [| buf bufs IH]; [reflexivity |].
  cbn [map fold_left step]. exact IH.
Qed.

(** X13: the first detection after the microphone is acquired, whatever
    happened before, shows that frame alone: the window holds its cents
    only and the smoothed value equals them. *)
Theorem first_reading_after_acquisition (sampleRate : float)
    (evs : list Event) (buf : Float32Array) (f : float) :
  detectPitch buf sampleRate = Some f -> truthy (Some f) = true ->
  let s := run sampleRate (evs ++ [Acquired; Frame buf]) initial in
  frequency s = Some f /\
  noteInfo s = Some (freqToNote (F2R f)) /\
  centsHistory s = [cents (freqToNote (F2R f))] /\
  smoothedCents s = IZR (cents (freqToNote (F2R f))).
Proof.
  intros Hd Ht s.
  set (s0 := startMic_acquired (run sampleRate evs initial)).
  assert (Ha : micState s0 = active) by reflexivity.
  assert (E : s = detect sampleRate buf s0).
  { subst s. rewrite run_app. reflexivity. }
  rewrite E, (detect_success sampleRate buf f s0 Ha Hd Ht).
  cbn [frequency noteInfo centsHistory smoothedCents startMic_acquired s0].
  split; [reflexivity |]. split; [reflexivity |]. split; [reflexivity |].
  apply average_single.
Qed.

Lemma first_reading_after_acquisition_witness :
  let evs := [StartRequested; Acquired; Frame (clicks 20 6); StopRequested;
              StartRequested] in
  let f := 0x1.4be0b2d25c780p+10%float in
  detectPitch (clicks 20 6) 8000 = Some f /\ truthy (Some f) = true /\
  frequency (run 8000 (evs ++ [Acquired; Frame (clicks 20 6)]) initial) = Some f /\
  noteInfo (run 8000 (evs ++ [Acquired; Frame (clicks 20 6)]) initial) =
    Some (freqToNote (F2R f)) /\
  centsHistory (run 8000 (evs ++ [Acquired; Frame (clicks 20 6)]) initial) =
    [cents (freqToNote (F2R f))] /\
  smoothedCents (run 8000 (evs ++ [Acquired; Frame (clicks 20 6)]) initial) =
    IZR (cents (freqToNote (F2R f))).
Proof.
  intros evs f.
  assert (Hd : detectPitch (clicks 20 6) 8000 = Some f) by (vm_compute; reflexivity).
  assert (Ht : truthy (Some f) = true) by (vm_compute; reflexivity).
  split; [exact Hd |]. split; [exact Ht |].
  exact (first_reading_after_acquisition 8000 evs (clicks 20 6) f Hd Ht).
Defined.

(** X14: an estimate that is null or NaN clears the note and keeps the
    window and the smoothed value; the display then shows "---" and 0
    cents in gray, while the needle stays at its last angle. *)
Theorem falsy_estimate_keeps_needle (sampleRate : float) (buf : Float32Array)
    (s : Meter) :
  micState s = active ->
  truthy (detectPitch buf sampleRate) = false ->
  let s' := detect sampleRate buf s in
  frequency s' = detectPitch buf sampleRate /\
  noteInfo s' = None /\
  centsHistory s' = centsHistory s /\
  smoothedCents s' = smoothedCents s /\
  noteLabel s' = "---"%string /\ displayCents s' = 0%Z /\
  needleColor s' = "#3f3f46"%string /\
  needleAngle s' = needleAngle s.
Proof.
  intros Ha Ht s'. subst s'. unfold detect. rewrite Ha. unfold detect_cycle.
  destruct (detectPitch buf sampleRate) as [f |]; [rewrite Ht |];
    repeat split.
Qed.

Lemma falsy_estimate_keeps_needle_witness :
  let s := startMic_acquired initial in
  micState s = active /\
  truthy (detectPitch [1%float; 1%float] 44100) = false /\
  frequency (detect 44100 [1%float; 1%float] s) =
    detectPitch [1%float; 1%float] 44100 /\
  noteInfo (detect 44100 [1%float; 1%float] s) = None /\
  centsHistory (detect 44100 [1%float; 1%float] s) = centsHistory s /\
  smoothedCents (detect 44100 [1%float; 1%float] s) = smoothedCents s /\
  noteLabel (detect 44100 [1%float; 1%float] s) = "---"%string /\
  displayCents (detect 44100 [1%float; 1%float] s) = 0%Z /\
  needleColor (detect 44100 [1%float; 1%float] s) = "#3f3f46"%string /\
  needleAngle (detect 44100 [1%float; 1%float] s) = needleAngle s.
Proof.
  intros s.
  assert (Ha : micState s = active) by reflexivity.
  assert (Ht : truthy (detectPitch [1%float; 1%float] 44100) = false)
    by (vm_compute; reflexivity).
  split; [exact Ha |]. split; [exact Ht |].
  exact (falsy_estimate_keeps_needle 44100 [1%float; 1%float] s Ha Ht).
Defined.

(** X15: pushing cents one after the other onto an empty window leaves the
    last eight of them, in the order pushed. *)
Theorem window_is_last_eight (cs : list Z) :
  fold_left push_cents cs [] = skipn (length cs - 8) cs.
Proof.
  induction cs as [| c cs IH] using rev_ind; [reflexivity |].
  rewrite fold_left_app. cbn [fold_left]. rewrite IH.
  rewrite length_app. cbn [length]. unfold push_cents.
  rewrite length_app, length_skipn. cbn [length]. unfold SMOOTHING_SIZE.
  destruct (Nat.ltb_spec 8 (length cs - (length cs - 8) + 1)) as [H | H].
  - replace (length cs + 1 - 8)%nat with (S (length cs - 8)) by lia.
    rewrite skipn_S_tl, skipn_app.
    replace (length cs - 8 - length cs)%nat with 0%nat by lia.
    reflexivity.
  - replace (length cs + 1 - 8)%nat with 0%nat by lia.
    replace (length cs - 8)%nat with 0%nat by lia. reflexivity.
Qed.

(** X16: "In Tune!" is shown exactly when a note is published and the
    smoothed deviation is at least -5.5 and below 5.5 cents; it implies
    the yellow "close" zone and turns the needle green. *)
Theorem in_tune_zone (s : Meter) :
  (inTune s = true <->
   noteInfo s <> None /\ -5.5 <= smoothedCents s < 5.5) /\
  (inTune s = true -> close s = true /\ needleColor s = "#22c55e"%string).
Proof.
  unfold needleColor, inTune, close, displayCents.
  destruct (noteInfo s) as [info |]; cbv beta iota.
  - pose proof (Math_round_bound (smoothedCents s)) as Hb.
    set (r := Math_round (smoothedCents s)) in *.
    split.
    + split.
      * intros H. apply Z.leb_le in H. split; [discriminate |].
        assert (-5 <= r <= 5)%Z as [H1 H2] by lia.
        apply IZR_le in H1, H2. lra.
      * intros [_ [H1 H2]]. apply Z.leb_le.
        assert (-6 < r < 6)%Z; [| lia].
        split; apply lt_IZR; lra.
    + intros H. rewrite H. split; [| reflexivity].
      apply Z.leb_le in H. apply Z.leb_le. lia.
  - split; [| discriminate].
    split; [discriminate | intros [H _]; congruence].
Qed.

End SessionExtras.

Section EarModeFacts.
Import EarMode.

Lemma trigger_known (sampler : bool) (n : string) (log : list string) :
  In n (map note STRINGS) ->
  Forall (fun m => In m (map note STRINGS)) log ->
  Forall (fun m => In m (map note STRINGS)) (trigger sampler n log).
Proof.
  intros Hn Hl. unfold trigger. destruct sampler; [| exact Hl].
  apply Forall_app. split; [exact Hl | now constructor].
Qed.

Lemma step_consistent (sampler : bool) (s : Ear) (ev : Event) :
  from_buttons ev -> consistent s -> consistent (step sampler s ev).
Proof.
  intros Hev (Hi & Hr & Hp & Hl). destruct ev as [index | | |]; cbn [step].
  - cbn [from_buttons] in Hev. unfold startLoop.
    destruct (match activeString s with
              | Some a => (a =? index)%nat | None => false end).
    + cbn [state_of]. repeat split; cbn; try congruence. exact Hl.
    + destruct (nth_error STRINGS index) as [str |] eqn:E.
      * cbn [state_of]. unfold consistent.
        cbn [activeString intervalRef pulse played].
        rewrite E. split; [reflexivity |]. split.
        { intros i Hi'. injection Hi' as <-. exact Hev. }
        split; [congruence |].
        apply trigger_known; [| exact Hl].
        apply in_map. now apply nth_error_In with index.
      * apply nth_error_None in E. lia.
  - repeat split; cbn; try congruence. exact Hl.
  - unfold tick. destruct (intervalRef s) as [n |] eqn:E;
      [| unfold consistent; rewrite E; exact (conj Hi (conj Hr (conj Hp Hl)))].
    unfold consistent. cbn [activeString intervalRef pulse played].
    split; [exact Hi |]. split; [exact Hr |].
    destruct (activeString s) as [i |] eqn:Ea; [| discriminate Hi].
    split; [congruence |].
    apply trigger_known; [| exact Hl].
    destruct (nth_error STRINGS i) as [str |] eqn:En; [| discriminate Hi].
    cbn in Hi. injection Hi as ->.
    apply in_map. now apply nth_error_In with i.
  - unfold pulseOff.
    destruct (pendingPulseOff s); [exact (conj Hi (conj Hr (conj Hp Hl))) |].
    unfold consistent. cbn [activeString intervalRef pulse played].
    split; [exact Hi |]. split; [exact Hr |]. split; [discriminate | exact Hl].
Qed.

(** X17: whatever the user clicks and whichever timers fire, the interval
    that runs replays the note of the highlighted string, no interval
    runs when none is highlighted, the pulse is on only while a string
    is, and every note played is the note of one of the six strings. *)
Theorem ear_mode_consistent (sampler : bool) (evs : list Event) :
  Forall from_buttons evs -> consistent (run sampler evs initial).
Proof.
  intros Hev. unfold run.
  assert (H0 : consistent initial).
  { repeat split; cbn; try congruence. constructor. }
  revert H0. generalize initial.
  induction Hev as [| ev evs Hb _ IH]; intros s Hs; [exact Hs |].
  cbn [fold_left]. apply IH. now apply step_consistent.
Qed.

Lemma ear_mode_consistent_witness :
  Forall from_buttons [Click 0; Tick; PulseOff; Click 3; Tick; Click 3] /\
  consistent (run true [Click 0; Tick; PulseOff; Click 3; Tick; Click 3] initial).
Proof.
  assert (H : Forall from_buttons [Click 0; Tick; PulseOff; Click 3; Tick; Click 3]).
  { repeat constructor; cbn; lia. }
  split; [exact H | exact (ear_mode_consistent true _ H)].
Defined.

(** X18: a click on a string that is not looping plays its note once and
    starts its loop; a second click on the same string stops the loop
    without a sound, exactly as the Stop button does. *)
Theorem click_toggles_loop (sampler : bool) (index : nat) (s : Ear)
    (str : GuitarString) :
  nth_error STRINGS index = Some str ->
  activeString s <> Some index ->
  let s1 := step sampler s (Click index) in
  let s2 := step sampler s1 (Click index) in
  activeString s1 = Some index /\
  intervalRef s1 = Some (note str) /\
  played s1 = trigger sampler (note str) (played s) /\
  s2 = stopLoop s1 /\
  played s2 = played s1.
Proof.
  intros Hs Hne s1 s2.
  assert (E1 : s1 =
    {| activeString := Some index; intervalRef := Some (note str);
       pulse := true; pendingPulseOff := S (pendingPulseOff s);
       played := trigger sampler (note str) (played s) |}).
  { subst s1. cbn [step]. unfold startLoop.
    destruct (activeString s) as [a |] eqn:Ea.
    - destruct (Nat.eqb_spec a index) as [-> | _]; [congruence |].
      rewrite Hs. reflexivity.
    - rewrite Hs. reflexivity. }
  subst s2. rewrite E1. cbn [step]. unfold startLoop.
  cbn [activeString]. rewrite Nat.eqb_refl. cbn [state_of].
  repeat split.
Qed.

Lemma click_toggles_loop_witness :
  nth_error STRINGS 2 = Some (mkString "4th" "D3" "D3") /\
  activeString initial <> Some 2%nat /\
  activeString (step true initial (Click 2)) = Some 2%nat /\
  intervalRef (step true initial (Click 2)) = Some "D3"%string /\
  played (step true initial (Click 2)) = trigger true "D3" (played initial) /\
  step true (step true initial (Click 2)) (Click 2) =
    stopLoop (step true initial (Click 2)) /\
  played (step true (step true initial (Click 2)) (Click 2)) =
    played (step true initial (Click 2)).
Proof.
  assert (Hs : nth_error STRINGS 2 = Some (mkString "4th" "D3" "D3"))
    by reflexivity.
  assert (Hn : activeString initial <> Some 2%nat) by discriminate.
  split; [exact Hs |]. split; [exact Hn |].
  exact (click_toggles_loop true 2 initial _ Hs Hn).
Defined.

(** X19: while one string loops, a click on another string replaces the
    loop: only the new string's note is replayed from then on. *)
Theorem click_switches_string (sampler : bool) (a index : nat) (s : Ear)
    (str : GuitarString) (ticks : nat) :
  activeString s = Some a -> a <> index ->
  nth_error STRINGS index = Some str ->
  let s' := run sampler (Click index :: repeat Tick ticks) s in
  activeString s' = Some index /\
  played s' = played s ++
              (if sampler then repeat (note str) (S ticks) else []).
Proof.
  intros Ha Hne Hs s'. subst s'. unfold run. cbn [fold_left step].
  unfold startLoop. rewrite Ha.
  destruct (Nat.eqb_spec a index) as [E | _]; [congruence |].
  rewrite Hs. cbn [state_of].
  set (p := pendingPulseOff s). clearbody p.
  set (pl := played s). clearbody pl.
  assert (G : forall k q log,
    let t := fold_left (step sampler) (repeat Tick k)
               {| activeString := Some index; intervalRef := Some (note str);
                  pulse := true; pendingPulseOff := q; played := log |} in
    activeString t = Some index /\
    played t = log ++ (if sampler then repeat (note str) k else [])).
  { induction k as [| k IH]; intros q log.
    - cbn. split; [reflexivity |]. destruct sampler; now rewrite app_nil_r.
    - cbn [repeat fold_left step]. unfold tick. cbn [intervalRef activeString pendingPulseOff played].
      destruct (IH (S q) (trigger sampler (note str) log)) as [H1 H2].
      split; [exact H1 |]. rewrite H2. unfold trigger.
      destruct sampler; [| reflexivity].
      rewrite <- app_assoc. reflexivity. }
  destruct (G ticks (S p) (trigger sampler (note str) pl)) as [H1 H2].
  split; [exact H1 |]. rewrite H2. unfold trigger.
  destruct sampler; [| reflexivity].
  rewrite <- app_assoc. reflexivity.
Qed.

Lemma click_switches_string_witness :
  let s := step true initial (Click 0) in
  activeString s = Some 0%nat /\ 0%nat <> 3%nat /\
  nth_error STRINGS 3 = Some (mkString "3rd" "G3" "G3") /\
  activeString (run true (Click 3 :: repeat Tick 2) s) = Some 3%nat /\
  played (run true (Click 3 :: repeat Tick 2) s) =
    played s ++ repeat "G3"%string 3.
Proof.
  intros s.
  assert (Ha : activeString s = Some 0%nat) by reflexivity.
  assert (Hn : 0%nat <> 3%nat) by discriminate.
  assert (Hs : nth_error STRINGS 3 = Some (mkString "3rd" "G3" "G3"))
    by reflexivity.
  split; [exact Ha |]. split; [exact Hn |]. split; [exact Hs |].
  exact (click_switches_string true 0 3 s _ 2 Ha Hn Hs).
Defined.

End EarModeFacts.

Section SessionFlush.
Import Estimator EstimatorEval Mapper Session SessionSpec SessionInv Display.
Local Open Scope R_scope.

(** The window after a run of pushes: the last eight of everything. *)
Lemma push_many (cs history : list Z) :
  (length history <= 8)%nat ->
  fold_left push_cents cs history =
  skipn (length (history ++ cs) - 8) (history ++ cs).
Proof.
  intros Hh. induction cs as [| c cs IH] using rev_ind.
  - rewrite app_nil_r. replace (length history - 8)%nat with 0%nat by lia.
    reflexivity.
  - rewrite fold_left_app. cbn [fold_left]. rewrite IH.
    rewrite app_assoc. set (l := history ++ cs).
    rewrite length_app. cbn [length]. unfold push_cents.
    rewrite length_app, length_skipn. cbn [length]. unfold SMOOTHING_SIZE.
    destruct (Nat.ltb_spec 8 (length l - (length l - 8) + 1)) as [H | H].
    + replace (length l + 1 - 8)%nat with (S (length l - 8)) by lia.
      rewrite skipn_S_tl, skipn_app.
      replace (length l - 8 - length l)%nat with 0%nat by lia.
      reflexivity.
    + replace (length l + 1 - 8)%nat with 0%nat by lia.
      replace (length l - 8)%nat with 0%nat by lia. reflexivity.
Qed.

Lemma skipn_repeat (c : Z) (k n : nat) :
  skipn k (repeat c n) = repeat c (n - k).
Proof.
  revert n. induction k as [| k IH]; intros n.
  - now rewrite Nat.sub_0_r.
  - destruct n as [| n]; [reflexivity |]. cbn [repeat skipn]. apply IH.
Qed.

Lemma mean_repeat (c : Z) (n : nat) : (0 < n)%nat -> mean (repeat c n) = IZR c.
Proof.
  intros Hn. unfold mean. rewrite repeat_length.
  assert (Hs : fold_right Z.add 0%Z (repeat c n) = (Z.of_nat n * c)%Z).
  { clear Hn. induction n as [| n IH]; [reflexivity |].
    cbn [repeat fold_right]. rewrite IH. lia. }
  rewrite Hs, mult_IZR, <- INR_IZR_INZ.
  assert (0 < INR n) by (apply lt_0_INR; exact Hn).
  field. lra.
Qed.

(** The session after a run of frames that all yield the frequency [f]. *)
Lemma run_same_frequency (sampleRate : float) (bufs : list Float32Array)
    (f : float) (s : Meter) :
  micState s = active ->
  Forall (fun buf => detectPitch buf sampleRate = Some f) bufs ->
  truthy (Some f) = true ->
  bufs <> [] ->
  let s' := run sampleRate (map Frame bufs) s in
  let c := cents (freqToNote (F2R f)) in
  micState s' = active /\
  centsHistory s' =
    fold_left push_cents (repeat c (length bufs)) (centsHistory s) /\
  smoothedCents s' = average (centsHistory s').
Proof.
  intros Ha Hall Ht Hne. cbv zeta. revert s Ha.
  induction Hall as [| buf bufs Hd Hall IH]; intros s Ha; [congruence |].
  change (run sampleRate (map Frame (buf :: bufs)) s)
    with (run sampleRate (map Frame bufs) (detect sampleRate buf s)).
  rewrite (detect_success sampleRate buf f s Ha Hd Ht). cbv zeta.
  set (s1 := {| micState := active; frequency := Some f;
                noteInfo := Some (freqToNote (F2R f));
                smoothedCents := _; centsHistory := _ |}).
  destruct bufs as [| buf' bufs'].
  - split; [reflexivity |]. split; reflexivity.
  - destruct (IH ltac:(discriminate) s1 eq_refl) as (H1 & H2 & H3).
    split; [exact H1 |]. split; [| exact H3].
    rewrite H2. reflexivity.
Qed.

(** X20: after eight or more consecutive detections of the same frequency,
    nothing older is left in the window: it holds eight copies of that
    frequency's cents and the smoothed cents equal them, whatever the
    session had stored before. *)
Theorem stale_history_flushed (sampleRate : float) (evs : list Event)
    (bufs : list Float32Array) (f : float) :
  let s := run sampleRate evs initial in
  micState s = active ->
  Forall (fun buf => detectPitch buf sampleRate = Some f) bufs ->
  truthy (Some f) = true ->
  (8 <= length bufs)%nat ->
  let s' := run sampleRate (map Frame bufs) s in
  centsHistory s' = repeat (cents (freqToNote (F2R f))) 8 /\
  smoothedCents s' = IZR (cents (freqToNote (F2R f))).
Proof.
  intros s Ha Hall Ht Hlen s'.
  assert (Hne : bufs <> []) by (destruct bufs; [cbn in Hlen; lia | discriminate]).
  destruct (run_same_frequency sampleRate bufs f s Ha Hall Ht Hne)
    as (_ & Hh & Hs).
  fold s' in Hh, Hs.
  assert (Hb : (length (centsHistory s) <= 8)%nat).
  { apply (run_history_bounded sampleRate evs initial). cbn. lia. }
  assert (Hw : centsHistory s' = repeat (cents (freqToNote (F2R f))) 8).
  { rewrite Hh, push_many by exact Hb.
    rewrite length_app, repeat_length, skipn_app, skipn_all2 by lia.
    rewrite skipn_repeat. cbn [app]. f_equal. lia. }
  split; [exact Hw |].
  rewrite Hs, Hw, average_mean. apply mean_repeat. lia.
Qed.

Lemma stale_history_flushed_witness :
  let evs := [StartRequested; Acquired; Frame (repeat 0%float 16)] in
  let bufs := repeat (clicks 20 6) 8 in
  let f := 0x1.4be0b2d25c780p+10%float in
  micState (run 8000 evs initial) = active /\
  Forall (fun buf => detectPitch buf 8000 = Some f) bufs /\
  truthy (Some f) = true /\
  (8 <= length bufs)%nat /\
  centsHistory (run 8000 (map Frame bufs) (run 8000 evs initial)) =
    repeat (cents (freqToNote (F2R f))) 8 /\
  smoothedCents (run 8000 (map Frame bufs) (run 8000 evs initial)) =
    IZR (cents (freqToNote (F2R f))).
Proof.
  intros evs bufs f.
  assert (Hd0 : detectPitch (repeat 0%float 16) 8000 = None)
    by (vm_compute; reflexivity).
  assert (Ha : micState (run 8000 evs initial) = active).
  { unfold evs, run. cbn [fold_left step]. unfold detect.
    cbn [micState startMic_acquired]. rewrite Hd0. reflexivity. }
  assert (Hd : detectPitch (clicks 20 6) 8000 = Some f) by (vm_compute; reflexivity).
  assert (Hall : Forall (fun buf => detectPitch buf 8000 = Some f) bufs)
    by (unfold bufs; cbn [repeat]; repeat constructor; exact Hd).
  assert (Ht : truthy (Some f) = true) by (vm_compute; reflexivity).
  assert (Hl : (8 <= length bufs)%nat) by (cbn; lia).
  split; [exact Ha |]. split; [exact Hall |]. split; [exact Ht |].
  split; [exact Hl |].
  exact (stale_history_flushed 8000 evs bufs f Ha Hall Ht Hl).
Defined.

End SessionFlush.

Section Polarity.
Import Estimator FloatSpec.
Local Open Scope float_scope.

(** Rounding treats a value and its negation alike. *)
Lemma binary_round_aux_opp (s : bool) (m e : Z) (l : location) :
  binary_round_aux prec emax (negb s) m e l =
  SFopp (binary_round_aux prec emax s m e l).
Proof.
  unfold binary_round_aux.
  destruct (shr_fexp prec emax m e l) as [mrs' e'].
  destruct (shr_fexp prec emax _ e' loc_Exact) as [mrs'' e''].
  destruct (shr_m mrs''); try reflexivity.
  destruct (Z.leb e'' (emax - prec)); reflexivity.
Qed.

Lemma binary_normalize_opp (z e : Z) :
  z <> 0%Z ->
  binary_normalize prec emax (- z) e false =
  SFopp (binary_normalize prec emax z e false).
Proof.
  intros Hz. destruct z as [| p | p]; [congruence | |];
    cbn [Z.opp binary_normalize]; unfold binary_round;
    destruct (shl_align _ _ _) as [mz ez].
  - apply (binary_round_aux_opp false).
  - apply (binary_round_aux_opp true).
Qed.

Lemma cond_Zopp_negb (s : bool) (z : Z) :
  cond_Zopp (negb s) z = (- cond_Zopp s z)%Z.
Proof. destruct s; cbn; lia. Qed.

Lemma SFsub_opp (x y : spec_float) :
  same_magnitude (SFsub prec emax (SFopp x) (SFopp y)) (SFsub prec emax x y).
Proof.
  destruct x as [sx | sx | | sx mx ex], y as [sy | sy | | sy my ey];
    cbn [SFopp SFsub];
    try solve [left; reflexivity];
    try solve [destruct sx, sy;
               first [left; reflexivity
                     | right; do 2 eexists; split; reflexivity]].
  rewrite !cond_Zopp_negb.
  set (a := cond_Zopp sx _). set (b := cond_Zopp sy _).
  replace (- a - - b)%Z with (- (a - b))%Z by lia.
  destruct (Z.eq_dec (a - b) 0) as [E | NE].
  - rewrite E. right. exists false, false. split; reflexivity.
  - left. now apply binary_normalize_opp.
Qed.

Lemma SFmul_same_magnitude (x' x : spec_float) :
  same_magnitude x' x -> SFmul prec emax x' x' = SFmul prec emax x x.
Proof.
  intros [-> | (s' & s & -> & ->)].
  - destruct x as [s | s | | s m e]; cbn [SFopp SFmul]; try reflexivity;
      destruct s; reflexivity.
  - destruct s', s; reflexivity.
Qed.

(** The square of a difference does not see the polarity of the frame. *)
Lemma square_diff_opp (a b : float) :
  (- a - - b) * (- a - - b) = (a - b) * (a - b).
Proof.
  rewrite <- (SF2Prim_Prim2SF ((- a - - b) * (- a - - b))).
  rewrite <- (SF2Prim_Prim2SF ((a - b) * (a - b))).
  rewrite !FloatAxioms.mul_spec, !FloatAxioms.sub_spec, !FloatAxioms.opp_spec.
  f_equal. apply SFmul_same_magnitude. apply SFsub_opp.
Qed.

Lemma square_opp (a : float) : - a * - a = a * a.
Proof.
  rewrite <- (SF2Prim_Prim2SF (- a * - a)), <- (SF2Prim_Prim2SF (a * a)).
  rewrite !FloatAxioms.mul_spec, !FloatAxioms.opp_spec.
  f_equal. apply SFmul_same_magnitude. now left.
Qed.

Lemma get_map_opp (buf : Float32Array) (i : nat) :
  get (map PrimFloat.opp buf) i = - get buf i.
Proof.
  unfold get. change nan with (- nan) at 1. apply map_nth.
Qed.

Lemma sum_squares_opp (buf : Float32Array) :
  sum_squares (map PrimFloat.opp buf) = sum_squares buf.
Proof.
  unfold sum_squares. generalize 0.
  induction buf as [| x buf IH]; intros acc; [reflexivity |].
  cbn [map fold_left]. rewrite square_opp. apply IH.
Qed.

Lemma diff_at_opp (buf : Float32Array) (half tau : nat) :
  diff_at (map PrimFloat.opp buf) half tau = diff_at buf half tau.
Proof.
  unfold diff_at. apply fold_left_agree. intros acc i _.
  cbv zeta. now rewrite !get_map_opp, square_diff_opp.
Qed.

Lemma yin_fill_opp (buf : Float32Array) (half : nat) :
  yin_fill (map PrimFloat.opp buf) half = yin_fill buf half.
Proof.
  unfold yin_fill, yin_loop. f_equal. apply fold_left_agree.
  intros [runningSum yinBuffer] tau _. unfold yin_step.
  now rewrite diff_at_opp.
Qed.

(** X21: inverting the polarity of a frame (negating every sample) changes
    nothing: [detectPitch] returns the very same result. *)
Theorem polarity_invariant (buf : Float32Array) (sampleRate : float) :
  detectPitch (map PrimFloat.opp buf) sampleRate = detectPitch buf sampleRate.
Proof.
  unfold detectPitch, rms_of.
  now rewrite sum_squares_opp, length_map, yin_fill_opp.
Qed.

End Polarity.

(** ** Binary64 arithmetic

    The primitive operations of [float] are specified by the functions of
    [SpecFloat] on mantissas and exponents.  This part relates them to the
    real numbers: on finite doubles, [*], [-], [+] and [/] return the
    exact result rounded by [Binary64.round], which is monotone and leaves
    doubles alone, and [<], [<=] and [=] decide the order of the values. *)

Section Binary64Powers.
Import Binary64 Session.
Local Open Scope R_scope.

Lemma bpow_powerRZ (e : Z) : bpow e = powerRZ 2 e.
Proof.
  unfold bpow, pow2. destruct e as [| p | p]; cbn [powerRZ]; [reflexivity | |].
  - rewrite Zpower_pos_nat, Zpower_nat_Z, <- pow_IZR. reflexivity.
  - rewrite Zpower_pos_nat, Zpower_nat_Z, <- pow_IZR. reflexivity.
Qed.

Lemma bpow_pos (e : Z) : 0 < bpow e.
Proof. rewrite bpow_powerRZ. apply powerRZ_lt. lra. Qed.

Lemma bpow_add (a b : Z) : bpow (a + b) = bpow a * bpow b.
Proof. rewrite !bpow_powerRZ. apply powerRZ_add. lra. Qed.

Lemma bpow_0 : bpow 0 = 1.
Proof. reflexivity. Qed.

Lemma bpow_1 : bpow 1 = 2.
Proof. unfold bpow, pow2. simpl. lra. Qed.

Lemma bpow_succ (e : Z) : bpow (e + 1) = 2 * bpow e.
Proof. rewrite bpow_add, bpow_1. lra. Qed.

Lemma bpow_opp (e : Z) : bpow (- e) = / bpow e.
Proof.
  assert (H : bpow (- e) * bpow e = 1).
  { rewrite <- bpow_add. replace (- e + e)%Z with 0%Z by lia. reflexivity. }
  pose proof (bpow_pos e) as Hp.
  apply (Rmult_eq_reg_r (bpow e)); [| lra].
  rewrite H. field. lra.
Qed.

Lemma bpow_nonneg (e : Z) : (0 <= e)%Z -> bpow e = IZR (2 ^ e).
Proof.
  intros He. unfold bpow, pow2. destruct e as [| p | p]; [simpl; lra | reflexivity | lia].
Qed.

Lemma bpow_ge_1 (e : Z) : (0 <= e)%Z -> 1 <= bpow e.
Proof.
  intros He. rewrite bpow_nonneg by exact He. apply IZR_le.
  pose proof (Z.pow_pos_nonneg 2 e ltac:(lia) He). lia.
Qed.

Lemma bpow_le (a b : Z) : (a <= b)%Z -> bpow a <= bpow b.
Proof.
  intros H. replace b with (a + (b - a))%Z by lia. rewrite bpow_add.
  pose proof (bpow_pos a). pose proof (bpow_ge_1 (b - a) ltac:(lia)). nra.
Qed.

Lemma bpow_lt (a b : Z) : (a < b)%Z -> bpow a < bpow b.
Proof.
  intros H. apply Rlt_le_trans with (bpow (a + 1)).
  - rewrite bpow_succ. pose proof (bpow_pos a). lra.
  - apply bpow_le. lia.
Qed.

Lemma bpow_lt_inv (a b : Z) : bpow a < bpow b -> (a < b)%Z.
Proof.
  intros H. destruct (Z.lt_ge_cases a b) as [L | L]; [exact L |].
  pose proof (bpow_le b a L). lra.
Qed.

Lemma bpow_sub (a b : Z) : bpow (a - b) = bpow a / bpow b.
Proof.
  replace (a - b)%Z with (a + - b)%Z by lia. rewrite bpow_add, bpow_opp.
  reflexivity.
Qed.

End Binary64Powers.

Section Binary64Nearest.
Import Binary64.
Local Open Scope R_scope.

Lemma ZnearestE_cases (t : R) :
  let f := Zfloor t in
  (ZnearestE t = f /\ t - IZR f <= / 2 /\ (t - IZR f = / 2 -> Z.even f = true)) \/
  (ZnearestE t = (f + 1)%Z /\ / 2 <= t - IZR f /\
   (t - IZR f = / 2 -> Z.even f = false)).
Proof.
  intros f. unfold ZnearestE. fold f.
  destruct (Rlt_dec (t - IZR f) (/ 2)) as [H1 | H1].
  - left. repeat split; lra.
  - destruct (Rlt_dec (/ 2) (t - IZR f)) as [H2 | H2].
    + right. repeat split; lra.
    + destruct (Z.even f) eqn:E.
      * left. split; [reflexivity | split; [lra | intros _; reflexivity]].
      * right. split; [reflexivity | split; [lra | intros _; reflexivity]].
Qed.

Lemma ZnearestE_IZR (n : Z) : ZnearestE (IZR n) = n.
Proof.
  unfold ZnearestE. rewrite ZfloorZ.
  destruct (Rlt_dec (IZR n - IZR n) (/ 2)) as [_ | H]; [reflexivity | lra].
Qed.

Lemma ZnearestE_le (t u : R) : t <= u -> (ZnearestE t <= ZnearestE u)%Z.
Proof.
  intros H.
  pose proof (Zfloor_le t u H) as Hf.
  pose proof (Zfloor_bound t) as Bt. pose proof (Zfloor_bound u) as Bu.
  destruct (ZnearestE_cases t) as [(Et & Ht & Tt) | (Et & Ht & Tt)];
    destruct (ZnearestE_cases u) as [(Eu & Hu & Tu) | (Eu & Hu & Tu)];
    rewrite Et, Eu; try lia.
  destruct (Z.eq_dec (Zfloor t) (Zfloor u)) as [E | N]; [| lia].
  exfalso. rewrite E in *.
  assert (E1 : t - IZR (Zfloor u) = / 2) by lra.
  assert (E2 : u - IZR (Zfloor u) = / 2) by lra.
  rewrite (Tt E1) in Tu. specialize (Tu E2). discriminate Tu.
Qed.

Lemma ZnearestE_opp (t : R) : ZnearestE (- t) = (- ZnearestE t)%Z.
Proof.
  assert (Key : forall t n, IZR n - / 2 <= t <= IZR n + / 2 ->
                  (t = IZR n - / 2 -> Z.even n = true) ->
                  (t = IZR n + / 2 -> Z.even n = true) ->
                  ZnearestE t = n).
  { intros u n Hb Hl Hu.
    pose proof (Zfloor_bound u) as B.
    assert (Hf : Zfloor u = n \/ Zfloor u = (n - 1)%Z).
    { destruct (Rle_lt_dec (IZR n) u) as [L | L].
      - left. apply Zfloor_eq. lra.
      - right. apply Zfloor_eq. rewrite minus_IZR. lra. }
    destruct (ZnearestE_cases u) as [(E & H & T) | (E & H & T)];
      rewrite E; destruct Hf as [F | F]; rewrite F in *; try lia.
    - rewrite minus_IZR in *.
      assert (E1 : u = IZR n - / 2) by lra.
      specialize (Hl E1).
      assert (E2 : u - (IZR n - 1) = / 2) by lra.
      specialize (T E2).
      replace (n - 1)%Z with (Z.pred n) in T by lia.
      rewrite Z.even_pred in T.
      rewrite <- Z.negb_even in T. rewrite Hl in T. discriminate T.
    - assert (E1 : u = IZR n + / 2) by lra.
      specialize (Hu E1).
      assert (E2 : u - IZR n = / 2) by lra.
      specialize (T E2). congruence. }
  apply Key.
  - rewrite opp_IZR.
    pose proof (Zfloor_bound t) as B.
    destruct (ZnearestE_cases t) as [(E & H & T) | (E & H & T)]; rewrite E;
      rewrite ?plus_IZR; lra.
  - rewrite opp_IZR, Z.even_opp. intros Ht.
    pose proof (Zfloor_bound t) as B.
    destruct (ZnearestE_cases t) as [(E & H & T) | (E & H & T)]; rewrite E in *.
    + apply T. lra.
    + rewrite plus_IZR in Ht. lra.
  - rewrite opp_IZR, Z.even_opp. intros Ht.
    pose proof (Zfloor_bound t) as B.
    destruct (ZnearestE_cases t) as [(E & H & T) | (E & H & T)]; rewrite E in *.
    + lra.
    + rewrite plus_IZR in Ht.
      replace (Zfloor t + 1)%Z with (Z.succ (Zfloor t)) by lia.
      rewrite Z.even_succ, <- Z.negb_even. rewrite T by lra. reflexivity.
Qed.

Lemma ZnearestE_bounds (t : R) :
  t - / 2 <= IZR (ZnearestE t) <= t + / 2.
Proof.
  pose proof (Zfloor_bound t) as B.
  destruct (ZnearestE_cases t) as [(E & H & _) | (E & H & _)]; rewrite E;
    rewrite ?plus_IZR; lra.
Qed.

Lemma inbetween_floor (t : R) (m : Z) (l : location) :
  inbetween t m l -> Zfloor t = m.
Proof.
  intros H. apply Zfloor_eq.
  destruct l as [| [| |]]; cbn [inbetween] in H; lra.
Qed.

(** The rounding decision of the arithmetic is the nearest integer. *)
Lemma inbetween_nearest (t : R) (m : Z) (l : location) :
  inbetween t m l -> round_nearest_even m l = ZnearestE t.
Proof.
  intros H. pose proof (inbetween_floor t m l H) as F.
  unfold ZnearestE. rewrite F.
  destruct l as [| [| |]]; cbn [inbetween round_nearest_even] in *.
  - destruct (Rlt_dec (t - IZR m) (/ 2)); [reflexivity | lra].
  - destruct (Rlt_dec (t - IZR m) (/ 2)); [lra |].
    destruct (Rlt_dec (/ 2) (t - IZR m)); [lra |].
    destruct (Z.even m); reflexivity.
  - destruct (Rlt_dec (t - IZR m) (/ 2)); [reflexivity | lra].
  - destruct (Rlt_dec (t - IZR m) (/ 2)); [lra |].
    destruct (Rlt_dec (/ 2) (t - IZR m)); [reflexivity | lra].
Qed.

End Binary64Nearest.

Section Binary64Round.
Import Binary64.
Local Open Scope R_scope.

Lemma ln_bpow (e : Z) : ln (bpow e) = IZR e * ln 2.
Proof.
  rewrite bpow_powerRZ. destruct e as [| p | p]; cbn [powerRZ].
  - rewrite ln_1. lra.
  - rewrite ln_pow by lra. rewrite INR_IZR_INZ, positive_nat_Z. reflexivity.
  - rewrite ln_Rinv by (apply pow_lt; lra).
    rewrite ln_pow by lra. rewrite INR_IZR_INZ, positive_nat_Z.
    change (Z.neg p) with (- Z.pos p)%Z. rewrite opp_IZR. lra.
Qed.

Lemma ln2_gt_0 : 0 < ln 2.
Proof. pose proof ln_lt_2. lra. Qed.

Lemma mag_unique (k : Z) (x : R) :
  bpow (k - 1) <= Rabs x < bpow k -> mag x = k.
Proof.
  intros [Hl Hu]. unfold mag.
  pose proof (bpow_pos (k - 1)) as Hp. pose proof ln2_gt_0 as H2.
  assert (Hx : 0 < Rabs x) by lra.
  assert (L1 : IZR (k - 1) * ln 2 <= ln (Rabs x)).
  { rewrite <- ln_bpow. destruct Hl as [Hl | Hl].
    - left. apply ln_increasing; assumption.
    - right. now rewrite Hl. }
  assert (L2 : ln (Rabs x) < IZR k * ln 2).
  { rewrite <- ln_bpow. apply ln_increasing; assumption. }
  rewrite (Zfloor_eq (k - 1)); [lia |].
  rewrite minus_IZR in *. split.
  - apply (Rmult_le_reg_r (ln 2)); [exact H2 |].
    unfold Rdiv. rewrite Rmult_assoc, Rinv_l by lra. lra.
  - apply (Rmult_lt_reg_r (ln 2)); [exact H2 |].
    unfold Rdiv. rewrite Rmult_assoc, Rinv_l by lra. lra.
Qed.

Lemma mag_spec (x : R) :
  x <> 0 -> bpow (mag x - 1) <= Rabs x < bpow (mag x).
Proof.
  intros Hx. unfold mag.
  assert (Hp : 0 < Rabs x) by (apply Rabs_pos_lt; exact Hx).
  pose proof ln2_gt_0 as H2.
  set (L := ln (Rabs x) / ln 2).
  pose proof (Zfloor_bound L) as [B1 B2].
  replace (Zfloor L + 1 - 1)%Z with (Zfloor L) by lia.
  assert (EL : ln (Rabs x) = L * ln 2) by (unfold L; field; lra).
  split.
  - rewrite <- (exp_ln (Rabs x)) by exact Hp.
    rewrite <- (exp_ln (bpow (Zfloor L))) by apply bpow_pos.
    rewrite ln_bpow, EL.
    destruct B1 as [B1 | B1].
    + left. apply exp_increasing. nra.
    + right. rewrite B1. reflexivity.
  - rewrite <- (exp_ln (Rabs x)) by exact Hp.
    rewrite <- (exp_ln (bpow (Zfloor L + 1))) by apply bpow_pos.
    rewrite ln_bpow, EL, plus_IZR. apply exp_increasing. nra.
Qed.

Lemma mag_opp (x : R) : mag (- x) = mag x.
Proof. unfold mag. now rewrite Rabs_Ropp. Qed.

Lemma mag_le (x y : R) : 0 < x -> x <= y -> (mag x <= mag y)%Z.
Proof.
  intros Hx Hxy.
  pose proof (mag_spec x ltac:(lra)) as [Lx Ux].
  pose proof (mag_spec y ltac:(lra)) as [Ly Uy].
  rewrite Rabs_pos_eq in * by lra.
  assert (H : bpow (mag x - 1) < bpow (mag y)) by lra.
  apply bpow_lt_inv in H. lia.
Qed.

Lemma fexp_le (a b : Z) : (a <= b)%Z -> (fexp a <= fexp b)%Z.
Proof. unfold fexp. lia. Qed.

Lemma round_0 : round 0 = 0.
Proof.
  unfold round. unfold Rdiv. rewrite Rmult_0_l.
  rewrite (ZnearestE_IZR 0). lra.
Qed.

Lemma round_opp (x : R) : round (- x) = - round x.
Proof.
  unfold round. rewrite mag_opp.
  replace (- x / bpow (fexp (mag x))) with (- (x / bpow (fexp (mag x))))
    by (unfold Rdiv; lra).
  rewrite ZnearestE_opp, opp_IZR. lra.
Qed.

(** A multiple of the unit in the last place is its own rounding. *)
Lemma round_multiple (x : R) (m e : Z) :
  x = IZR m * bpow e -> (fexp (mag x) <= e)%Z -> round x = x.
Proof.
  intros Hx He. unfold round. set (c := fexp (mag x)) in *.
  assert (E : x / bpow c = IZR (m * 2 ^ (e - c))).
  { rewrite Hx, mult_IZR, <- bpow_nonneg by lia. rewrite bpow_sub.
    pose proof (bpow_pos c). field. lra. }
  rewrite E, ZnearestE_IZR, <- E. pose proof (bpow_pos c). field. lra.
Qed.

Lemma round_pos_le (x y : R) : 0 < x -> x <= y -> round x <= round y.
Proof.
  intros Hx Hxy. unfold round.
  pose proof (mag_le x y Hx Hxy) as Hm.
  pose proof (fexp_le _ _ Hm) as He.
  set (kx := mag x) in *. set (ky := mag y) in *.
  destruct (Z.eq_dec (fexp kx) (fexp ky)) as [E | N].
  - rewrite E. pose proof (bpow_pos (fexp ky)) as Hp.
    apply Rmult_le_compat_r; [lra |]. apply IZR_le, ZnearestE_le.
    apply Rmult_le_compat_r; [| exact Hxy].
    left. apply Rinv_0_lt_compat. exact Hp.
  - assert (Hky : fexp ky = (ky - 53)%Z) by (unfold fexp in *; lia).
    assert (Hlt : (fexp kx < ky - 53)%Z) by lia.
    pose proof (mag_spec x ltac:(lra)) as [_ Ux].
    pose proof (mag_spec y ltac:(lra)) as [Ly _].
    rewrite Rabs_pos_eq in * by lra. fold kx in Ux. fold ky in Ly.
    assert (Hk : (kx <= ky - 1)%Z) by (unfold fexp in *; lia).
    apply Rle_trans with (bpow (ky - 1)).
    + pose proof (bpow_pos (fexp kx)) as Hp.
      assert (B : bpow (ky - 1) =
                  IZR (2 ^ (ky - 1 - fexp kx)) * bpow (fexp kx)).
      { rewrite <- bpow_nonneg by lia. rewrite <- bpow_add. f_equal. lia. }
      rewrite B. apply Rmult_le_compat_r; [lra |].
      rewrite <- (ZnearestE_IZR (2 ^ (ky - 1 - fexp kx))).
      apply IZR_le, ZnearestE_le.
      apply (Rmult_le_reg_r (bpow (fexp kx))); [exact Hp |].
      rewrite <- B. unfold Rdiv. rewrite Rmult_assoc, Rinv_l by lra.
      pose proof (bpow_le kx (ky - 1) Hk). lra.
    + rewrite Hky. pose proof (bpow_pos (ky - 53)) as Hp.
      assert (B : bpow (ky - 1) = IZR (2 ^ 52) * bpow (ky - 53)).
      { rewrite <- bpow_nonneg by lia. rewrite <- bpow_add. f_equal. lia. }
      rewrite B. apply Rmult_le_compat_r; [lra |].
      rewrite <- (ZnearestE_IZR (2 ^ 52)) at 1.
      apply IZR_le, ZnearestE_le.
      apply (Rmult_le_reg_r (bpow (ky - 53))); [exact Hp |].
      rewrite <- B. unfold Rdiv. rewrite Rmult_assoc, Rinv_l by lra. lra.
Qed.

Lemma round_pos_nonneg (x : R) : 0 < x -> 0 <= round x.
Proof.
  intros Hx. unfold round. pose proof (bpow_pos (fexp (mag x))) as Hp.
  apply Rmult_le_pos; [| lra].
  apply IZR_le. rewrite <- (ZnearestE_IZR 0). apply ZnearestE_le.
  apply Rmult_le_pos; [lra |]. left. apply Rinv_0_lt_compat. exact Hp.
Qed.

(** Rounding is monotone. *)
Lemma round_le (x y : R) : x <= y -> round x <= round y.
Proof.
  intros Hxy.
  destruct (Rlt_le_dec 0 x) as [Hx | Hx].
  - apply round_pos_le; assumption.
  - destruct (Rlt_le_dec 0 y) as [Hy | Hy].
    + apply Rle_trans with 0; [| apply round_pos_nonneg; exact Hy].
      destruct Hx as [Hx | Hx]; [| rewrite Hx, round_0; lra].
      replace x with (- - x) by lra. rewrite round_opp.
      pose proof (round_pos_nonneg (- x) ltac:(lra)). lra.
    + destruct Hy as [Hy | Hy].
      * replace x with (- - x) by lra. replace y with (- - y) by lra.
        rewrite (round_opp (- x)), (round_opp (- y)).
        pose proof (round_pos_le (- y) (- x) ltac:(lra) ltac:(lra)). lra.
      * rewrite Hy, round_0.
        destruct Hx as [Hx | Hx]; [| rewrite Hx, round_0; lra].
        replace x with (- - x) by lra. rewrite round_opp.
        pose proof (round_pos_nonneg (- x) ltac:(lra)). lra.
Qed.

End Binary64Round.

Section Binary64Shift.
Import Binary64.
Local Open Scope R_scope.

Lemma loc_of_shr_record_of_loc (m : Z) (l : location) :
  loc_of_shr_record (shr_record_of_loc m l) = l.
Proof. destruct l as [| [| |]]; reflexivity. Qed.

Lemma shr_m_shr_record_of_loc (m : Z) (l : location) :
  shr_m (shr_record_of_loc m l) = m.
Proof. destruct l as [| [| |]]; reflexivity. Qed.

(** One shift to the right halves the scaled value and keeps track of
    where it lies. *)
Lemma shr_1_inbetween (t : R) (mrs : shr_record) :
  (0 <= shr_m mrs)%Z ->
  inbetween t (shr_m mrs) (loc_of_shr_record mrs) ->
  (0 <= shr_m (shr_1 mrs))%Z /\
  inbetween (t / 2) (shr_m (shr_1 mrs)) (loc_of_shr_record (shr_1 mrs)).
Proof.
  destruct mrs as [m r s]. cbn [shr_m]. intros Hm H.
  destruct m as [| p | p]; [| | lia].
  - destruct r, s; cbn in *; split; try lia; lra.
  - destruct p as [p | p |].
    + assert (E : IZR (Z.pos p~1) = 2 * IZR (Z.pos p) + 1).
      { rewrite Pos2Z.inj_xI, plus_IZR, mult_IZR. reflexivity. }
      destruct r, s; cbn [shr_1 shr_m loc_of_shr_record orb inbetween] in *;
        rewrite E in H; split; try lia; lra.
    + assert (E : IZR (Z.pos p~0) = 2 * IZR (Z.pos p)).
      { rewrite Pos2Z.inj_xO, mult_IZR. reflexivity. }
      destruct r, s; cbn [shr_1 shr_m loc_of_shr_record orb inbetween] in *;
        rewrite E in H; split; try lia; lra.
    + destruct r, s; cbn [shr_1 shr_m loc_of_shr_record orb inbetween] in *;
        split; try lia; lra.
Qed.

Lemma iter_shr_1_inbetween (p : positive) (t : R) (mrs : shr_record) :
  (0 <= shr_m mrs)%Z ->
  inbetween t (shr_m mrs) (loc_of_shr_record mrs) ->
  (0 <= shr_m (SpecFloat.iter_pos shr_1 p mrs))%Z /\
  inbetween (t / bpow (Z.pos p)) (shr_m (SpecFloat.iter_pos shr_1 p mrs))
    (loc_of_shr_record (SpecFloat.iter_pos shr_1 p mrs)).
Proof.
  revert t mrs. induction p as [p IH | p IH |]; intros t mrs Hm H;
    cbn [SpecFloat.iter_pos].
  - destruct (shr_1_inbetween t mrs Hm H) as [Hm1 H1].
    destruct (IH _ _ Hm1 H1) as [Hm2 H2].
    destruct (IH _ _ Hm2 H2) as [Hm3 H3].
    split; [exact Hm3 |].
    replace (t / bpow (Z.pos p~1)) with (t / 2 / bpow (Z.pos p) / bpow (Z.pos p));
      [exact H3 |].
    rewrite Pos2Z.inj_xI. replace (2 * Z.pos p + 1)%Z with (Z.pos p + Z.pos p + 1)%Z by lia.
    rewrite !bpow_add, bpow_1. pose proof (bpow_pos (Z.pos p)). field. lra.
  - destruct (IH _ _ Hm H) as [Hm2 H2].
    destruct (IH _ _ Hm2 H2) as [Hm3 H3].
    split; [exact Hm3 |].
    replace (t / bpow (Z.pos p~0)) with (t / bpow (Z.pos p) / bpow (Z.pos p));
      [exact H3 |].
    rewrite Pos2Z.inj_xO. replace (2 * Z.pos p)%Z with (Z.pos p + Z.pos p)%Z by lia.
    rewrite !bpow_add. pose proof (bpow_pos (Z.pos p)). field. lra.
  - rewrite bpow_1. apply shr_1_inbetween; assumption.
Qed.

Lemma shr_inbetween (t : R) (mrs : shr_record) (e n : Z) :
  (0 <= n)%Z -> (0 <= shr_m mrs)%Z ->
  inbetween t (shr_m mrs) (loc_of_shr_record mrs) ->
  snd (shr mrs e n) = (e + n)%Z /\
  (0 <= shr_m (fst (shr mrs e n)))%Z /\
  inbetween (t / bpow n) (shr_m (fst (shr mrs e n)))
    (loc_of_shr_record (fst (shr mrs e n))).
Proof.
  intros Hn Hm H. destruct n as [| p | p]; [| | lia]; cbn [shr fst snd].
  - split; [lia |]. split; [exact Hm |].
    rewrite bpow_0. unfold Rdiv. rewrite Rinv_1, Rmult_1_r. exact H.
  - split; [reflexivity |]. apply iter_shr_1_inbetween; assumption.
Qed.

Lemma digits2_pos_upper (p : positive) :
  (Zpos p < 2 ^ Zpos (digits2_pos p))%Z.
Proof.
  induction p as [p IH | p IH |]; cbn [digits2_pos].
  - rewrite Pos2Z.inj_succ, Z.pow_succ_r by lia. lia.
  - rewrite Pos2Z.inj_succ, Z.pow_succ_r by lia. lia.
  - simpl. lia.
Qed.

Lemma Zdigits2_bounds (m : Z) :
  (0 < m)%Z ->
  bpow (Zdigits2 m - 1) <= IZR m < bpow (Zdigits2 m).
Proof.
  intros Hm. destruct m as [| p | p]; try lia. cbn [Zdigits2].
  pose proof (digits2_pos_lower p) as L. pose proof (digits2_pos_upper p) as U.
  rewrite !bpow_nonneg by lia. split; [apply IZR_le | apply IZR_lt]; assumption.
Qed.

Lemma Zdigits2_le (m : Z) (d : Z) :
  (0 < m)%Z -> (m < 2 ^ d)%Z -> (0 <= d)%Z -> (Zdigits2 m <= d)%Z.
Proof.
  intros Hm Hlt Hd. destruct m as [| p | p]; try lia. cbn [Zdigits2].
  pose proof (digits2_pos_lower p) as L.
  destruct (Z.le_gt_cases (Zpos (digits2_pos p)) d) as [H | H]; [exact H |].
  assert (2 ^ d <= 2 ^ (Zpos (digits2_pos p) - 1))%Z
    by (apply Z.pow_le_mono_r; lia).
  lia.
Qed.

Lemma Zdigits2_ge (m : Z) (d : Z) :
  (2 ^ (d - 1) <= m)%Z -> (1 <= d)%Z -> (d <= Zdigits2 m)%Z.
Proof.
  intros Hle Hd.
  assert (Hm : (0 < m)%Z).
  { pose proof (Z.pow_pos_nonneg 2 (d - 1) ltac:(lia) ltac:(lia)). lia. }
  destruct m as [| p | p]; try lia. cbn [Zdigits2].
  pose proof (digits2_pos_upper p) as U.
  destruct (Z.le_gt_cases d (Zpos (digits2_pos p))) as [H | H]; [exact H |].
  assert (2 ^ Zpos (digits2_pos p) <= 2 ^ (d - 1))%Z
    by (apply Z.pow_le_mono_r; lia).
  lia.
Qed.

(** The magnitude of a positive real through its integer part at some
    scale. *)
Lemma mag_inbetween (x : R) (m e : Z) (l : location) :
  (0 < m)%Z -> inbetween (x / bpow e) m l -> mag x = (Zdigits2 m + e)%Z.
Proof.
  intros Hm H. pose proof (Zdigits2_bounds m Hm) as [L U].
  pose proof (bpow_pos e) as Hp.
  assert (B : IZR m <= x / bpow e < IZR m + 1).
  { destruct l as [| [| |]]; cbn [inbetween] in H; lra. }
  assert (U' : IZR m + 1 <= bpow (Zdigits2 m)).
  { destruct m as [| p | p]; try lia. cbn [Zdigits2] in *.
    rewrite bpow_nonneg in * by lia. rewrite <- plus_IZR. apply IZR_le.
    apply lt_IZR in U. lia. }
  assert (E : x = x / bpow e * bpow e) by (field; lra).
  assert (Hx : 0 < x).
  { rewrite E. apply Rmult_lt_0_compat; [| exact Hp].
    assert (0 < IZR m) by (apply IZR_lt; exact Hm). lra. }
  apply mag_unique. rewrite Rabs_pos_eq by lra.
  replace (Zdigits2 m + e - 1)%Z with (Zdigits2 m - 1 + e)%Z by lia.
  rewrite !bpow_add. rewrite E at 1 2. split.
  - apply Rmult_le_compat_r; lra.
  - apply Rmult_lt_compat_r; lra.
Qed.

End Binary64Shift.

Section Binary64RoundAux.
Import Binary64.
Local Open Scope R_scope.

Lemma fexp_spec (k : Z) : SpecFloat.fexp prec emax k = fexp k.
Proof. reflexivity. Qed.

(** The rounding step of every arithmetic operation: from the integer part
    [m] of the exact positive result [x] at scale [e], and its location,
    it builds the double [round x], or an infinity when that is out of
    range. *)
Lemma binary_round_aux_correct (s : bool) (m e : Z) (l : location) (x : R) :
  0 < x -> (0 <= m)%Z -> inbetween (x / bpow e) m l ->
  (e <= fexp (mag x))%Z ->
  fexp (Zdigits2 m + e) = fexp (mag x) ->
  let r := binary_round_aux prec emax s m e l in
  valid_binary r = true /\
  (round x < bpow 1024 ->
   SFfinite r = true /\ SF2R r = (if s then - round x else round x)) /\
  (bpow 1024 <= round x -> r = S754_infinity s).
Proof.
  intros Hx Hm Hin He Hd r.
  set (k := mag x) in *. set (c := fexp k) in *.
  pose proof (mag_spec x ltac:(lra)) as [Lk Uk]. fold k in Lk, Uk.
  rewrite Rabs_pos_eq in Lk, Uk by lra.
  pose proof (bpow_pos c) as Hc.
  (* the first shift *)
  assert (Hn : (0 <= c - e)%Z) by lia.
  pose proof (shr_inbetween (x / bpow e) (shr_record_of_loc m l) e (c - e) Hn)
    as S1.
  rewrite shr_m_shr_record_of_loc, loc_of_shr_record_of_loc in S1.
  specialize (S1 Hm Hin). destruct S1 as (E1 & M1 & I1).
  replace (x / bpow e / bpow (c - e)) with (x / bpow c) in I1
    by (rewrite bpow_sub; pose proof (bpow_pos e); field; lra).
  replace (e + (c - e))%Z with c in E1 by lia.
  subst r. unfold binary_round_aux, shr_fexp.
  change (SpecFloat.fexp prec emax) with fexp. rewrite Hd.
  destruct (shr (shr_record_of_loc m l) e (c - e)) as [mrs1 e1].
  cbn [fst snd] in E1, M1, I1. subst e1.
  rewrite (inbetween_nearest _ _ _ I1).
  set (N := ZnearestE (x / bpow c)).
  assert (HR : round x = IZR N * bpow c) by reflexivity.
  (* bounds on the rounded mantissa *)
  assert (N0 : (0 <= N)%Z).
  { unfold N. rewrite <- (ZnearestE_IZR 0). apply ZnearestE_le.
    apply Rmult_le_pos; [lra |]. left. apply Rinv_0_lt_compat. exact Hc. }
  assert (N53 : (N <= 2 ^ 53)%Z).
  { unfold N. rewrite <- (ZnearestE_IZR (2 ^ 53)). apply ZnearestE_le.
    apply (Rmult_le_reg_r (bpow c)); [exact Hc |].
    unfold Rdiv. rewrite Rmult_assoc, Rinv_l, Rmult_1_r by lra.
    rewrite <- (bpow_nonneg 53) by lia. rewrite <- bpow_add.
    pose proof (bpow_le k (53 + c) ltac:(unfold c, fexp; lia)). lra. }
  assert (N52 : c = (k - 53)%Z -> (2 ^ 52 <= N)%Z).
  { intros Ec. unfold N. rewrite <- (ZnearestE_IZR (2 ^ 52)).
    apply ZnearestE_le.
    apply (Rmult_le_reg_r (bpow c)); [exact Hc |].
    unfold Rdiv. rewrite Rmult_assoc, Rinv_l, Rmult_1_r by lra.
    rewrite <- (bpow_nonneg 52) by lia. rewrite <- bpow_add.
    replace (52 + c)%Z with (k - 1)%Z by lia. exact Lk. }
  assert (Hcmin : (-1074 <= c)%Z) by (unfold c, fexp; lia).
  (* the second shift *)
  cbn [shr_record_of_loc].
  destruct (Z.eq_dec N 0) as [Z0 | NZ].
  - rewrite Z0. cbn [Zdigits2].
    assert (Hs : (fexp (0 + c) - c <= 0)%Z) by (unfold fexp; lia).
    assert (Sh : shr {| shr_m := 0; shr_r := false; shr_s := false |} c
                   (fexp (0 + c) - c) =
                 ({| shr_m := 0; shr_r := false; shr_s := false |}, c)).
    { destruct (fexp (0 + c) - c)%Z as [| p | p]; try lia; reflexivity. }
    rewrite Sh. cbn [shr_m].
    rewrite HR, Z0. split; [reflexivity |]. split.
    + intros _. split; [reflexivity |]. cbn [SF2R]. destruct s; lra.
    + intros H. pose proof (bpow_pos 1024). lra.
  - assert (Npos : (0 < N)%Z) by lia.
    destruct (Z.eq_dec N (2 ^ 53)) as [Top | NTop].
    + rewrite Top.
      replace (Zdigits2 (2 ^ 53)) with 54%Z by reflexivity.
      replace (fexp (54 + c) - c)%Z with 1%Z by (unfold fexp; lia).
      cbn [shr SpecFloat.iter_pos].
      replace (shr_1 {| shr_m := 2 ^ 53; shr_r := false; shr_s := false |})
        with {| shr_m := 2 ^ 52; shr_r := false; shr_s := false |}
        by reflexivity.
      cbn [shr_m]. change (2 ^ 52)%Z with (Z.pos 4503599627370496).
      cbv iota.
      assert (V : round x = bpow (c + 53)).
      { rewrite HR, Top, <- (bpow_nonneg 53) by lia. rewrite <- bpow_add.
        f_equal. lia. }
      destruct (Z.leb_spec (c + 1) (emax - prec)) as [L | L];
        unfold emax, prec in L.
      * split.
        { cbn [SpecFloat.valid_binary]. unfold bounded, canonical_mantissa.
          change (SpecFloat.fexp prec emax) with fexp.
          change (Z.pos (digits2_pos 4503599627370496)) with 53%Z.
          apply andb_true_intro. split; [apply Z.eqb_eq | apply Z.leb_le];
            unfold fexp, emax, prec; lia. }
        split; [| intros H; rewrite V in H;
                  pose proof (bpow_lt (c + 53) 1024 ltac:(lia)); lra].
        intros _. split; [reflexivity |]. cbn [SF2R].
        assert (V' : IZR 4503599627370496 * bpow (c + 1) = round x).
        { rewrite V. change 4503599627370496%Z with (2 ^ 52)%Z.
          rewrite <- (bpow_nonneg 52) by lia. rewrite <- bpow_add.
          f_equal. lia. }
        destruct s; cbn [cond_Zopp]; [| exact V'].
        change (- Z.pos 4503599627370496)%Z with (- (4503599627370496))%Z.
        rewrite opp_IZR. lra.
      * split; [reflexivity |]. split; [| reflexivity].
        intros H. rewrite V in H.
        pose proof (bpow_le 1024 (c + 53) ltac:(lia)). lra.
    + assert (Nlt : (N < 2 ^ 53)%Z) by lia.
      pose proof (Zdigits2_le N 53 Npos Nlt ltac:(lia)) as D53.
      assert (D1 : (1 <= Zdigits2 N)%Z).
      { destruct N as [| p | p]; try lia. cbn [Zdigits2]. lia. }
      assert (Sh : shr {| shr_m := N; shr_r := false; shr_s := false |} c
                     (fexp (Zdigits2 N + c) - c) =
                   ({| shr_m := N; shr_r := false; shr_s := false |}, c)).
      { assert (Hs : (fexp (Zdigits2 N + c) - c <= 0)%Z) by (unfold fexp; lia).
        destruct (fexp (Zdigits2 N + c) - c)%Z as [| p | p]; try lia;
          reflexivity. }
      rewrite Sh. cbn [shr_m].
      destruct N as [| p | p] eqn:EN; try lia.
      destruct (Z.leb_spec c (emax - prec)) as [L | L];
        unfold emax, prec in L.
      * split.
        { cbn [SpecFloat.valid_binary]. unfold bounded, canonical_mantissa.
          change (SpecFloat.fexp prec emax) with fexp.
          cbn [Zdigits2] in D53, D1.
          apply andb_true_intro. split; [apply Z.eqb_eq | apply Z.leb_le];
            [| unfold emax, prec; lia].
          destruct (Z.eq_dec c (k - 53)) as [Ec | Ec].
          - specialize (N52 Ec).
            pose proof (Zdigits2_ge (Zpos p) 53 N52 ltac:(lia)) as G.
            cbn [Zdigits2] in G. unfold fexp. lia.
          - unfold c, fexp in *. lia. }
        split.
        -- intros _. split; [reflexivity |]. cbn [SF2R]. rewrite HR.
           destruct s; cbn [cond_Zopp]; [| reflexivity].
           change (- Z.pos p)%Z with (- (Z.pos p))%Z. rewrite opp_IZR. lra.
        -- intros H. exfalso. rewrite HR in H.
           assert (IZR (Z.pos p) * bpow c < bpow 53 * bpow c).
           { apply Rmult_lt_compat_r; [exact Hc |].
             rewrite bpow_nonneg by lia. apply IZR_lt. exact Nlt. }
           rewrite <- bpow_add in H0.
           pose proof (bpow_le (53 + c) 1024 ltac:(lia)). lra.
      * split; [reflexivity |]. split; [| reflexivity].
        intros H. exfalso.
        assert (Ec : c = (k - 53)%Z) by (unfold c, fexp in *; lia).
        specialize (N52 Ec). rewrite HR in H.
        assert (bpow 52 * bpow c <= IZR (Z.pos p) * bpow c).
        { apply Rmult_le_compat_r; [lra |].
          rewrite bpow_nonneg by lia. apply IZR_le. exact N52. }
        rewrite <- bpow_add in H0.
        pose proof (bpow_le 1024 (52 + c) ltac:(lia)). lra.
Qed.

End Binary64RoundAux.

Section Binary64Ops.
Import Binary64.
Local Open Scope R_scope.

Lemma valid_canonical (s : bool) (m : positive) (e : Z) :
  valid_binary (S754_finite s m e) = true ->
  e = fexp (Zpos (digits2_pos m) + e) /\ (e <= 971)%Z.
Proof.
  cbn [SpecFloat.valid_binary]. unfold bounded, canonical_mantissa.
  change (SpecFloat.fexp prec emax) with fexp. unfold emax, prec.
  intros H. apply andb_prop in H as [H1 H2].
  apply Z.eqb_eq in H1. apply Z.leb_le in H2. split; [now symmetry | lia].
Qed.

Lemma cond_Zopp_IZR (s : bool) (m : Z) :
  IZR (cond_Zopp s m) = (if s then - IZR m else IZR m).
Proof. destruct s; cbn [cond_Zopp]; [apply opp_IZR | reflexivity]. Qed.

Lemma mag_mantissa (m : positive) (e : Z) :
  mag (IZR (Zpos m) * bpow e) = (Zpos (digits2_pos m) + e)%Z.
Proof.
  apply (mag_inbetween _ (Zpos m) e loc_Exact); [lia |].
  cbn [inbetween]. pose proof (bpow_pos e). field. lra.
Qed.

(** Rounding an exact positive value given by an integer and a scale. *)
Lemma round_aux_exact (s : bool) (m : positive) (e : Z) :
  (e <= fexp (Zpos (digits2_pos m) + e))%Z ->
  let x := IZR (Zpos m) * bpow e in
  let r := binary_round_aux prec emax s (Zpos m) e loc_Exact in
  valid_binary r = true /\
  (round x < bpow 1024 ->
   SFfinite r = true /\ SF2R r = (if s then - round x else round x)) /\
  (bpow 1024 <= round x -> r = S754_infinity s).
Proof.
  intros He x r. pose proof (bpow_pos e) as Hp.
  assert (Hx : 0 < x).
  { apply Rmult_lt_0_compat; [apply IZR_lt; lia | exact Hp]. }
  apply binary_round_aux_correct.
  - exact Hx.
  - lia.
  - cbn [inbetween]. unfold x. field. lra.
  - unfold x. rewrite mag_mantissa. exact He.
  - unfold x. rewrite mag_mantissa. reflexivity.
Qed.

(** A double is its own rounding. *)
Lemma SF2R_round (x : spec_float) :
  valid_binary x = true -> round (SF2R x) = SF2R x.
Proof.
  destruct x as [s | s | | s m e]; cbn [SF2R]; try (intros _; apply round_0).
  intros H. apply valid_canonical in H as [Hc _].
  assert (P : round (IZR (Zpos m) * bpow e) = IZR (Zpos m) * bpow e).
  { apply (round_multiple _ (Zpos m) e); [reflexivity |].
    rewrite mag_mantissa. lia. }
  rewrite cond_Zopp_IZR. destruct s; [| exact P].
  replace (- IZR (Z.pos m) * bpow e) with (- (IZR (Z.pos m) * bpow e)) by lra.
  rewrite round_opp, P. reflexivity.
Qed.

Lemma digits2_pos_mul (a b : positive) :
  (Zpos (digits2_pos a) + Zpos (digits2_pos b) - 1 <=
   Zpos (digits2_pos (a * b)))%Z.
Proof.
  pose proof (digits2_pos_lower a) as La. pose proof (digits2_pos_lower b) as Lb.
  change (Zpos (digits2_pos (a * b))) with (Zdigits2 (Zpos (a * b))).
  apply Zdigits2_ge; [| lia].
  replace (Zpos (digits2_pos a) + Zpos (digits2_pos b) - 1 - 1)%Z
    with ((Zpos (digits2_pos a) - 1) + (Zpos (digits2_pos b) - 1))%Z by lia.
  rewrite Z.pow_add_r by lia. rewrite Pos2Z.inj_mul.
  apply Z.mul_le_mono_nonneg; try lia;
    apply Z.pow_nonneg; lia.
Qed.

(** Multiplication computes the rounded product, or overflows. *)
Lemma SFmul_correct (x y : spec_float) :
  valid_binary x = true -> valid_binary y = true ->
  SFfinite x = true -> SFfinite y = true ->
  let v := round (SF2R x * SF2R y) in
  (Rabs v < bpow 1024 ->
   SFfinite (SFmul prec emax x y) = true /\ SF2R (SFmul prec emax x y) = v) /\
  (bpow 1024 <= Rabs v -> SFfinite (SFmul prec emax x y) = false).
Proof.
  intros Vx Vy Fx Fy. pose proof (bpow_pos 1024) as B.
  destruct x as [sx | sx | | sx mx ex]; try discriminate Fx;
    destruct y as [sy | sy | | sy my ey]; try discriminate Fy;
    cbn [SFmul SF2R SFfinite]; cbv zeta;
    rewrite ?Rmult_0_l, ?Rmult_0_r, ?round_0, ?Rabs_R0;
    try (split; [intros _; split; reflexivity | intros H; lra]).
  apply valid_canonical in Vx as [Cx _]. apply valid_canonical in Vy as [Cy _].
  pose proof (digits2_pos_mul mx my) as Dm.
  assert (He : (ex + ey <= fexp (Zpos (digits2_pos (mx * my)) + (ex + ey)))%Z).
  { unfold fexp in *. lia. }
  pose proof (round_aux_exact (xorb sx sy) (mx * my) (ex + ey) He) as (_ & Hf & Hi).
  cbv zeta in Hf, Hi.
  set (P := IZR (Zpos (mx * my)) * bpow (ex + ey)) in *.
  assert (HP0 : 0 <= round P).
  { apply round_pos_nonneg. unfold P.
    apply Rmult_lt_0_compat; [apply IZR_lt; lia | apply bpow_pos]. }
  assert (EP : IZR (cond_Zopp sx (Zpos mx)) * bpow ex *
               (IZR (cond_Zopp sy (Zpos my)) * bpow ey) =
               (if xorb sx sy then - P else P)).
  { unfold P. rewrite Pos2Z.inj_mul, mult_IZR, bpow_add, !cond_Zopp_IZR.
    destruct sx, sy; cbn [xorb]; ring. }
  rewrite EP.
  assert (EA : Rabs (round (if xorb sx sy then - P else P)) = round P).
  { destruct (xorb sx sy); [rewrite round_opp, Rabs_Ropp |];
      apply Rabs_pos_eq; exact HP0. }
  rewrite EA. split.
  - intros Hb. destruct (Hf Hb) as [F V]. split; [exact F |].
    rewrite V. destruct (xorb sx sy); [now rewrite round_opp | reflexivity].
  - intros Hb. rewrite (Hi Hb). reflexivity.
Qed.

Lemma iter_xO_value (m d : positive) :
  Zpos (Pos.iter xO m d) = (Zpos m * 2 ^ Zpos d)%Z.
Proof.
  induction d as [| d IH] using Pos.peano_ind.
  - cbn [Pos.iter]. lia.
  - rewrite Pos.iter_succ, Pos2Z.inj_xO, IH, Pos2Z.inj_succ, Z.pow_succ_r by lia.
    lia.
Qed.

Lemma shl_align_value (m : positive) (e e' : Z) :
  let r := shl_align m e e' in
  IZR (Zpos (fst r)) * bpow (snd r) = IZR (Zpos m) * bpow e /\
  snd r = Z.min e e' /\
  (Zpos (digits2_pos (fst r)) + snd r = Zpos (digits2_pos m) + e)%Z.
Proof.
  unfold shl_align. destruct (e' - e)%Z as [| d | d] eqn:E; cbn [fst snd].
  - repeat split; lia.
  - repeat split; lia.
  - assert (Ee : e = (e' + Zpos d)%Z) by lia.
    split; [| split; [lia |]].
    + rewrite iter_xO_value, mult_IZR, Ee, bpow_add.
      rewrite (bpow_nonneg (Zpos d)) by lia. ring.
    + rewrite digits2_pos_iter_xO. lia.
Qed.

End Binary64Ops.

Section Binary64Ops2.
Import Binary64.
Local Open Scope R_scope.

Lemma binary_round_correct (s : bool) (m : positive) (e : Z) :
  let x := IZR (Zpos m) * bpow e in
  let r := binary_round prec emax s m e in
  valid_binary r = true /\
  (round x < bpow 1024 ->
   SFfinite r = true /\ SF2R r = (if s then - round x else round x)) /\
  (bpow 1024 <= round x -> r = S754_infinity s).
Proof.
  intros x r. subst r. unfold binary_round.
  change (SpecFloat.fexp prec emax) with fexp.
  pose proof (shl_align_value m e (fexp (Zpos (digits2_pos m) + e)))
    as (V & E & D).
  destruct (shl_align m e (fexp (Zpos (digits2_pos m) + e))) as [mz ez].
  cbn [fst snd] in V, E, D.
  assert (He : (ez <= fexp (Zpos (digits2_pos mz) + ez))%Z)
    by (rewrite D; lia).
  pose proof (round_aux_exact s mz ez He) as H. cbv zeta in H.
  rewrite V in H. exact H.
Qed.

Lemma binary_normalize_correct (z e : Z) (sz : bool) :
  let v := round (IZR z * bpow e) in
  let r := binary_normalize prec emax z e sz in
  valid_binary r = true /\
  (Rabs v < bpow 1024 -> SFfinite r = true /\ SF2R r = v) /\
  (bpow 1024 <= Rabs v -> SFfinite r = false).
Proof.
  intros v r. subst v r. pose proof (bpow_pos 1024) as B.
  destruct z as [| m | m]; cbn [binary_normalize].
  - rewrite Rmult_0_l, round_0, Rabs_R0. split; [reflexivity |].
    split; [intros _; split; reflexivity | intros H; lra].
  - pose proof (binary_round_correct false m e) as (H0 & H1 & H2).
    cbv zeta in H1, H2. split; [exact H0 |].
    assert (P0 : 0 <= round (IZR (Zpos m) * bpow e)).
    { apply round_pos_nonneg.
      apply Rmult_lt_0_compat; [apply IZR_lt; lia | apply bpow_pos]. }
    rewrite Rabs_pos_eq by exact P0. split; [exact H1 |].
    intros H. rewrite (H2 H). reflexivity.
  - pose proof (binary_round_correct true m e) as (H0 & H1 & H2).
    cbv zeta in H1, H2. split; [exact H0 |].
    assert (P0 : 0 <= round (IZR (Zpos m) * bpow e)).
    { apply round_pos_nonneg.
      apply Rmult_lt_0_compat; [apply IZR_lt; lia | apply bpow_pos]. }
    change (Z.neg m) with (- Z.pos m)%Z. rewrite opp_IZR.
    replace (- IZR (Z.pos m) * bpow e) with (- (IZR (Z.pos m) * bpow e)) by lra.
    rewrite round_opp, Rabs_Ropp, Rabs_pos_eq by exact P0.
    split; [exact H1 |]. intros H. rewrite (H2 H). reflexivity.
Qed.

Lemma shl_align_min_value (m : positive) (e e' : Z) :
  IZR (Zpos (fst (shl_align m e (Z.min e e')))) * bpow (Z.min e e') =
  IZR (Zpos m) * bpow e.
Proof.
  pose proof (shl_align_value m e (Z.min e e')) as (V & E & _).
  cbv zeta in V, E. rewrite E in V.
  replace (Z.min e (Z.min e e')) with (Z.min e e') in V by lia. exact V.
Qed.

Lemma aligned_values (sx sy : bool) (mx my : positive) (ex ey : Z) :
  let ez := Z.min ex ey in
  IZR (cond_Zopp sx (Zpos (fst (shl_align mx ex ez)))) * bpow ez =
    SF2R (S754_finite sx mx ex) /\
  IZR (cond_Zopp sy (Zpos (fst (shl_align my ey ez)))) * bpow ez =
    SF2R (S754_finite sy my ey).
Proof.
  intros ez. cbn [SF2R]. rewrite !cond_Zopp_IZR. split.
  - pose proof (shl_align_min_value mx ex ey) as V. fold ez in V.
    destruct sx; lra.
  - pose proof (shl_align_min_value my ey ex) as V.
    rewrite (Z.min_comm ey ex) in V. fold ez in V.
    destruct sy; lra.
Qed.

(** A double is below [2^1024] in magnitude. *)
Lemma SF2R_bound (x : spec_float) :
  valid_binary x = true -> Rabs (SF2R x) < bpow 1024.
Proof.
  pose proof (bpow_pos 1024) as B.
  destruct x as [s | s | | s m e]; cbn [SF2R]; rewrite ?Rabs_R0; try (intros _; lra).
  intros V. apply valid_canonical in V as [C E].
  pose proof (Zdigits2_bounds (Zpos m) ltac:(lia)) as [_ U]. cbn [Zdigits2] in U.
  pose proof (bpow_pos e) as Pe.
  assert (M : 0 < IZR (Zpos m)) by (apply IZR_lt; lia).
  assert (A : Rabs (IZR (cond_Zopp s (Zpos m)) * bpow e) = IZR (Zpos m) * bpow e).
  { rewrite cond_Zopp_IZR. destruct s.
    - rewrite Ropp_mult_distr_l_reverse, Rabs_Ropp. apply Rabs_pos_eq. nra.
    - apply Rabs_pos_eq. nra. }
  rewrite A. apply Rlt_le_trans with (bpow (Zpos (digits2_pos m)) * bpow e).
  - apply Rmult_lt_compat_r; assumption.
  - rewrite <- bpow_add. apply bpow_le. unfold fexp in C. lia.
Qed.

(** Subtraction computes the rounded difference, or overflows. *)
Lemma SFsub_correct (x y : spec_float) :
  valid_binary x = true -> valid_binary y = true ->
  SFfinite x = true -> SFfinite y = true ->
  let v := round (SF2R x - SF2R y) in
  (Rabs v < bpow 1024 ->
   SFfinite (SFsub prec emax x y) = true /\ SF2R (SFsub prec emax x y) = v) /\
  (bpow 1024 <= Rabs v -> SFfinite (SFsub prec emax x y) = false).
Proof.
  intros Vx Vy Fx Fy. cbv zeta. pose proof (bpow_pos 1024) as B.
  destruct x as [sx | sx | | sx mx ex]; try discriminate Fx;
    destruct y as [sy | sy | | sy my ey]; try discriminate Fy.
  - cbn [SFsub SF2R]. rewrite Rminus_0_r, round_0, Rabs_R0.
    split; [intros _; destruct sx, sy; split; reflexivity | intros H; lra].
  - cbn [SFsub SFfinite].
    pose proof (SF2R_round (S754_finite (negb sy) my ey) Vy) as R.
    replace (SF2R (S754_zero sx) - SF2R (S754_finite sy my ey))
      with (SF2R (S754_finite (negb sy) my ey))
      by (cbn [SF2R]; rewrite !cond_Zopp_IZR; destruct sy; cbn [negb]; lra).
    rewrite R. split; [intros _; split; reflexivity |].
    intros H. pose proof (SF2R_bound _ Vy). cbn [SF2R] in *.
    rewrite !cond_Zopp_IZR in *. destruct sy; cbn [negb] in *;
      rewrite ?Ropp_mult_distr_l_reverse, ?Rabs_Ropp in *; lra.
  - cbn [SFsub SFfinite].
    replace (SF2R (S754_finite sx mx ex) - SF2R (S754_zero sy))
      with (SF2R (S754_finite sx mx ex)) by (cbn [SF2R]; lra).
    rewrite SF2R_round by exact Vx. split; [intros _; split; reflexivity |].
    intros H. pose proof (SF2R_bound _ Vx). lra.
  - cbn [SFsub].
    pose proof (aligned_values sx sy mx my ex ey) as [Ax Ay]. cbv zeta in Ax, Ay.
    set (ez := Z.min ex ey) in *.
    set (zx := cond_Zopp sx (Zpos (fst (shl_align mx ex ez)))) in *.
    set (zy := cond_Zopp sy (Zpos (fst (shl_align my ey ez)))) in *.
    assert (E : IZR (zx - zy) * bpow ez =
                SF2R (S754_finite sx mx ex) - SF2R (S754_finite sy my ey)).
    { rewrite minus_IZR, <- Ax, <- Ay. ring. }
    pose proof (binary_normalize_correct (zx - zy) ez false) as [_ H].
    cbv zeta in H. rewrite E in H. exact H.
Qed.

(** Addition computes the rounded sum, or overflows. *)
Lemma SFadd_correct (x y : spec_float) :
  valid_binary x = true -> valid_binary y = true ->
  SFfinite x = true -> SFfinite y = true ->
  let v := round (SF2R x + SF2R y) in
  (Rabs v < bpow 1024 ->
   SFfinite (SFadd prec emax x y) = true /\ SF2R (SFadd prec emax x y) = v) /\
  (bpow 1024 <= Rabs v -> SFfinite (SFadd prec emax x y) = false).
Proof.
  intros Vx Vy Fx Fy. cbv zeta. pose proof (bpow_pos 1024) as B.
  destruct x as [sx | sx | | sx mx ex]; try discriminate Fx;
    destruct y as [sy | sy | | sy my ey]; try discriminate Fy.
  - cbn [SFadd SF2R]. rewrite Rplus_0_r, round_0, Rabs_R0.
    split; [intros _; destruct sx, sy; split; reflexivity | intros H; lra].
  - cbn [SFadd SFfinite].
    replace (SF2R (S754_zero sx) + SF2R (S754_finite sy my ey))
      with (SF2R (S754_finite sy my ey)) by (cbn [SF2R]; lra).
    rewrite SF2R_round by exact Vy. split; [intros _; split; reflexivity |].
    intros H. pose proof (SF2R_bound _ Vy). lra.
  - cbn [SFadd SFfinite].
    replace (SF2R (S754_finite sx mx ex) + SF2R (S754_zero sy))
      with (SF2R (S754_finite sx mx ex)) by (cbn [SF2R]; lra).
    rewrite SF2R_round by exact Vx. split; [intros _; split; reflexivity |].
    intros H. pose proof (SF2R_bound _ Vx). lra.
  - cbn [SFadd].
    pose proof (aligned_values sx sy mx my ex ey) as [Ax Ay]. cbv zeta in Ax, Ay.
    set (ez := Z.min ex ey) in *.
    set (zx := cond_Zopp sx (Zpos (fst (shl_align mx ex ez)))) in *.
    set (zy := cond_Zopp sy (Zpos (fst (shl_align my ey ez)))) in *.
    assert (E : IZR (zx + zy) * bpow ez =
                SF2R (S754_finite sx mx ex) + SF2R (S754_finite sy my ey)).
    { rewrite plus_IZR, <- Ax, <- Ay. ring. }
    pose proof (binary_normalize_correct (zx + zy) ez false) as [_ H].
    cbv zeta in H. rewrite E in H. exact H.
Qed.

End Binary64Ops2.

Section Binary64Div.
Import Binary64.
Local Open Scope R_scope.

(** Where a quotient lies between two integers, from its remainder. *)
Lemma new_location_inbetween (d q r : Z) :
  (0 < d)%Z -> (0 <= r < d)%Z ->
  inbetween (IZR q + IZR r / IZR d) q (new_location d r).
Proof.
  intros Hd Hr. assert (Dp : 0 < IZR d) by (apply IZR_lt; exact Hd).
  assert (Half : forall c : comparison,
            (2 * r ?= d)%Z = c -> (r <> 0)%Z ->
            inbetween (IZR q + IZR r / IZR d) q (loc_Inexact c)).
  { intros c Hc Hr0.
    assert (R0 : 0 < IZR r) by (apply IZR_lt; lia).
    assert (Q0 : 0 < IZR r / IZR d) by (apply Rdiv_lt_0_compat; assumption).
    assert (Q1 : IZR r / IZR d < 1).
    { apply (Rmult_lt_reg_r (IZR d)); [exact Dp |].
      unfold Rdiv. rewrite Rmult_assoc, Rinv_l, Rmult_1_r, Rmult_1_l by lra.
      apply IZR_lt. lia. }
    destruct c; cbn [inbetween].
    - apply Z.compare_eq in Hc.
      assert (E : IZR d = 2 * IZR r) by (rewrite <- mult_IZR; f_equal; lia).
      rewrite E. field. lra.
    - rewrite Z.compare_lt_iff in Hc.
      assert (L : 2 * IZR r < IZR d) by (rewrite <- mult_IZR; apply IZR_lt; lia).
      split; [lra |].
      assert (IZR r / IZR d < / 2); [| lra].
      apply (Rmult_lt_reg_r (IZR d)); [exact Dp |].
      unfold Rdiv. rewrite Rmult_assoc, Rinv_l, Rmult_1_r by lra. lra.
    - rewrite Z.compare_gt_iff in Hc.
      assert (L : IZR d < 2 * IZR r) by (rewrite <- mult_IZR; apply IZR_lt; lia).
      split; [| lra].
      assert (/ 2 < IZR r / IZR d); [| lra].
      apply (Rmult_lt_reg_r (IZR d)); [exact Dp |].
      unfold Rdiv. rewrite Rmult_assoc, Rinv_l, Rmult_1_r by lra. lra. }
  unfold new_location, new_location_even, new_location_odd.
  change (IntDef.Z.even d) with (Z.even d).
  destruct (Z.even d) eqn:Ev; destruct (Z.eqb_spec r 0) as [R0 | R0].
  - rewrite R0. cbn [inbetween]. unfold Rdiv. lra.
  - apply Half; [reflexivity | exact R0].
  - rewrite R0. cbn [inbetween]. unfold Rdiv. lra.
  - assert (Hodd : (2 * r <> d)%Z).
    { intros E. rewrite <- E, Z.even_mul in Ev. discriminate Ev. }
    destruct (2 * r + 1 ?= d)%Z eqn:C.
    + apply Z.compare_eq in C. apply Half; [| exact R0].
      rewrite Z.compare_lt_iff. lia.
    + rewrite Z.compare_lt_iff in C. apply Half; [| exact R0].
      rewrite Z.compare_lt_iff. lia.
    + rewrite Z.compare_gt_iff in C. apply Half; [| exact R0].
      rewrite Z.compare_gt_iff. lia.
Qed.

Lemma SFdiv_core_correct (mx my : positive) (ex ey : Z) :
  let x := IZR (Zpos mx) * bpow ex / (IZR (Zpos my) * bpow ey) in
  let '(q, e, l) := SFdiv_core_binary prec emax (Zpos mx) ex (Zpos my) ey in
  (0 <= q)%Z /\ inbetween (x / bpow e) q l /\
  (e <= fexp (mag x))%Z /\ fexp (Zdigits2 q + e) = fexp (mag x).
Proof.
  intros x. unfold SFdiv_core_binary.
  change (SpecFloat.fexp prec emax) with fexp. cbn [Zdigits2].
  set (d1 := Zpos (digits2_pos mx)). set (d2 := Zpos (digits2_pos my)).
  set (e := Z.min (fexp (d1 + ex - (d2 + ey))) (ex - ey)).
  set (s := (ex - ey - e)%Z).
  assert (Hs : (0 <= s)%Z) by (unfold s, e; lia).
  set (m' := match s with
             | 0%Z => Z.pos mx
             | Z.pos _ => Z.shiftl (Z.pos mx) s
             | Z.neg _ => 0%Z
             end).
  assert (Em : m' = (Zpos mx * 2 ^ s)%Z).
  { unfold m'. destruct s as [| p | p]; try lia.
    rewrite Z.shiftl_mul_pow2 by lia. reflexivity. }
  pose proof (Z_div_mod m' (Zpos my) ltac:(lia)) as DM.
  destruct (Z.div_eucl m' (Z.pos my)) as [q r]. destruct DM as [Eq Hr].
  pose proof (bpow_pos ex) as Pex. pose proof (bpow_pos ey) as Pey.
  pose proof (bpow_pos e) as Pe.
  assert (My : 0 < IZR (Zpos my)) by (apply IZR_lt; lia).
  assert (Mx : 0 < IZR (Zpos mx)) by (apply IZR_lt; lia).
  assert (Hx : 0 < x).
  { unfold x. apply Rdiv_lt_0_compat; apply Rmult_lt_0_compat; assumption. }
  assert (Hq : (0 <= q)%Z).
  { assert (0 <= m')%Z by (rewrite Em; apply Z.mul_nonneg_nonneg;
                            [lia | apply Z.pow_nonneg; lia]).
    destruct (Z.lt_ge_cases q 0) as [L | L]; [| exact L]. nia. }
  assert (Et : x / bpow e = IZR q + IZR r / IZR (Zpos my)).
  { assert (E1 : IZR m' = IZR (Zpos my) * IZR q + IZR r).
    { rewrite Eq, plus_IZR, mult_IZR. reflexivity. }
    assert (E2 : IZR m' = IZR (Zpos mx) * bpow s).
    { rewrite Em, mult_IZR, bpow_nonneg by exact Hs. reflexivity. }
    assert (E3 : bpow ex = bpow s * bpow ey * bpow e).
    { rewrite <- !bpow_add. f_equal. unfold s. lia. }
    unfold x. rewrite E3.
    replace (IZR (Z.pos mx) * (bpow s * bpow ey * bpow e) /
             (IZR (Z.pos my) * bpow ey) / bpow e)
      with (IZR (Zpos mx) * bpow s / IZR (Zpos my)) by (field; lra).
    rewrite <- E2, E1. field. lra. }
  assert (Hin : inbetween (x / bpow e) q (new_location (Zpos my) r)).
  { rewrite Et. apply new_location_inbetween; lia. }
  split; [exact Hq |]. split; [exact Hin |].
  (* the magnitude of the quotient *)
  pose proof (Zdigits2_bounds (Zpos mx) ltac:(lia)) as [L1 U1].
  pose proof (Zdigits2_bounds (Zpos my) ltac:(lia)) as [L2 U2].
  cbn [Zdigits2] in L1, U1, L2, U2. fold d1 in L1, U1. fold d2 in L2, U2.
  assert (Lx : bpow (d1 + ex - (d2 + ey) - 1) < x).
  { unfold x.
    apply (Rmult_lt_reg_r (IZR (Zpos my) * bpow ey));
      [apply Rmult_lt_0_compat; assumption |].
    unfold Rdiv. rewrite Rmult_assoc, Rinv_l, Rmult_1_r
      by (apply Rgt_not_eq, Rmult_lt_0_compat; assumption).
    apply Rlt_le_trans with (bpow (d1 + ex - (d2 + ey) - 1) * (bpow d2 * bpow ey)).
    - apply Rmult_lt_compat_l; [apply bpow_pos |].
      apply Rmult_lt_compat_r; assumption.
    - rewrite <- !bpow_add.
      replace (d1 + ex - (d2 + ey) - 1 + (d2 + ey))%Z with (d1 - 1 + ex)%Z by lia.
      rewrite bpow_add. apply Rmult_le_compat_r; lra. }
  assert (Hmag : (d1 + ex - (d2 + ey) <= mag x)%Z).
  { pose proof (mag_spec x ltac:(lra)) as [_ U]. rewrite Rabs_pos_eq in U by lra.
    assert (H : bpow (d1 + ex - (d2 + ey) - 1) < bpow (mag x)) by lra.
    apply bpow_lt_inv in H. lia. }
  assert (He : (e <= fexp (mag x))%Z).
  { pose proof (fexp_le _ _ Hmag). unfold e. lia. }
  split; [exact He |].
  destruct (Z.eq_dec q 0) as [Q0 | Q0].
  - rewrite Q0. cbn [Zdigits2].
    assert (B : x / bpow e < 1).
    { pose proof (inbetween_floor _ _ _ Hin) as F.
      pose proof (Zfloor_bound (x / bpow e)) as [_ U]. rewrite F, Q0 in U. lra. }
    assert (Xe : x < bpow e).
    { apply (Rmult_lt_reg_r (/ bpow e)); [apply Rinv_0_lt_compat; exact Pe |].
      rewrite Rinv_r by lra. exact B. }
    pose proof (mag_spec x ltac:(lra)) as [L _]. rewrite Rabs_pos_eq in L by lra.
    assert (H : bpow (mag x - 1) < bpow e) by lra.
    apply bpow_lt_inv in H. unfold fexp in *. lia.
  - rewrite (mag_inbetween x q e (new_location (Zpos my) r)); [reflexivity | lia |].
    exact Hin.
Qed.

(** Division by a non-zero number computes the rounded quotient, or
    overflows. *)
Lemma SFdiv_correct (x y : spec_float) :
  valid_binary x = true -> valid_binary y = true ->
  SFfinite x = true -> SFfinite y = true -> SF2R y <> 0 ->
  let v := round (SF2R x / SF2R y) in
  (Rabs v < bpow 1024 ->
   SFfinite (SFdiv prec emax x y) = true /\ SF2R (SFdiv prec emax x y) = v) /\
  (bpow 1024 <= Rabs v -> SFfinite (SFdiv prec emax x y) = false).
Proof.
  intros Vx Vy Fx Fy Hy. cbv zeta. pose proof (bpow_pos 1024) as B.
  destruct y as [sy | sy | | sy my ey]; try discriminate Fy;
    [cbn [SF2R] in Hy; lra |].
  destruct x as [sx | sx | | sx mx ex]; try discriminate Fx.
  - cbn [SFdiv SF2R]. unfold Rdiv. rewrite Rmult_0_l, round_0, Rabs_R0.
    split; [intros _; split; reflexivity | intros H; lra].
  - cbn [SFdiv].
    pose proof (SFdiv_core_correct mx my ex ey) as C. cbv zeta in C.
    destruct (SFdiv_core_binary prec emax (Z.pos mx) ex (Z.pos my) ey)
      as [[q e] l].
    destruct C as (Hq & Hin & He & Hd).
    set (P := IZR (Zpos mx) * bpow ex / (IZR (Zpos my) * bpow ey)) in *.
    pose proof (bpow_pos ex) as Pex. pose proof (bpow_pos ey) as Pey.
    assert (My : 0 < IZR (Zpos my)) by (apply IZR_lt; lia).
    assert (Mx : 0 < IZR (Zpos mx)) by (apply IZR_lt; lia).
    assert (HP : 0 < P).
    { unfold P. apply Rdiv_lt_0_compat; apply Rmult_lt_0_compat; assumption. }
    pose proof (binary_round_aux_correct (xorb sx sy) q e l P HP Hq Hin He Hd)
      as (_ & Hf & Hi). cbv zeta in Hf, Hi.
    pose proof (round_pos_nonneg P HP) as HP0.
    assert (EP : SF2R (S754_finite sx mx ex) / SF2R (S754_finite sy my ey) =
                 (if xorb sx sy then - P else P)).
    { cbn [SF2R]. unfold P. rewrite !cond_Zopp_IZR.
      destruct sx, sy; cbn [xorb]; field; lra. }
    rewrite EP.
    assert (EA : Rabs (round (if xorb sx sy then - P else P)) = round P).
    { destruct (xorb sx sy); [rewrite round_opp, Rabs_Ropp |];
        apply Rabs_pos_eq; exact HP0. }
    rewrite EA. split.
    + intros Hb. destruct (Hf Hb) as [F V]. split; [exact F |].
      rewrite V. destruct (xorb sx sy); [now rewrite round_opp | reflexivity].
    + intros Hb. rewrite (Hi Hb). reflexivity.
Qed.

End Binary64Div.

Section Binary64Compare.
Import Binary64 Session.
Local Open Scope R_scope.

Lemma F2R_SF2R (x : float) : F2R x = SF2R (Prim2SF x).
Proof. reflexivity. Qed.

Lemma canonical_lt (s1 s2 : bool) (m1 m2 : positive) (e1 e2 : Z) :
  valid_binary (S754_finite s1 m1 e1) = true ->
  valid_binary (S754_finite s2 m2 e2) = true ->
  (e1 < e2)%Z -> IZR (Zpos m1) * bpow e1 < IZR (Zpos m2) * bpow e2.
Proof.
  intros V1 V2 H.
  apply valid_canonical in V1 as [C1 _]. apply valid_canonical in V2 as [C2 _].
  pose proof (Zdigits2_bounds (Zpos m1) ltac:(lia)) as [_ U1].
  pose proof (Zdigits2_bounds (Zpos m2) ltac:(lia)) as [L2 _].
  cbn [Zdigits2] in U1, L2.
  pose proof (bpow_pos e1) as P1. pose proof (bpow_pos e2) as P2.
  apply Rlt_le_trans with (bpow (Zpos (digits2_pos m1)) * bpow e1).
  - apply Rmult_lt_compat_r; assumption.
  - apply Rle_trans with (bpow (Zpos (digits2_pos m2) - 1) * bpow e2).
    + rewrite <- !bpow_add. apply bpow_le. unfold fexp in *. lia.
    + apply Rmult_le_compat_r; lra.
Qed.

(** The order of two finite doubles is the order of their values. *)
Lemma SFcompare_correct (x y : spec_float) :
  valid_binary x = true -> valid_binary y = true ->
  SFfinite x = true -> SFfinite y = true ->
  match SFcompare x y with
  | Some Lt => SF2R x < SF2R y
  | Some Eq => SF2R x = SF2R y
  | Some Gt => SF2R y < SF2R x
  | None => False
  end.
Proof.
  intros Vx Vy Fx Fy.
  assert (Pos : forall (s : bool) m e, 0 < IZR (Zpos m) * bpow e).
  { intros _ m e. apply Rmult_lt_0_compat; [apply IZR_lt; lia | apply bpow_pos]. }
  destruct x as [sx | sx | | sx mx ex]; try discriminate Fx;
    destruct y as [sy | sy | | sy my ey]; try discriminate Fy;
    cbn [SFcompare SF2R].
  - reflexivity.
  - pose proof (Pos sy my ey). rewrite cond_Zopp_IZR. destruct sy; lra.
  - pose proof (Pos sx mx ex). rewrite cond_Zopp_IZR. destruct sx; lra.
  - pose proof (Pos sx mx ex) as Px. pose proof (Pos sy my ey) as Py.
    rewrite !cond_Zopp_IZR.
    assert (Same : (ex = ey)%Z ->
              match Pos.compare_cont Eq mx my with
              | Eq => IZR (Zpos mx) * bpow ex = IZR (Zpos my) * bpow ey
              | Lt => IZR (Zpos mx) * bpow ex < IZR (Zpos my) * bpow ey
              | Gt => IZR (Zpos my) * bpow ey < IZR (Zpos mx) * bpow ex
              end).
    { intros E. subst ey. pose proof (bpow_pos ex) as Pe.
      change (Pos.compare_cont Eq mx my) with (Pos.compare mx my).
      destruct (Pos.compare_spec mx my) as [C | C | C].
      - now rewrite C.
      - apply Rmult_lt_compat_r; [exact Pe | apply IZR_lt; lia].
      - apply Rmult_lt_compat_r; [exact Pe | apply IZR_lt; lia]. }
    destruct sx, sy; try lra.
    + destruct (Z.compare_spec ex ey) as [C | C | C].
      * specialize (Same C). destruct (Pos.compare_cont Eq mx my);
          cbn [CompOpp]; lra.
      * pose proof (canonical_lt _ _ _ _ _ _ Vx Vy C). lra.
      * pose proof (canonical_lt _ _ _ _ _ _ Vy Vx C). lra.
    + destruct (Z.compare_spec ex ey) as [C | C | C].
      * specialize (Same C). destruct (Pos.compare_cont Eq mx my); lra.
      * pose proof (canonical_lt _ _ _ _ _ _ Vx Vy C). lra.
      * pose proof (canonical_lt _ _ _ _ _ _ Vy Vx C). lra.
Qed.

Lemma leb_F2R (x y : float) :
  finite x = true -> finite y = true ->
  ((x <=? y)%float = true <-> F2R x <= F2R y).
Proof.
  intros Fx Fy. rewrite FloatAxioms.leb_spec, !F2R_SF2R. unfold SFleb.
  pose proof (SFcompare_correct _ _ (Prim2SF_valid x) (Prim2SF_valid y) Fx Fy)
    as H.
  destruct (SFcompare (Prim2SF x) (Prim2SF y)) as [[| |] |];
    split; intros; try reflexivity; try discriminate; try lra; contradiction.
Qed.


Lemma F2R_round (x : float) : round (F2R x) = F2R x.
Proof. rewrite F2R_SF2R. apply SF2R_round, Prim2SF_valid. Qed.

Lemma F2R_bound (x : float) : Rabs (F2R x) < bpow 1024.
Proof. rewrite F2R_SF2R. apply SF2R_bound, Prim2SF_valid. Qed.

(** The four operations on finite doubles. *)
Lemma mul_correct (x y : float) :
  finite x = true -> finite y = true ->
  let v := round (F2R x * F2R y) in
  (Rabs v < bpow 1024 -> finite (x * y) = true /\ F2R (x * y) = v) /\
  (bpow 1024 <= Rabs v -> finite (x * y) = false).
Proof.
  intros Fx Fy. unfold finite. rewrite !F2R_SF2R, FloatAxioms.mul_spec.
  apply SFmul_correct; auto using Prim2SF_valid.
Qed.

Lemma sub_correct (x y : float) :
  finite x = true -> finite y = true ->
  let v := round (F2R x - F2R y) in
  (Rabs v < bpow 1024 -> finite (x - y) = true /\ F2R (x - y) = v) /\
  (bpow 1024 <= Rabs v -> finite (x - y) = false).
Proof.
  intros Fx Fy. unfold finite. rewrite !F2R_SF2R, FloatAxioms.sub_spec.
  apply SFsub_correct; auto using Prim2SF_valid.
Qed.

Lemma add_correct (x y : float) :
  finite x = true -> finite y = true ->
  let v := round (F2R x + F2R y) in
  (Rabs v < bpow 1024 -> finite (x + y) = true /\ F2R (x + y) = v) /\
  (bpow 1024 <= Rabs v -> finite (x + y) = false).
Proof.
  intros Fx Fy. unfold finite. rewrite !F2R_SF2R, FloatAxioms.add_spec.
  apply SFadd_correct; auto using Prim2SF_valid.
Qed.

Lemma div_correct (x y : float) :
  finite x = true -> finite y = true -> F2R y <> 0 ->
  let v := round (F2R x / F2R y) in
  (Rabs v < bpow 1024 -> finite (x / y) = true /\ F2R (x / y) = v) /\
  (bpow 1024 <= Rabs v -> finite (x / y) = false).
Proof.
  intros Fx Fy Hy. unfold finite. rewrite !F2R_SF2R, FloatAxioms.div_spec.
  apply SFdiv_correct; auto using Prim2SF_valid.
Qed.


Lemma sub_finite_inv (x y : float) :
  finite (x - y) = true -> finite x = true /\ finite y = true.
Proof.
  unfold finite. rewrite FloatAxioms.sub_spec.
  destruct (Prim2SF x) as [sx | sx | | sx mx ex],
           (Prim2SF y) as [sy | sy | | sy my ey];
    cbn [SF64sub SFsub SFfinite]; intros H; try discriminate H;
    try (split; reflexivity);
    destruct sx, sy; discriminate H.
Qed.

(** Rounding does not cross a double. *)
Lemma round_le_F2R (x : R) (b : float) : x <= F2R b -> round x <= F2R b.
Proof. intros H. rewrite <- (F2R_round b). apply round_le, H. Qed.

Lemma round_ge_F2R (x : R) (b : float) : F2R b <= x -> F2R b <= round x.
Proof. intros H. rewrite <- (F2R_round b). apply round_le, H. Qed.

End Binary64Compare.

Section MapperJSRounding.
Import Binary64 Session MapperJS.
Local Open Scope R_scope.

Lemma finite_opp (x : float) : finite (- x) = finite x.
Proof.
  unfold finite. rewrite FloatAxioms.opp_spec.
  now destruct (Prim2SF x).
Qed.

Lemma F2R_opp (x : float) : F2R (- x) = - F2R x.
Proof.
  rewrite !F2R_SF2R, FloatAxioms.opp_spec.
  destruct (Prim2SF x) as [s | s | | s m e]; cbn [SFopp SF2R]; try lra.
  rewrite !cond_Zopp_IZR. destruct s; cbn [negb]; lra.
Qed.

Lemma round_IZR (n : Z) : (Z.abs n <= 2 ^ 53)%Z -> round (IZR n) = IZR n.
Proof.
  assert (P : forall a : Z, (0 < a <= 2 ^ 53)%Z -> round (IZR a) = IZR a).
  { intros a Ha. destruct (Z.eq_dec a (2 ^ 53)) as [E | N].
    - apply (round_multiple _ (2 ^ 52) 1).
      + rewrite E, bpow_1, <- mult_IZR. reflexivity.
      + rewrite (mag_unique 54).
        * unfold fexp. lia.
        * rewrite E, Rabs_pos_eq by (apply IZR_le; lia).
          rewrite !bpow_nonneg by lia. split; [apply IZR_le | apply IZR_lt]; lia.
    - apply (round_multiple _ a 0); [rewrite bpow_0; lra |].
      replace (IZR a) with (IZR a * bpow 0) by (rewrite bpow_0; lra).
      destruct a as [| p | p]; try lia. rewrite mag_mantissa.
      pose proof (Zdigits2_le (Zpos p) 53 ltac:(lia) ltac:(lia) ltac:(lia)) as D.
      cbn [Zdigits2] in D. unfold fexp. lia. }
  intros H. destruct (Z.lt_trichotomy n 0) as [L | [E | G]].
  - replace (IZR n) with (- IZR (- n)) by (rewrite opp_IZR; lra).
    rewrite round_opp, P by lia. reflexivity.
  - rewrite E. apply round_0.
  - apply P. lia.
Qed.

(** Integers up to [2^53] in magnitude are doubles. *)
Lemma of_Z_correct (n : Z) :
  (Z.abs n <= 2 ^ 53)%Z ->
  finite (of_Z n) = true /\ F2R (of_Z n) = IZR n.
Proof.
  assert (P : forall a : Z, (0 <= a <= 2 ^ 53)%Z ->
            finite (of_uint63 (Uint63.of_Z a)) = true /\
            F2R (of_uint63 (Uint63.of_Z a)) = IZR a).
  { intros a Ha. unfold finite. rewrite F2R_SF2R, of_uint63_spec.
    rewrite Uint63.of_Z_spec.
    rewrite Z.mod_small
      by (split; [lia |]; apply Z.le_lt_trans with (2 ^ 53)%Z;
          [lia | reflexivity]).
    pose proof (binary_normalize_correct a 0 false) as (_ & H & _). cbv zeta in H.
    rewrite bpow_0, Rmult_1_r, round_IZR in H by lia.
    apply H. rewrite Rabs_pos_eq by (apply IZR_le; lia).
    apply Rle_lt_trans with (bpow 53).
    - rewrite bpow_nonneg by lia. apply IZR_le. lia.
    - apply bpow_lt. lia. }
  intros H. unfold of_Z. destruct (Z.ltb_spec n 0) as [L | L].
  - rewrite finite_opp, F2R_opp.
    destruct (P (- n)%Z ltac:(lia)) as [F V]. split; [exact F |].
    rewrite V, opp_IZR. lra.
  - apply P. lia.
Qed.

Lemma finite_cases (x : float) :
  finite x = true ->
  (exists s, Prim2SF x = S754_zero s) \/
  (exists s m e, Prim2SF x = S754_finite s m e /\
     (-1074 <= e <= 971)%Z /\ (Zpos m < 2 ^ 53)%Z).
Proof.
  unfold finite. pose proof (Prim2SF_valid x) as V.
  destruct (Prim2SF x) as [s | s | | s m e]; cbn [SFfinite]; intros F;
    try discriminate F.
  - left. now exists s.
  - right. exists s, m, e. split; [reflexivity |].
    apply valid_canonical in V as [C E].
    pose proof (digits2_pos_upper m) as U.
    assert (Zpos (digits2_pos m) <= 53)%Z by (unfold fexp in C; lia).
    assert (2 ^ Zpos (digits2_pos m) <= 2 ^ 53)%Z
      by (apply Z.pow_le_mono_r; lia).
    unfold fexp in C. lia.
Qed.

Lemma F2R_integer (s : bool) (m : positive) (e : Z) :
  (0 <= e)%Z ->
  IZR (cond_Zopp s (Zpos m)) * bpow e = IZR (cond_Zopp s (Zpos m) * 2 ^ e).
Proof. intros He. rewrite mult_IZR, bpow_nonneg by exact He. reflexivity. Qed.

Lemma F2R_fraction (s : bool) (m : positive) (e : Z) :
  (e < 0)%Z ->
  IZR (cond_Zopp s (Zpos m)) * bpow e =
  IZR (cond_Zopp s (Zpos m)) / IZR (2 ^ (- e)).
Proof.
  intros He. replace e with (- - e)%Z at 1 by lia.
  rewrite bpow_opp, bpow_nonneg by lia. reflexivity.
Qed.

(** [Math.round] on a finite double is the rounding of the real model. *)
Lemma Math_round_correct (x : float) :
  finite x = true ->
  finite (Math_round x) = true /\
  F2R (Math_round x) = IZR (Mapper.Math_round (F2R x)).
Proof.
  intros F. unfold Mapper.Math_round.
  destruct (finite_cases x F) as [[s E] | (s & m & e & E & He & Hm)].
  - unfold Math_round. rewrite E. split; [exact F |].
    rewrite F2R_SF2R, E. cbn [SF2R]. rewrite (Zfloor_eq 0); lra.
  - unfold Math_round. rewrite E.
    destruct (Z.leb_spec 0 e) as [Le | Le].
    + split; [exact F |]. rewrite F2R_SF2R, E. cbn [SF2R].
      rewrite F2R_integer by exact Le.
      set (z := (cond_Zopp s (Z.pos m) * 2 ^ e)%Z).
      rewrite (Zfloor_eq z); [reflexivity | lra].
    + set (k := (- e)%Z). set (sm := cond_Zopp s (Zpos m)).
      set (n := ((2 * sm + 2 ^ k) / 2 ^ (k + 1))%Z).
      assert (Hk : (0 < k)%Z) by (unfold k; lia).
      assert (P2 : (0 < 2 ^ k)%Z) by (apply Z.pow_pos_nonneg; lia).
      assert (D : (2 ^ (k + 1) = 2 * 2 ^ k)%Z)
        by (rewrite Z.pow_add_r by lia; lia).
      pose proof (Z.div_mod (2 * sm + 2 ^ k) (2 ^ (k + 1)) ltac:(lia)) as DM.
      pose proof (Z.mod_pos_bound (2 * sm + 2 ^ k) (2 ^ (k + 1)) ltac:(lia)) as MB.
      fold n in DM.
      set (r := ((2 * sm + 2 ^ k) mod 2 ^ (k + 1))%Z) in *.
      assert (V : F2R x + / 2 = IZR n + IZR r / IZR (2 ^ (k + 1))).
      { rewrite F2R_SF2R, E. cbn [SF2R]. rewrite F2R_fraction by exact Le.
        fold k. fold sm.
        assert (E1 : 2 * IZR sm + IZR (2 ^ k) =
                     IZR (2 ^ (k + 1)) * IZR n + IZR r).
        { pose proof (f_equal IZR DM) as E1.
          rewrite !plus_IZR, !mult_IZR in E1. exact E1. }
        assert (E2 : IZR (2 ^ (k + 1)) = 2 * IZR (2 ^ k))
          by (rewrite D, mult_IZR; reflexivity).
        assert (Pk : 0 < IZR (2 ^ k)) by (apply IZR_lt; exact P2).
        rewrite E2 in *. field_simplify_eq; [| lra]. lra. }
      assert (Fl : Zfloor (F2R x + / 2) = n).
      { apply Zfloor_eq. rewrite V.
        assert (Pk : 0 < IZR (2 ^ (k + 1))) by (apply IZR_lt; lia).
        assert (0 <= IZR r / IZR (2 ^ (k + 1)) < 1); [| lra].
        split.
        - apply Rmult_le_pos; [apply IZR_le; lia |].
          left. apply Rinv_0_lt_compat. exact Pk.
        - apply (Rmult_lt_reg_r (IZR (2 ^ (k + 1)))); [exact Pk |].
          unfold Rdiv. rewrite Rmult_assoc, Rinv_l, Rmult_1_r, Rmult_1_l by lra.
          apply IZR_lt. lia. }
      rewrite Fl.
      assert (Bn : (Z.abs n <= 2 ^ 53)%Z).
      { assert (Bs : (- 2 ^ 53 < sm < 2 ^ 53)%Z)
          by (unfold sm; destruct s; cbn [cond_Zopp]; lia).
        assert (P1 : (2 ^ 1 <= 2 ^ k)%Z) by (apply Z.pow_le_mono_r; lia).
        change (2 ^ 1)%Z with 2%Z in P1.
        unfold n. rewrite D. set (P := (2 ^ k)%Z) in *.
        assert (U : ((2 * sm + P) / (2 * P) <= 2 ^ 53)%Z)
          by (apply Z.div_le_upper_bound; nia).
        assert (L : (- 2 ^ 53 <= (2 * sm + P) / (2 * P))%Z)
          by (apply Z.div_le_lower_bound; nia).
        lia. }
      destruct (Z.eqb_spec n 0) as [N0 | N0].
      * rewrite N0. destruct s; split; reflexivity.
      * apply of_Z_correct. exact Bn.
Qed.

(** [Math.floor] on a finite double is the floor of its value. *)
Lemma Math_floor_correct (x : float) :
  finite x = true ->
  finite (Math_floor x) = true /\
  F2R (Math_floor x) = IZR (Zfloor (F2R x)).
Proof.
  intros F.
  destruct (finite_cases x F) as [[s E] | (s & m & e & E & He & Hm)].
  - unfold Math_floor. rewrite E. split; [exact F |].
    rewrite F2R_SF2R, E. cbn [SF2R]. rewrite (Zfloor_eq 0); lra.
  - unfold Math_floor. rewrite E.
    destruct (Z.leb_spec 0 e) as [Le | Le].
    + split; [exact F |]. rewrite F2R_SF2R, E. cbn [SF2R].
      rewrite F2R_integer by exact Le. now rewrite ZfloorZ.
    + set (k := (- e)%Z). set (sm := cond_Zopp s (Zpos m)).
      assert (Hk : (0 < k)%Z) by (unfold k; lia).
      assert (P2 : (0 < 2 ^ k)%Z) by (apply Z.pow_pos_nonneg; lia).
      pose proof (Z.div_mod sm (2 ^ k) ltac:(lia)) as DM.
      pose proof (Z.mod_pos_bound sm (2 ^ k) ltac:(lia)) as MB.
      set (n := (sm / 2 ^ k)%Z) in *. set (r := (sm mod 2 ^ k)%Z) in *.
      assert (Pk : 0 < IZR (2 ^ k)) by (apply IZR_lt; exact P2).
      assert (V : F2R x = IZR n + IZR r / IZR (2 ^ k)).
      { rewrite F2R_SF2R, E. cbn [SF2R]. rewrite F2R_fraction by exact Le.
        fold k. fold sm.
        assert (E1 : IZR sm = IZR (2 ^ k) * IZR n + IZR r).
        { pose proof (f_equal IZR DM) as E1.
          rewrite !plus_IZR, !mult_IZR in E1. exact E1. }
        rewrite E1. field. lra. }
      assert (Fl : Zfloor (F2R x) = n).
      { apply Zfloor_eq. rewrite V.
        assert (0 <= IZR r / IZR (2 ^ k) < 1); [| lra].
        split.
        - apply Rmult_le_pos; [apply IZR_le; lia |].
          left. apply Rinv_0_lt_compat. exact Pk.
        - apply (Rmult_lt_reg_r (IZR (2 ^ k))); [exact Pk |].
          unfold Rdiv. rewrite Rmult_assoc, Rinv_l, Rmult_1_r, Rmult_1_l by lra.
          apply IZR_lt. lia. }
      rewrite Fl. apply of_Z_correct.
      assert (Bs : (- 2 ^ 53 < sm < 2 ^ 53)%Z)
        by (unfold sm; destruct s; cbn [cond_Zopp]; lia).
      unfold n. set (P := (2 ^ k)%Z) in *.
      assert (U : (sm / P <= 2 ^ 53)%Z) by (apply Z.div_le_upper_bound; nia).
      assert (L : (- 2 ^ 53 <= sm / P)%Z) by (apply Z.div_le_lower_bound; nia).
      lia.
Qed.

(** [Math.round] returns what it is given when that is not finite. *)
Lemma Math_round_not_finite (x : float) :
  finite x = false -> Math_round x = x.
Proof.
  unfold finite, Math_round.
  destruct (Prim2SF x); cbn [SFfinite]; intros H; try discriminate H;
    reflexivity.
Qed.


End MapperJSRounding.

(** The real value of a literal double, by evaluation. *)
Ltac float_value f :=
  rewrite F2R_SF2R;
  let x := eval vm_compute in (Prim2SF f) in
  replace (Prim2SF f) with x by (vm_compute; reflexivity);
  cbn [Binary64.SF2R cond_Zopp]; unfold Binary64.bpow; cbn [Session.pow2];
  repeat match goal with
  | |- context [Z.pow_pos ?a ?b] =>
      let v := eval vm_compute in (Z.pow_pos a b) in
      change (Z.pow_pos a b) with v
  end;
  rewrite ?opp_IZR; lra.


Section MapperJSFacts.
Import Binary64 Session MapperJS.
Local Open Scope R_scope.

Lemma F2R_half : F2R 0.5 = / 2.
Proof. float_value 0.5%float. Qed.

Lemma F2R_neg_half : F2R (-0.5) = - / 2.
Proof. float_value (-0.5)%float. Qed.

Lemma F2R_50 : F2R 50 = 50.
Proof. float_value 50%float. Qed.

Lemma F2R_neg_50 : F2R (-50) = - 50.
Proof. float_value (-50)%float. Qed.

Lemma F2R_100 : F2R 100 = 100.
Proof. float_value 100%float. Qed.

Lemma F2R_12 : F2R 12 = 12.
Proof. float_value 12%float. Qed.

Lemma bpow_1024_large : 64 < bpow 1024.
Proof.
  apply Rle_lt_trans with (bpow 6); [| apply bpow_lt; lia].
  rewrite bpow_nonneg by lia. simpl. lra.
Qed.

Lemma small_below_overflow (v : R) : -64 <= v <= 64 -> Rabs v < bpow 1024.
Proof.
  intros H. pose proof bpow_1024_large. apply Rabs_def1; lra.
Qed.

Lemma mul_nan_l (x : float) : (nan * x)%float = nan.
Proof.
  rewrite <- (SF2Prim_Prim2SF (nan * x)), FloatAxioms.mul_spec, Prim2SF_nan.
  reflexivity.
Qed.

(** A number that is not finite minus itself is NaN. *)
Lemma sub_self_not_finite (x : float) :
  finite x = false -> (x - x)%float = nan.
Proof.
  unfold finite. intros F.
  rewrite <- (SF2Prim_Prim2SF (x - x)), FloatAxioms.sub_spec.
  destruct (Prim2SF x) as [s | s | | s m e]; cbn [SFfinite] in F;
    try discriminate F; cbn [SF64sub SFsub]; [destruct s |]; reflexivity.
Qed.

Lemma Math_round_nan : Math_round nan = nan.
Proof. reflexivity. Qed.

Lemma Math_round_bounds (x : R) :
  IZR (Mapper.Math_round x) - / 2 <= x < IZR (Mapper.Math_round x) + / 2.
Proof.
  unfold Mapper.Math_round. pose proof (Zfloor_bound (x + / 2)). lra.
Qed.

(** The residual of a finite semitone count: the difference to the nearest
    integer is at most a half in magnitude after rounding, and its
    hundredfold at most fifty. *)
Lemma residual_bounds (s : float) :
  finite s = true ->
  let d := (s - Math_round s)%float in
  let p := (d * 100)%float in
  finite d = true /\ F2R d = round (F2R s - F2R (Math_round s)) /\
  finite p = true /\ F2R p = round (F2R d * 100) /\
  - 50 <= F2R p <= 50.
Proof.
  intros Fs d p.
  destruct (Math_round_correct s Fs) as [Fr Vr].
  pose proof (Math_round_bounds (F2R s)) as B.
  destruct (sub_correct s (Math_round s) Fs Fr) as [Hd _]. cbv zeta in Hd.
  assert (Bd : - / 2 <= round (F2R s - F2R (Math_round s)) <= / 2).
  { rewrite Vr. split.
    - rewrite <- F2R_neg_half. apply round_ge_F2R. rewrite F2R_neg_half. lra.
    - rewrite <- F2R_half. apply round_le_F2R. rewrite F2R_half. lra. }
  destruct Hd as [Fd Vd]; [apply small_below_overflow; lra |].
  fold d in Fd, Vd.
  assert (F100 : finite 100 = true) by reflexivity.
  destruct (mul_correct d 100 Fd F100) as [Hp _]. cbv zeta in Hp.
  rewrite F2R_100 in Hp.
  assert (Bp : - 50 <= round (F2R d * 100) <= 50).
  { rewrite Vd. split.
    - rewrite <- F2R_neg_50. apply round_ge_F2R. rewrite F2R_neg_50. lra.
    - rewrite <- F2R_50. apply round_le_F2R. rewrite F2R_50. lra. }
  destruct Hp as [Fp Vp]; [apply small_below_overflow; lra |].
  fold p in Fp, Vp.
  repeat split; try assumption; rewrite Vp; lra.
Qed.

Lemma cents_of_finite (approx : float -> float) (freq : float) :
  finite (semitones_of approx freq) = true ->
  finite (cents_of approx freq) = true /\
  F2R (cents_of approx freq) =
    IZR (Mapper.Math_round (F2R (residual_of approx freq))) /\
  - 50 <= F2R (residual_of approx freq) <= 50.
Proof.
  intros Fs.
  destruct (residual_bounds _ Fs) as (_ & _ & Fp & _ & Bp). cbv zeta in Fp, Bp.
  unfold cents_of, residual_of, rounded_of.
  destruct (Math_round_correct _ Fp) as [Fc Vc].
  repeat split; assumption || apply Bp.
Qed.

Lemma cents_of_not_finite (approx : float -> float) (freq : float) :
  finite (semitones_of approx freq) = false -> cents_of approx freq = nan.
Proof.
  intros Fs. unfold cents_of, residual_of, rounded_of.
  rewrite (Math_round_not_finite _ Fs), (sub_self_not_finite _ Fs), mul_nan_l.
  reflexivity.
Qed.

End MapperJSFacts.

Section MapperJSCents.
Import Binary64 Session MapperJS.
Local Open Scope R_scope.


(** What [0 < x] says of a double: finite and positive, or the positive
    infinity. *)
Lemma positive_cases (x : float) :
  (0 <? x)%float = true ->
  (finite x = true /\ 0 < F2R x) \/ Prim2SF x = S754_infinity false.
Proof.
  rewrite FloatAxioms.ltb_spec. unfold SFltb, finite. rewrite F2R_SF2R.
  replace (Prim2SF 0) with (S754_zero false) by reflexivity.
  destruct (Prim2SF x) as [s | s | | s m e]; cbn [SFcompare SFfinite SF2R];
    try discriminate; destruct s; try discriminate; intros _.
  - now right.
  - left. split; [reflexivity |]. cbn [cond_Zopp].
    apply Rmult_lt_0_compat; [apply IZR_lt; lia | apply bpow_pos].
Qed.



Lemma finite_440 : finite A4_FREQ = true.
Proof. reflexivity. Qed.

Lemma F2R_A4 : F2R A4_FREQ = 440.
Proof. exact F2R_440. Qed.

(** The quotient by 440 of a positive finite frequency is finite, and
    grows with the frequency. *)
Lemma quotient_value (f : float) :
  finite f = true -> 0 <= F2R f ->
  finite (f / A4_FREQ) = true /\ F2R (f / A4_FREQ) = round (F2R f / 440).
Proof.
  intros Ff Hf.
  destruct (div_correct f A4_FREQ Ff finite_440) as [H _];
    [rewrite F2R_A4; lra |].
  cbv zeta in H. rewrite F2R_A4 in H. apply H.
  pose proof (F2R_bound f) as B. rewrite Rabs_pos_eq in B by exact Hf.
  assert (L : 0 <= round (F2R f / 440)).
  { rewrite <- round_0. apply round_le. unfold Rdiv.
    apply Rmult_le_pos; lra. }
  assert (U : round (F2R f / 440) <= F2R f).
  { apply round_le_F2R. unfold Rdiv. lra. }
  rewrite Rabs_pos_eq by exact L. lra.
Qed.


(** At a zero the logarithm is the negative infinity. *)
Lemma Math_log2_zero (approx : float -> float) (q : float) :
  finite q = true -> F2R q = 0 -> Math_log2 approx q = neg_infinity.
Proof.
  unfold finite. rewrite F2R_SF2R. intros F V. unfold Math_log2, is_nan.
  rewrite !FloatAxioms.eqb_spec. unfold SFeqb.
  replace (Prim2SF infinity) with (S754_infinity false) by reflexivity.
  replace (Prim2SF 1) with (S754_finite false 4503599627370496 (-52))
    by reflexivity.
  replace (Prim2SF 0) with (S754_zero false) by reflexivity.
  destruct (Prim2SF q) as [s | s | | s m e]; cbn [SFfinite] in F;
    try discriminate F.
  - destruct s; reflexivity.
  - exfalso. cbn [SF2R] in V. rewrite cond_Zopp_IZR in V.
    pose proof (bpow_pos e).
    assert (0 < IZR (Zpos m)) by (apply IZR_lt; lia).
    destruct s; nra.
Qed.

Lemma finite_neg_infinity : finite neg_infinity = false.
Proof. reflexivity. Qed.

Lemma mag_upper (x : R) (k : Z) : x <> 0 -> Rabs x < bpow k -> (mag x <= k)%Z.
Proof.
  intros Hx H. pose proof (mag_spec x Hx) as [L _].
  assert (B : bpow (mag x - 1) < bpow k) by lra.
  apply bpow_lt_inv in B. lia.
Qed.

(** The quotient by 440 of a positive double up to 220 * 2^-1074 is
    rounded to zero. *)
Lemma quotient_underflow (f : float) :
  (0 <? f)%float = true -> (f <=? 0x1.b8p-1067)%float = true ->
  finite (f / A4_FREQ) = true /\ F2R (f / A4_FREQ) = 0.
Proof.
  intros H0 Hle.
  assert (Fb : finite 0x1.b8p-1067 = true) by reflexivity.
  assert (Vb : F2R 0x1.b8p-1067 = 220 * bpow (-1074)).
  { rewrite F2R_SF2R.
    replace (Prim2SF 0x1.b8p-1067) with (S754_finite false 220 (-1074))
      by reflexivity.
    reflexivity. }
  destruct (positive_cases f H0) as [[Ff Pf] | E].
  2:{ exfalso. rewrite FloatAxioms.leb_spec in Hle. unfold SFleb in Hle.
      rewrite E in Hle. discriminate Hle. }
  apply (leb_F2R f _ Ff Fb) in Hle. rewrite Vb in Hle.
  destruct (quotient_value f Ff ltac:(lra)) as [Fq Vq].
  split; [exact Fq |]. rewrite Vq.
  set (x := F2R f / 440).
  pose proof (bpow_pos (-1074)) as Pb.
  assert (Hx : 0 < x <= bpow (-1074) / 2) by (unfold x; lra).
  assert (Hm : (mag x <= -1074)%Z).
  { apply mag_upper; [lra |]. rewrite Rabs_pos_eq by lra. lra. }
  unfold round. replace (fexp (mag x)) with (-1074)%Z by (unfold fexp; lia).
  assert (Ht : 0 < x / bpow (-1074) <= / 2).
  { split.
    - apply Rdiv_lt_0_compat; lra.
    - apply (Rmult_le_reg_r (bpow (-1074))); [exact Pb |].
      unfold Rdiv. rewrite Rmult_assoc, Rinv_l by lra. lra. }
  assert (Fl : Zfloor (x / bpow (-1074)) = 0%Z) by (apply Zfloor_eq; lra).
  destruct (ZnearestE_cases (x / bpow (-1074))) as [(E & _) | (E & H1 & H2)];
    rewrite Fl in *.
  - rewrite E. lra.
  - exfalso. assert (Eh : x / bpow (-1074) - 0 = / 2) by lra.
    specialize (H2 Eh). discriminate H2.
Qed.

Lemma cents_of_underflow (approx : float -> float) (freq : float) :
  (0 <? freq)%float = true -> (freq <=? 0x1.b8p-1067)%float = true ->
  cents_of approx freq = nan.
Proof.
  intros H0 Hle. destruct (quotient_underflow freq H0 Hle) as [Fq Vq].
  apply cents_of_not_finite. unfold semitones_of.
  rewrite (Math_log2_zero approx _ Fq Vq). reflexivity.
Qed.

(** C2, amended: whenever the computed semitone count is a finite number,
    [freqToNote] returns a finite integer number of cents in the closed
    range from -50 to 50, whatever double the engine's [Math.log2]
    returns, and it is +50 exactly when the computed residual
    [(semitones - rounded) * 100] is at least 49.5; when the semitone count
    is not finite the cents are NaN, and so they are for every positive
    frequency up to 220 * 2^-1074, whose quotient by 440 underflows to
    zero. *)
Theorem cents_closed_range (approx : float -> float) (freq : float) :
  let c := cents (freqToNote approx freq) in
  (finite (semitones_of approx freq) = true ->
   finite c = true /\
   exists n : Z,
     F2R c = IZR n /\ (-50 <= n <= 50)%Z /\
     (n = 50%Z <-> 99 / 2 <= F2R (residual_of approx freq))) /\
  (finite (semitones_of approx freq) = false -> c = nan) /\
  ((0 <? freq)%float = true -> (freq <=? 0x1.b8p-1067)%float = true ->
   c = nan).
Proof.
  cbv zeta. change (cents (freqToNote approx freq)) with (cents_of approx freq).
  split; [| split; [apply cents_of_not_finite | apply cents_of_underflow]].
  intros Fs. destruct (cents_of_finite approx freq Fs) as (Fc & Vc & Bp).
  split; [exact Fc |].
  exists (Mapper.Math_round (F2R (residual_of approx freq))).
  split; [exact Vc |].
  pose proof (Math_round_bounds (F2R (residual_of approx freq))) as B.
  set (n := Mapper.Math_round (F2R (residual_of approx freq))) in *.
  assert (L : (-51 < n)%Z) by (apply lt_IZR; lra).
  assert (U : (n < 51)%Z) by (apply lt_IZR; lra).
  split; [lia |]. split.
  - intros E. rewrite E in B. lra.
  - intros H.
    assert (L50 : (49 < n)%Z) by (apply lt_IZR; lra). lia.
Qed.



End MapperJSCents.

Section MapperJSWitnesses.
Import Binary64 Session MapperJS.
Local Open Scope R_scope.






Lemma cents_closed_range_witness :
  let approx := fun _ : float => 0x1.52e816db58fcfp-5%float in
  let freq := 0x1.c4ccccccccccdp+8%float in
  finite (semitones_of approx freq) = true /\
  cents (freqToNote approx freq) = 50%float /\
  finite (cents (freqToNote approx freq)) = true /\
  (exists n : Z,
     F2R (cents (freqToNote approx freq)) = IZR n /\ (-50 <= n <= 50)%Z /\
     (n = 50%Z <-> 99 / 2 <= F2R (residual_of approx freq))) /\
  finite (semitones_of approx infinity) = false /\
  cents (freqToNote approx infinity) = nan /\
  (0 <? 0x1.b8p-1067)%float = true /\
  (0x1.b8p-1067 <=? 0x1.b8p-1067)%float = true /\
  cents (freqToNote approx 0x1.b8p-1067) = nan.
Proof.
  intros approx freq.
  assert (Fs : finite (semitones_of approx freq) = true)
    by (vm_compute; reflexivity).
  assert (Fu : finite (semitones_of approx infinity) = false)
    by (vm_compute; reflexivity).
  assert (H0 : (0 <? 0x1.b8p-1067)%float = true) by (vm_compute; reflexivity).
  assert (H1 : (0x1.b8p-1067 <=? 0x1.b8p-1067)%float = true)
    by (vm_compute; reflexivity).
  split; [exact Fs |]. split; [vm_compute; reflexivity |].
  split; [exact (proj1 (proj1 (cents_closed_range approx freq) Fs)) |].
  split; [exact (proj2 (proj1 (cents_closed_range approx freq) Fs)) |].
  split; [exact Fu |].
  split; [exact (proj1 (proj2 (cents_closed_range approx infinity)) Fu) |].
  split; [exact H0 |]. split; [exact H1 |].
  exact (proj2 (proj2 (cents_closed_range approx 0x1.b8p-1067)) H0 H1).
Defined.



End MapperJSWitnesses.

Section MapperJSNotes.
Import Binary64 Session MapperJS MapperJSSpec.
Local Open Scope R_scope.

Lemma below_overflow (v : R) : Rabs v <= bpow 53 -> Rabs v < bpow 1024.
Proof.
  intros H. apply Rle_lt_trans with (1 := H). apply bpow_lt. lia.
Qed.

Lemma Rabs_le_inv (x a : R) : Rabs x <= a -> - a <= x <= a.
Proof. unfold Rabs. destruct (Rcase_abs x); lra. Qed.

Lemma Rabs_IZR_le (n b : Z) : (Z.abs n <= b)%Z -> Rabs (IZR n) <= IZR b.
Proof. intros H. rewrite <- abs_IZR. apply IZR_le, H. Qed.

(** Sums and differences of small integers are exact. *)
Lemma add_integers (x y : float) (a b : Z) :
  finite x = true -> finite y = true -> F2R x = IZR a -> F2R y = IZR b ->
  (Z.abs (a + b) <= 2 ^ 53)%Z ->
  finite (x + y) = true /\ F2R (x + y) = IZR (a + b).
Proof.
  intros Fx Fy Vx Vy B. destruct (add_correct x y Fx Fy) as [H _].
  cbv zeta in H. rewrite Vx, Vy, <- plus_IZR, round_IZR in H by exact B.
  apply H, below_overflow. rewrite bpow_nonneg by lia.
  apply Rabs_IZR_le, B.
Qed.

Lemma sub_integers (x y : float) (a b : Z) :
  finite x = true -> finite y = true -> F2R x = IZR a -> F2R y = IZR b ->
  (Z.abs (a - b) <= 2 ^ 53)%Z ->
  finite (x - y) = true /\ F2R (x - y) = IZR (a - b).
Proof.
  intros Fx Fy Vx Vy B. destruct (sub_correct x y Fx Fy) as [H _].
  cbv zeta in H. rewrite Vx, Vy, <- minus_IZR, round_IZR in H by exact B.
  apply H, below_overflow. rewrite bpow_nonneg by lia.
  apply Rabs_IZR_le, B.
Qed.

Lemma F2R_69 : F2R 69 = 69.
Proof. float_value 69%float. Qed.

Lemma F2R_1 : F2R 1 = 1.
Proof. float_value 1%float. Qed.

Lemma Prim2SF_12 : Prim2SF 12 = S754_finite false 6755399441055744 (-49).
Proof. reflexivity. Qed.

(** The remainder by 12 of an integer. *)
Lemma Number_rem_12 (n : float) (N : Z) :
  finite n = true -> F2R n = IZR N ->
  finite (Number_rem n 12) = true /\
  F2R (Number_rem n 12) = IZR (Z.rem N 12).
Proof.
  intros Fn Vn. unfold Number_rem. rewrite Prim2SF_12.
  destruct (finite_cases n Fn) as [[s E] | (s & m & e0 & E & He & Hm)].
  - rewrite E. split; [exact Fn |]. rewrite Vn.
    rewrite F2R_SF2R, E in Vn. cbn [SF2R] in Vn.
    apply eq_IZR in Vn. rewrite <- Vn. reflexivity.
  - rewrite E.
    pose proof (aligned_values s false m 6755399441055744 e0 (-49)) as [Ax Ay].
    cbv zeta in Ax, Ay.
    set (e := Z.min e0 (-49)) in *.
    set (A := cond_Zopp s (Zpos (fst (shl_align m e0 e)))) in *.
    set (B := Zpos (fst (shl_align 6755399441055744 (-49) e))) in *.
    change (cond_Zopp false B) with B in Ay.
    rewrite <- E, <- F2R_SF2R, Vn in Ax.
    rewrite <- Prim2SF_12, <- F2R_SF2R, F2R_12 in Ay.
    set (P := (2 ^ (- e))%Z).
    assert (HP : (0 < P)%Z) by (apply Z.pow_pos_nonneg; unfold e; lia).
    assert (Eb : bpow e = / IZR P).
    { replace e with (- - e)%Z at 1 by lia.
      rewrite bpow_opp, bpow_nonneg by (unfold e; lia). reflexivity. }
    assert (RP : 0 < IZR P) by (apply IZR_lt; exact HP).
    assert (EA : A = (N * P)%Z).
    { apply eq_IZR. rewrite mult_IZR, <- Ax, Eb. field. lra. }
    assert (EB : B = (12 * P)%Z).
    { apply eq_IZR. rewrite mult_IZR, <- Ay, Eb. field. lra. }
    assert (ER : Z.rem A B = (Z.rem N 12 * P)%Z).
    { rewrite EA, EB. apply Z.mul_rem_distr_r; lia. }
    rewrite ER.
    pose proof (Z.rem_bound_abs N 12 ltac:(lia)) as RB.
    destruct (Z.eqb_spec (Z.rem N 12 * P) 0) as [Z0 | NZ].
    + assert (R0 : Z.rem N 12 = 0%Z) by nia.
      rewrite R0. destruct s; split; reflexivity.
    + pose proof (binary_normalize_correct (Z.rem N 12 * P) e false)
        as (V & H & _). cbv zeta in V, H.
      assert (EV : IZR (Z.rem N 12 * P) * bpow e = IZR (Z.rem N 12)).
      { rewrite mult_IZR, Eb. field. lra. }
      rewrite EV, round_IZR in H by lia.
      unfold finite. rewrite F2R_SF2R, (Prim2SF_SF2Prim _ V).
      apply H, below_overflow. rewrite bpow_nonneg by lia.
      apply Rabs_IZR_le. lia.
Qed.

(** Reading an array at an integer index. *)
Lemma element_integer (xs : list string) (i : float) (k : Z) :
  finite i = true -> F2R i = IZR k -> (0 <= k)%Z ->
  element xs i = nth_error xs (Z.to_nat k).
Proof.
  intros Fi Vi Hk. unfold element.
  destruct (finite_cases i Fi) as [[s E] | (s & m & e & E & He & Hm)].
  - rewrite E. rewrite F2R_SF2R, E in Vi. cbn [SF2R] in Vi.
    apply eq_IZR in Vi. rewrite <- Vi. reflexivity.
  - rewrite E. rewrite F2R_SF2R, E in Vi. cbn [SF2R] in Vi.
    pose proof (bpow_pos e) as Pe.
    assert (Mp : 0 < IZR (Zpos m)) by (apply IZR_lt; lia).
    destruct s.
    { exfalso. cbn [cond_Zopp] in Vi.
      change (Z.neg m) with (- Z.pos m)%Z in Vi. rewrite opp_IZR in Vi.
      assert (0 <= IZR k) by (apply IZR_le; exact Hk). nra. }
    cbn [cond_Zopp] in Vi.
    destruct (Z.leb_spec 0 e) as [Le | Le].
    + rewrite bpow_nonneg, <- mult_IZR in Vi by exact Le.
      apply eq_IZR in Vi. now rewrite Vi.
    + set (P := (2 ^ (- e))%Z).
      assert (HP : (0 < P)%Z) by (apply Z.pow_pos_nonneg; lia).
      assert (RP : 0 < IZR P) by (apply IZR_lt; exact HP).
      assert (Em : Zpos m = (k * P)%Z).
      { apply eq_IZR. rewrite mult_IZR, <- Vi.
        replace e with (- - e)%Z at 1 by lia.
        rewrite bpow_opp, bpow_nonneg by lia. fold P. field. lra. }
      rewrite Em, Z.mod_mul, Z.div_mul by lia. reflexivity.
Qed.

(** The floor of the rounded quotient of an integer by 12 is the floor
    quotient. *)
Lemma floor_quotient_12 (M : Z) :
  (Z.abs M <= 2 ^ 52)%Z -> Zfloor (round (IZR M / 12)) = (M / 12)%Z.
Proof.
  intros HM. pose proof (Z.div_mod M 12 ltac:(lia)) as DM.
  pose proof (Z.mod_pos_bound M 12 ltac:(lia)) as MB.
  set (q := (M / 12)%Z) in *. set (r := (M mod 12)%Z) in *.
  assert (Hq : (Z.abs q <= 2 ^ 49 - 2)%Z) by lia.
  assert (V : IZR M / 12 = IZR q + IZR r / 12).
  { rewrite DM, plus_IZR, mult_IZR. field. }
  assert (R0 : 0 <= IZR r <= 11).
  { split; [apply IZR_le | apply IZR_le]; lia. }
  apply Zfloor_eq. split.
  - rewrite <- (round_IZR q) by lia. apply round_le. rewrite V. lra.
  - apply Rle_lt_trans with (IZR q + 15 / 16); [| lra].
    assert (G : round (IZR q + 15 / 16) = IZR q + 15 / 16).
    { apply (round_multiple _ (16 * q + 15) (-4)).
      - rewrite plus_IZR, mult_IZR.
        replace (bpow (-4)) with (/ 16)
          by (unfold bpow, pow2; simpl; lra).
        field.
      - assert (Hn : IZR q + 15 / 16 <> 0).
        { intros E.
          assert (E' : IZR (16 * q + 15) = 0)
            by (rewrite plus_IZR, mult_IZR; lra).
          apply eq_IZR in E'. lia. }
        pose proof (mag_upper _ 49 Hn) as Hm.
        assert (Rabs (IZR q + 15 / 16) < bpow 49).
        { rewrite bpow_nonneg by lia.
          assert (B1 : - IZR (2 ^ 49 - 2) <= IZR q <= IZR (2 ^ 49 - 2))
            by (split; [rewrite <- opp_IZR |]; apply IZR_le; lia).
          rewrite minus_IZR in B1.
          apply Rabs_def1; lra. }
        specialize (Hm H). unfold fexp. lia. }
    rewrite <- G. apply round_le. rewrite V. lra.
Qed.

(** A semitone count of magnitude at most [2^50] is a finite number. *)
Lemma small_finite (s : float) :
  (abs s <=? 0x1p50)%float = true ->
  finite s = true /\ Rabs (F2R s) <= IZR (2 ^ 50).
Proof.
  intros H.
  assert (Fa : finite (abs s) = finite s).
  { unfold finite. rewrite FloatAxioms.abs_spec. now destruct (Prim2SF s). }
  assert (Va : F2R (abs s) = Rabs (F2R s)).
  { rewrite !F2R_SF2R, FloatAxioms.abs_spec.
    destruct (Prim2SF s) as [sg | sg | | sg m e]; cbn [SFabs SF2R];
      rewrite ?Rabs_R0; try reflexivity.
    pose proof (bpow_pos e).
    assert (0 < IZR (Zpos m)) by (apply IZR_lt; lia).
    rewrite !cond_Zopp_IZR. destruct sg.
    - rewrite Ropp_mult_distr_l_reverse, Rabs_Ropp, Rabs_pos_eq by nra.
      reflexivity.
    - rewrite Rabs_pos_eq by nra. reflexivity. }
  assert (Fs : finite s = true).
  { rewrite <- Fa. unfold finite.
    rewrite FloatAxioms.leb_spec in H. unfold SFleb in H.
    replace (Prim2SF 0x1p50) with (S754_finite false 4503599627370496 (-2))
      in H by reflexivity.
    destruct (Prim2SF (abs s)) as [sg | sg | | sg m e] eqn:E;
      cbn [SFfinite]; try reflexivity.
    - rewrite FloatAxioms.abs_spec in E.
      destruct (Prim2SF s); cbn [SFabs] in E; try discriminate E.
      injection E as <-. discriminate H.
    - discriminate H. }
  split; [exact Fs |].
  assert (F50 : finite 0x1p50 = true) by reflexivity.
  rewrite <- Fa in Fs. apply (leb_F2R _ _ Fs F50) in H.
  rewrite Va in H.
  replace (F2R 0x1p50) with (IZR (2 ^ 50)) in H; [exact H |].
  symmetry. float_value 0x1p50%float.
Qed.

(** The numbers [freqToNote] computes from a small semitone count. *)
Lemma pitch_numbers (approx : float -> float) (freq : float) :
  (abs (semitones_of approx freq) <=? 0x1p50)%float = true ->
  exists R : Z,
    F2R (rounded_of approx freq) = IZR R /\
    note (freqToNote approx freq) =
      nth_error Mapper.NOTE_NAMES (Z.to_nat ((69 + R) mod 12)) /\
    finite (octave (freqToNote approx freq)) = true /\
    F2R (octave (freqToNote approx freq)) = IZR ((69 + R) / 12 - 1).
Proof.
  intros Hs. destruct (small_finite _ Hs) as [Fs Bs].
  destruct (Math_round_correct _ Fs) as [Fr Vr].
  set (R := Mapper.Math_round (F2R (semitones_of approx freq))) in *.
  assert (BR : (Z.abs R <= 2 ^ 50 + 1)%Z).
  { pose proof (Math_round_bounds (F2R (semitones_of approx freq))) as B.
    fold R in B. apply Rabs_le_inv in Bs.
    assert (L : (- 2 ^ 50 - 1 < R)%Z)
      by (apply lt_IZR; rewrite minus_IZR, opp_IZR; lra).
    assert (U : (R < 2 ^ 50 + 1)%Z)
      by (apply lt_IZR; rewrite plus_IZR; lra).
    lia. }
  exists R. split; [exact Vr |].
  unfold freqToNote. cbn [note octave].
  fold (semitones_of approx freq). fold (rounded_of approx freq).
  assert (F69 : finite 69 = true) by reflexivity.
  assert (F12 : finite 12 = true) by reflexivity.
  assert (F1 : finite 1 = true) by reflexivity.
  destruct (add_integers 69 (rounded_of approx freq) 69 R F69 Fr F2R_69 Vr
              ltac:(lia)) as [Fm Vm].
  set (midi := (69 + rounded_of approx freq)%float) in *.
  destruct (Number_rem_12 midi _ Fm Vm) as [Fa Va].
  destruct (add_integers _ 12 _ 12 Fa F12 Va F2R_12) as [Fb Vb].
  { pose proof (Z.rem_bound_abs (69 + R) 12 ltac:(lia)). lia. }
  destruct (Number_rem_12 _ _ Fb Vb) as [Fi Vi].
  rewrite noteIndex_mod in Vi.
  pose proof (Z.mod_pos_bound (69 + R) 12 ltac:(lia)) as MB.
  split; [apply (element_integer _ _ _ Fi Vi); lia |].
  destruct (div_correct midi 12 Fm F12) as [Hq _]; [rewrite F2R_12; lra |].
  cbv zeta in Hq. rewrite Vm, F2R_12 in Hq.
  pose proof (floor_quotient_12 (69 + R) ltac:(lia)) as FQ.
  assert (Bq : Rabs (round (IZR (69 + R) / 12)) <= bpow 53).
  { pose proof (Zfloor_bound (round (IZR (69 + R) / 12))) as [L U].
    rewrite FQ in L, U.
    pose proof (Z.div_mod (69 + R) 12 ltac:(lia)) as DM.
    assert (Hq' : (Z.abs ((69 + R) / 12) <= 2 ^ 49)%Z) by lia.
    rewrite bpow_nonneg by lia.
    assert (B1 : - IZR (2 ^ 49) <= IZR ((69 + R) / 12) <= IZR (2 ^ 49))
      by (split; [rewrite <- opp_IZR |]; apply IZR_le; lia).
    assert (B2 : IZR (2 ^ 49) + 1 <= IZR (2 ^ 53))
      by (rewrite <- plus_IZR; apply IZR_le; lia).
    apply Rabs_le. lra. }
  destruct (Hq (below_overflow _ Bq)) as [Fq Vq].
  destruct (Math_floor_correct _ Fq) as [Ff Vf].
  rewrite Vq, FQ in Vf.
  apply (sub_integers _ 1 _ 1 Ff F1 Vf F2R_1).
  pose proof (Z.div_mod (69 + R) 12 ltac:(lia)) as DM. lia.
Qed.

(** X1: for a semitone count of magnitude at most [2^50] (a base-2
    logarithm of a double gives at most 12 * 1075), the note name
    [freqToNote] returns is one of the twelve entries of [NOTE_NAMES];
    when the semitone count is not a finite number (at an underflowing
    quotient, at an infinite frequency), the name is [undefined]. *)
Theorem note_is_a_pitch_class (approx : float -> float) (freq : float) :
  ((abs (semitones_of approx freq) <=? 0x1p50)%float = true ->
   exists name,
     note (freqToNote approx freq) = Some name /\
     In name Mapper.NOTE_NAMES) /\
  (finite (semitones_of approx freq) = false ->
   note (freqToNote approx freq) = None).
Proof.
  split.
  - intros Hs. destruct (pitch_numbers approx freq Hs) as (R & _ & Hn & _).
    pose proof (Z.mod_pos_bound (69 + R) 12 ltac:(lia)) as MB.
    destruct (nth_error Mapper.NOTE_NAMES (Z.to_nat ((69 + R) mod 12)))
      as [name |] eqn:E.
    + exists name. split; [exact Hn |]. eapply nth_error_In, E.
    + apply nth_error_None in E.
      change (length Mapper.NOTE_NAMES) with 12%nat in E. lia.
  - intros Fs. unfold freqToNote. cbn [note].
    fold (semitones_of approx freq).
    rewrite (Math_round_not_finite _ Fs).
    unfold finite in Fs. unfold element, Number_rem.
    rewrite Prim2SF_12.
    assert (E : Prim2SF (69 + semitones_of approx freq) = S754_nan \/
                exists s, Prim2SF (69 + semitones_of approx freq) =
                          S754_infinity s).
    { rewrite FloatAxioms.add_spec.
      replace (Prim2SF 69) with (S754_finite false 4855443348258816 (-46))
        by reflexivity.
      destruct (Prim2SF (semitones_of approx freq)) as [s | s | | s m e];
        cbn [SFfinite] in Fs; try discriminate Fs; cbn [SF64add SFadd];
        [right; now exists s | now left]. }
    assert (N : Prim2SF (nan + 12) = S754_nan).
    { rewrite FloatAxioms.add_spec, Prim2SF_nan. reflexivity. }
    destruct E as [E | [s E]]; rewrite E, N; reflexivity.
Qed.

(** X2: for a semitone count of magnitude at most [2^50], note name and
    octave identify the nearest semitone: read back as a MIDI number
    (12 * (octave + 1) + index of the name) they give 69 plus the rounded
    semitone count. *)
Theorem note_and_octave_identify_semitone
    (approx : float -> float) (freq : float) :
  (abs (semitones_of approx freq) <=? 0x1p50)%float = true ->
  finite (octave (freqToNote approx freq)) = true /\
  midi_of (freqToNote approx freq) =
  Some (69 + F2R (rounded_of approx freq)).
Proof.
  intros Hs.
  destruct (pitch_numbers approx freq Hs) as (R & Vr & Hn & Fo & Vo).
  split; [exact Fo |].
  pose proof (Z.mod_pos_bound (69 + R) 12 ltac:(lia)) as MB.
  unfold midi_of. rewrite Hn, Vo, Vr.
  set (i := Z.to_nat ((69 + R) mod 12)).
  assert (Hi : (i < 12)%nat) by (unfold i; lia).
  replace (nth_error Mapper.NOTE_NAMES i)
    with (Some (nth i Mapper.NOTE_NAMES ""%string))
    by (symmetry; apply nth_error_nth'; exact Hi).
  rewrite (index_of_nth i Hi). f_equal.
  rewrite INR_IZR_INZ. unfold i. rewrite Z2Nat.id by lia.
  pose proof (Z.div_mod (69 + R) 12 ltac:(lia)) as DM.
  pose proof (f_equal IZR DM) as E.
  rewrite !plus_IZR, mult_IZR in E. rewrite minus_IZR. lra.
Qed.

Lemma note_is_a_pitch_class_witness :
  let approx := fun _ : float => (-0x1.35538c7f2b249p+1)%float in
  let freq := 0x1.49a3d70a3d70ap+6%float in
  (abs (semitones_of approx freq) <=? 0x1p50)%float = true /\
  note (freqToNote approx freq) = Some "E"%string /\
  (exists name,
     note (freqToNote approx freq) = Some name /\
     In name Mapper.NOTE_NAMES) /\
  finite (semitones_of approx 0x1p-1074) = false /\
  note (freqToNote approx 0x1p-1074) = None.
Proof.
  intros approx freq.
  assert (Hs : (abs (semitones_of approx freq) <=? 0x1p50)%float = true)
    by (vm_compute; reflexivity).
  assert (Fu : finite (semitones_of approx 0x1p-1074) = false)
    by (vm_compute; reflexivity).
  split; [exact Hs |]. split; [vm_compute; reflexivity |].
  split; [exact (proj1 (note_is_a_pitch_class approx freq) Hs) |].
  split; [exact Fu |].
  exact (proj2 (note_is_a_pitch_class approx 0x1p-1074) Fu).
Defined.

Lemma note_and_octave_identify_semitone_witness :
  let approx := fun _ : float => (-0x1.35538c7f2b249p+1)%float in
  let freq := 0x1.49a3d70a3d70ap+6%float in
  (abs (semitones_of approx freq) <=? 0x1p50)%float = true /\
  note (freqToNote approx freq) = Some "E"%string /\
  octave (freqToNote approx freq) = 2%float /\
  rounded_of approx freq = (-29)%float /\
  finite (octave (freqToNote approx freq)) = true /\
  midi_of (freqToNote approx freq) =
  Some (69 + F2R (rounded_of approx freq)).
Proof.
  intros approx freq.
  assert (Hs : (abs (semitones_of approx freq) <=? 0x1p50)%float = true)
    by (vm_compute; reflexivity).
  split; [exact Hs |]. split; [vm_compute; reflexivity |].
  split; [vm_compute; reflexivity |]. split; [vm_compute; reflexivity |].
  exact (note_and_octave_identify_semitone approx freq Hs).
Defined.

End MapperJSNotes.
